(** * Verification of the code extractor (class [CodeExtractor])

    The development embeds the text-to-file extraction pipeline of the
    repository: the path validator, the comment classifier, the block
    segmenter and the extraction coordinator, together with the parts of the
    JavaScript platform they run on (string methods, regular expressions and
    the [path] module).

    Strings are sequences of code units; the embedding covers documents whose
    code units are below 256, one [ascii] per code unit. *)

From Stdlib Require Import Ascii String Bool Arith Lia.
From stdpp Require Import base option list gmap strings.

Set Default Proof Using "Type".

(** ** JavaScript string primitives *)

Module Js.

(** White space and line terminators as [String.prototype.trim] and the
    regular expression escape [\s] see them, below code unit 256:
    TAB, LF, VT, FF, CR, SPACE and NBSP. *)
Definition isWhiteSpace (c : ascii) : bool :=
  match nat_of_ascii c with
  | 9 | 10 | 11 | 12 | 13 | 32 | 160 => true
  | _ => false
  end.

(** Line terminators, which [.] does not match: LF and CR. *)
Definition isLineTerminator (c : ascii) : bool :=
  match nat_of_ascii c with
  | 10 | 13 => true
  | _ => false
  end.

(** [\w]: ASCII letters, digits and underscore. *)
Definition isWordChar (c : ascii) : bool :=
  let n := nat_of_ascii c in
  ((48 <=? n) && (n <=? 57)) || ((65 <=? n) && (n <=? 90))
  || ((97 <=? n) && (n <=? 122)) || (n =? 95).

(** Truthiness of a string value: every string but the empty one. *)
Definition truthy (s : string) : bool :=
  match s with
  | EmptyString => false
  | String _ _ => true
  end.

(** Truthiness of a value that is a string or [undefined]. *)
Definition truthy_opt (o : option string) : bool :=
  match o with
  | Some s => truthy s
  | None => false
  end.

(** [s.startsWith(p)] *)
Fixpoint startsWith (p s : string) : bool :=
  match p, s with
  | EmptyString, _ => true
  | String a p', String b s' => Ascii.eqb a b && startsWith p' s'
  | String _ _, EmptyString => false
  end.

(** [s.includes(p)] *)
Fixpoint includes (p s : string) : bool :=
  startsWith p s ||
  match s with
  | EmptyString => false
  | String _ s' => includes p s'
  end.

(** [s.trimStart()] *)
Fixpoint trimStart (s : string) : string :=
  match s with
  | EmptyString => EmptyString
  | String c s' => if isWhiteSpace c then trimStart s' else s
  end.

(** [s.trimEnd()] *)
Fixpoint trimEnd (s : string) : string :=
  match s with
  | EmptyString => EmptyString
  | String c s' =>
      match trimEnd s' with
      | EmptyString => if isWhiteSpace c then EmptyString else String c EmptyString
      | t => String c t
      end
  end.

(** [s.trim()] *)
Definition trim (s : string) : string := trimEnd (trimStart s).

(** [s.slice(n)] for a non-negative [n] *)
Fixpoint slice (n : nat) (s : string) : string :=
  match n, s with
  | 0, _ => s
  | S n', String _ s' => slice n' s'
  | S _, EmptyString => EmptyString
  end.

(** [s.slice(0, n)] for a non-negative [n] *)
Fixpoint take (n : nat) (s : string) : string :=
  match n, s with
  | S n', String c s' => String c (take n' s')
  | _, _ => EmptyString
  end.

(** [s.split(sep)] for a one-character separator: the result always has
    at least one element. *)
Fixpoint split (sep : ascii) (s : string) : list string :=
  match s with
  | EmptyString => [EmptyString]
  | String c s' =>
      if Ascii.eqb c sep then EmptyString :: split sep s'
      else match split sep s' with
           | l :: ls => String c l :: ls
           | [] => [String c EmptyString]
           end
  end.

(** [a.join(sep)] *)
Fixpoint join (sep : string) (a : list string) : string :=
  match a with
  | [] => EmptyString
  | [x] => x
  | x :: xs => x +:+ sep +:+ join sep xs
  end.

(** Every code unit of [s] satisfies [p]. *)
Fixpoint all (p : ascii -> bool) (s : string) : bool :=
  match s with
  | EmptyString => true
  | String c s' => p c && all p s'
  end.

(** The number of occurrences of a character. *)
Fixpoint count (c : ascii) (s : string) : nat :=
  match s with
  | EmptyString => 0
  | String d s' => (if Ascii.eqb c d then 1 else 0) + count c s'
  end.

(** A string that does not start with white space. *)
Definition headTrimmed (s : string) : Prop :=
  match s with
  | EmptyString => True
  | String c _ => isWhiteSpace c = false
  end.

End Js.

(** ** Regular expressions: a backtracking matcher

    The matcher follows the continuation-passing semantics of the ECMAScript
    specification: a pattern is run against a state and a continuation, the
    first alternative that lets the continuation succeed wins. *)

Module Regex.

(** Character classes and single-character escapes. *)
Inductive cclass : Type :=
| CChar (c : ascii)          (* a literal character *)
| CWord                      (* \w *)
| CSpace                     (* \s *)
| CDot                       (* .  *)
| CUnion (a b : cclass)      (* [ab] *)
| CNot (a : cclass).         (* [^a], \S *)

Fixpoint cmem (cs : cclass) (c : ascii) : bool :=
  match cs with
  | CChar d => Ascii.eqb d c
  | CWord => Js.isWordChar c
  | CSpace => Js.isWhiteSpace c
  | CDot => negb (Js.isLineTerminator c)
  | CUnion a b => cmem a c || cmem b c
  | CNot a => negb (cmem a c)
  end.

Inductive regex : Type :=
| RChar (cs : cclass)                   (* one character of a class *)
| RBol                                  (* ^ *)
| REol                                  (* $ *)
| REmpty
| RSeq (r1 r2 : regex)
| RStar (greedy : bool) (r : regex)     (* r* and r*? *)
| ROpt (r : regex)                      (* r? *)
| RGroup (n : nat) (r : regex).         (* the n-th capturing group *)

(** [r+] *)
Definition RPlus (r : regex) : regex := RSeq r (RStar true r).

(** A literal string. *)
Fixpoint RLit (s : string) : regex :=
  match s with
  | EmptyString => REmpty
  | String c s' => RSeq (RChar (CChar c)) (RLit s')
  end.

(** Matcher state: the index reached in the input, the input from there
    on, and the captures made so far (latest first). *)
Record MState : Type := mkMState
  { pos : nat; rest : string; caps : list (nat * string) }.

Definition Cont : Type := MState -> option MState.

Definition advance (s : MState) (t : string) : MState :=
  {| pos := S (pos s); rest := t; caps := caps s |}.

(** Close group [n], opened at state [s0], at state [s]. *)
Definition setcap (n : nat) (s0 s : MState) : MState :=
  {| pos := pos s; rest := rest s;
     caps := (n, Js.take (pos s - pos s0) (rest s0)) :: caps s |}.

Fixpoint getcap (n : nat) (cs : list (nat * string)) : option string :=
  match cs with
  | [] => None
  | (i, v) :: cs' => if i =? n then Some v else getcap n cs'
  end.

(** The iterations of a star: at most one per remaining character, since
    an iteration that consumes nothing is rejected. (The language also
    clears, at the start of an iteration, the groups inside the repeated
    pattern; the patterns of the program have no group inside a star, and
    their one optional part is entered with its group unset, so there is
    nothing to clear.) *)
Fixpoint star_loop (body : MState -> Cont -> option MState) (greedy : bool)
    (fuel : nat) (s : MState) (k : Cont) : option MState :=
  match fuel with
  | 0 => k s
  | S fuel' =>
      let again (_ : unit) :=
        body s (fun s' =>
          if pos s <? pos s' then star_loop body greedy fuel' s' k else None) in
      if greedy then
        match again tt with Some e => Some e | None => k s end
      else
        match k s with Some e => Some e | None => again tt end
  end.

Fixpoint m (r : regex) (s : MState) (k : Cont) {struct r} : option MState :=
  match r with
  | RChar cs =>
      match rest s with
      | String c t => if cmem cs c then k (advance s t) else None
      | EmptyString => None
      end
  | RBol => if pos s =? 0 then k s else None
  | REol => match rest s with EmptyString => k s | String _ _ => None end
  | REmpty => k s
  | RSeq r1 r2 => m r1 s (fun s1 => m r2 s1 k)
  | RStar g r' => star_loop (m r') g (S (String.length (rest s))) s k
  | ROpt r' =>
      match m r' s (fun s' => if pos s <? pos s' then k s' else None) with
      | Some e => Some e
      | None => k s
      end
  | RGroup n r' => m r' s (fun s' => k (setcap n s s'))
  end.

(** The result of a successful [exec]. *)
Record MatchResult : Type := mkMatch
  { index : nat;                      (* match.index *)
    matched : string;                 (* match[0] *)
    groups : list (nat * string);     (* match[1], match[2], ... *)
    lastIndex : nat }.                (* the index after the match *)

(** [match[n]], [None] for [undefined]. *)
Definition group (n : nat) (mr : MatchResult) : option string :=
  getcap n (groups mr).

(** The state in which a match attempt starts at index [p], [s] being the
    input from there on. *)
Definition start (p : nat) (s : string) : MState :=
  {| pos := p; rest := s; caps := [] |}.

(** Leftmost match at or after index [p], where [s] is the input from [p]. *)
Fixpoint search (r : regex) (p : nat) (s : string) : option MatchResult :=
  match m r (start p s) Some with
  | Some e =>
      Some {| index := p; matched := Js.take (pos e - p) s;
              groups := caps e; lastIndex := pos e |}
  | None =>
      match s with
      | String _ t => search r (S p) t
      | EmptyString => None
      end
  end.

(** [r.exec(s)] for a regular expression without the [g] flag, and for one
    with the [g] flag whose [lastIndex] is [from]. *)
Definition exec_from (r : regex) (from : nat) (s : string) : option MatchResult :=
  if from <=? String.length s then search r from (Js.slice from s) else None.

Definition exec (r : regex) (s : string) : option MatchResult := exec_from r 0 s.

(** [r.test(s)] *)
Definition test (r : regex) (s : string) : bool :=
  match exec r s with Some _ => true | None => false end.

(** The loop [while ((match = r.exec(s)) !== null) ...] over a regular
    expression with the [g] flag, started with [lastIndex] at [from]: the
    matches in order. A match leaves [lastIndex] after it; the loop ends at
    the first failure, which resets [lastIndex] to 0. [None] stands for a
    loop that has not ended within [fuel] calls of [exec]. *)
Fixpoint exec_loop (fuel : nat) (r : regex) (from : nat) (s : string)
    : option (list MatchResult) :=
  match fuel with
  | 0 => None
  | S fuel' =>
      match exec_from r from s with
      | Some mr => cons mr <$> exec_loop fuel' r (lastIndex mr) s
      | None => Some []
      end
  end.

Definition exec_all (r : regex) (s : string) : option (list MatchResult) :=
  exec_loop (S (String.length s)) r 0 s.

Infix "~~" := RSeq (at level 60, right associativity).

(** The states a pattern can lead to from a state, whatever the order in
    which the matcher tries them. *)
Inductive Span : regex -> MState -> MState -> Prop :=
| SpanChar cs s c t :
    rest s = String c t -> cmem cs c = true -> Span (RChar cs) s (advance s t)
| SpanBol s : pos s = 0 -> Span RBol s s
| SpanEol s : rest s = EmptyString -> Span REol s s
| SpanEmpty s : Span REmpty s s
| SpanSeq r1 r2 s s1 s2 :
    Span r1 s s1 -> Span r2 s1 s2 -> Span (RSeq r1 r2) s s2
| SpanStarNil g r s : Span (RStar g r) s s
| SpanStarCons g r s s1 s2 :
    Span r s s1 -> pos s < pos s1 -> Span (RStar g r) s1 s2 ->
    Span (RStar g r) s s2
| SpanOptNone r s : Span (ROpt r) s s
| SpanOptSome r s s1 : Span r s s1 -> pos s < pos s1 -> Span (ROpt r) s s1
| SpanGroup n r s s1 : Span r s s1 -> Span (RGroup n r) s (setcap n s s1).

(** [Reads L s s']: from [s] to [s'] the matcher has read a string of [L]
    and nothing else has changed. *)
Definition Reads (L : string -> Prop) (s s' : MState) : Prop :=
  exists w, L w /\ rest s = w +:+ rest s' /\
            pos s' = pos s + String.length w /\ caps s' = caps s.

Definition Lchar (cs : cclass) (w : string) : Prop :=
  exists c, w = String c "" /\ cmem cs c = true.
Definition Lstar (cs : cclass) (w : string) : Prop := Js.all (cmem cs) w = true.
Definition Lplus (cs : cclass) (w : string) : Prop :=
  w <> "" /\ Js.all (cmem cs) w = true.
Definition Lseq (L1 L2 : string -> Prop) (w : string) : Prop :=
  exists u v, w = u +:+ v /\ L1 u /\ L2 v.

(** Patterns every match of which consumes at least one character. *)
Fixpoint consuming (r : regex) : bool :=
  match r with
  | RChar _ => true
  | RSeq r1 r2 => consuming r1 || consuming r2
  | RGroup _ r' => consuming r'
  | _ => false
  end.

(** The bodies of the groups numbered [n] in a pattern. *)
Fixpoint groupBodies (n : nat) (r : regex) : list regex :=
  match r with
  | RSeq r1 r2 => groupBodies n r1 ++ groupBodies n r2
  | RStar _ r' | ROpt r' => groupBodies n r'
  | RGroup i r' => (if i =? n then [r'] else []) ++ groupBodies n r'
  | _ => []
  end.

(** Patterns every match of which sets group [n]. *)
Fixpoint captures (n : nat) (r : regex) : bool :=
  match r with
  | RSeq r1 r2 => captures n r1 || captures n r2
  | RGroup i r' => (i =? n) || captures n r'
  | _ => false
  end.

End Regex.

(** ** The [path] module of the platform (POSIX flavour)

    [path.join], [path.basename] and [path.extname] belong to the platform,
    not to the repository; they are modelled after the documented behaviour
    of the platform's POSIX implementation. *)

Module NodePath.

Definition endsWithSlash (s : string) : bool :=
  match last (Js.split "/" s) with
  | Some EmptyString => Js.truthy s
  | _ => false
  end.

(** Resolve [.] and [..] segments and drop empty ones. [stack] holds the
    segments kept so far, last first. *)
Fixpoint normalizeSegments (allowAboveRoot : bool) (stack : list string)
    (segs : list string) : list string :=
  match segs with
  | [] => rev stack
  | seg :: segs' =>
      if String.eqb seg "" || String.eqb seg "." then
        normalizeSegments allowAboveRoot stack segs'
      else if String.eqb seg ".." then
        match stack with
        | top :: stack' =>
            if String.eqb top ".."
            then normalizeSegments allowAboveRoot (seg :: stack) segs'
            else normalizeSegments allowAboveRoot stack' segs'
        | [] =>
            if allowAboveRoot
            then normalizeSegments allowAboveRoot [seg] segs'
            else normalizeSegments allowAboveRoot [] segs'
        end
      else normalizeSegments allowAboveRoot (seg :: stack) segs'
  end.

(** [path.normalize(p)] *)
Definition normalize (p : string) : string :=
  if negb (Js.truthy p) then "."
  else
    let isAbsolute := Js.startsWith "/" p in
    let trailingSeparator := endsWithSlash p in
    let q := Js.join "/" (normalizeSegments (negb isAbsolute) [] (Js.split "/" p)) in
    if negb (Js.truthy q) then
      if isAbsolute then "/" else if trailingSeparator then "./" else "."
    else
      let q := if trailingSeparator then q +:+ "/" else q in
      if isAbsolute then "/" +:+ q else q.

(** [path.join(a, b)] *)
Definition join (a b : string) : string :=
  match Js.truthy a, Js.truthy b with
  | true, true => normalize (a +:+ "/" +:+ b)
  | true, false => normalize a
  | false, true => normalize b
  | false, false => "."
  end.

(** [path.basename(p)]: the last portion of the path, trailing separators
    ignored. *)
Definition basename (p : string) : string :=
  default "" (last (filter (fun seg => Js.truthy seg = true) (Js.split "/" p))).

(** The text of [s] from its last dot on, and whether that dot is the
    first character of [s]; [None] when [s] has no dot. *)
Fixpoint lastDot (s : string) : option (string * bool) :=
  match s with
  | EmptyString => None
  | String c s' =>
      match lastDot s' with
      | Some (e, _) => Some (e, false)
      | None => if Ascii.eqb c "." then Some (s, true) else None
      end
  end.

(** [path.extname(p)]: from the last dot of the basename to its end; empty
    when there is no dot, when the only dot starts the basename, and for
    the basename [..]. *)
Definition extname (p : string) : string :=
  let b := basename p in
  match lastDot b with
  | Some (e, false) => if String.eqb b ".." then "" else e
  | _ => ""
  end.

End NodePath.

(** ** The extractor: class [CodeExtractor] *)

Module CodeExtractor.
Import Regex.

(** A line feed and a double quote, as one-character strings and as
    characters. *)
Definition LF : ascii := "010"%char.
Definition DQ : ascii := "034"%char.
Definition nl : string := String LF "".
Definition dq : string := String DQ "".

(** *** Data model (src/types) *)

Record FileMetadata : Type := mkFile
  { language : string;
    fileName : string;
    filePath : string;
    content : string;
    type : string }.

Record CodeBlock : Type := mkBlock
  { block_path : string;        (* CodeBlock.path *)
    block_content : string }.   (* CodeBlock.content *)

Record ParsedComment : Type := mkParsed
  { path : option string;       (* path?: string *)
    isPath : bool;
    comment : option string }.  (* comment?: string *)

Global Instance FileMetadata_eq_dec : EqDecision FileMetadata.
Proof. solve_decision. Defined.
Global Instance CodeBlock_eq_dec : EqDecision CodeBlock.
Proof. solve_decision. Defined.

(** *** Static tables and patterns *)

(** [LANGUAGE_EXTENSIONS], in the order of its entries. *)
Definition LANGUAGE_EXTENSIONS : list (string * string) :=
  [ ("typescript", ".ts"); ("javascript", ".js"); ("python", ".py");
    ("java", ".java"); ("cpp", ".cpp"); ("c++", ".cpp"); ("c#", ".cs");
    ("rust", ".rs"); ("go", ".go"); ("ruby", ".rb"); ("php", ".php");
    ("html", ".html"); ("css", ".css"); ("sql", ".sql"); ("yaml", ".yml");
    ("json", ".json"); ("xml", ".xml"); ("markdown", ".md");
    ("shell", ".sh"); ("bash", ".sh"); ("zsh", ".sh");
    ("powershell", ".ps1") ].

(** The character classes [[\w-]], [[\w/-]], [[^>]], [[^Q]] (with Q the
    double quote) and [[\s\S]]. *)
Definition wordHyphen : cclass := CUnion CWord (CChar "-").
Definition wordSlashHyphen : cclass := CUnion CWord (CUnion (CChar "/") (CChar "-")).
Definition notGt : cclass := CNot (CChar ">").
Definition notDq : cclass := CNot (CChar DQ).
Definition anyChar : cclass := CUnion CSpace (CNot CSpace).
Definition spaces : regex := RStar true (RChar CSpace).

(** The sub-pattern [[\w-]+\/[\w/-]+\.\w+] that the validator and the three
    path patterns share. *)
Definition PATH_SHAPE : regex :=
  RPlus (RChar wordHyphen) ~~ RChar (CChar "/") ~~ RPlus (RChar wordSlashHyphen)
  ~~ RChar (CChar ".") ~~ RPlus (RChar CWord).

(** [/^[\w-]+\/[\w/-]+\.\w+$/], the pattern of [isValidPath]. *)
Definition VALID_PATH_REGEX : regex := RBol ~~ PATH_SHAPE ~~ REol.

(** [ARTIFACT_REGEX = /<antArtifact[^>]*>([\s\S]*?)<\/antArtifact>/g] *)
Definition ARTIFACT_REGEX : regex :=
  RLit "<antArtifact" ~~ RStar true (RChar notGt) ~~ RLit ">"
  ~~ RGroup 1 (RStar false (RChar anyChar)) ~~ RLit "</antArtifact>".

(** [ARTIFACT_ATTRS_REGEX = /(\w+)=Q([^Q]*?)Q/g], with Q the double quote *)
Definition ARTIFACT_ATTRS_REGEX : regex :=
  RGroup 1 (RPlus (RChar CWord)) ~~ RLit "=" ~~ RChar (CChar DQ)
  ~~ RGroup 2 (RStar false (RChar notDq)) ~~ RChar (CChar DQ).

(** [PATH_PATTERNS], in order:
    [/\/\/\s*([\w-]+\/[\w/-]+\.\w+)(?:\s*:\s*(.+))?/],
    [/\/\/\s*@file\s+([\w-]+\/[\w/-]+\.\w+)/] and
    [/\/\/\s*filepath:\s*([\w-]+\/[\w/-]+\.\w+)/]. *)
Definition PATH_PATTERNS : list regex :=
  [ RLit "//" ~~ spaces ~~ RGroup 1 PATH_SHAPE
      ~~ ROpt (spaces ~~ RLit ":" ~~ spaces ~~ RGroup 2 (RPlus (RChar CDot)));
    RLit "//" ~~ spaces ~~ RLit "@file" ~~ RPlus (RChar CSpace) ~~ RGroup 1 PATH_SHAPE;
    RLit "//" ~~ spaces ~~ RLit "filepath:" ~~ spaces ~~ RGroup 1 PATH_SHAPE ].

(** *** Path validator *)

Definition isValidPath (path : string) : bool :=
  test VALID_PATH_REGEX path
  && negb (Js.includes ".." path)
  && negb (Js.startsWith "/" path)
  && negb (Js.includes "\" path).

(** The characters of [[\w-]] and of [[\w/-]]. *)
Definition isWordOrHyphen (c : ascii) : bool := Js.isWordChar c || Ascii.eqb "-" c.
Definition isWordSlashOrHyphen (c : ascii) : bool :=
  Js.isWordChar c || (Ascii.eqb "/" c || Ascii.eqb "-" c).

(** The strings the validator's pattern describes: a non-empty run of word
    characters and hyphens, a slash, a non-empty run of word characters,
    hyphens and slashes, a dot, and a non-empty run of word characters. *)
Definition path_shape (p : string) : Prop :=
  exists a b e,
    p = a +:+ "/" +:+ b +:+ "." +:+ e /\
    a <> "" /\ b <> "" /\ e <> "" /\
    Js.all isWordOrHyphen a = true /\
    Js.all isWordSlashOrHyphen b = true /\
    Js.all Js.isWordChar e = true.

(** *** Comment classifier *)

(** The loop of [parseComment] over the patterns: the first pattern that
    matches with a valid captured path decides. A capture that did not
    take part in the match is [undefined], which [isValidPath] rejects
    (its pattern is tested against the text of [undefined], without a
    slash). *)
Fixpoint tryPatterns (patterns : list regex) (line : string) : option ParsedComment :=
  match patterns with
  | [] => None
  | pattern :: patterns' =>
      match exec pattern line with
      | Some mt =>
          match group 1 mt with
          | Some p =>
              if isValidPath p
              then Some {| isPath := true; path := Some p; comment := group 2 mt |}
              else tryPatterns patterns' line
          | None => tryPatterns patterns' line
          end
      | None => tryPatterns patterns' line
      end
  end.

Definition parseComment (line : string) : ParsedComment :=
  let line := Js.trim line in
  if negb (Js.startsWith "//" line) then
    {| isPath := false; path := None; comment := None |}
  else
    match tryPatterns PATH_PATTERNS line with
    | Some parsed => parsed
    | None =>
        {| isPath := false; path := None;
           comment := Some (Js.trim (Js.slice 2 line)) |}
    end.

(** *** Block segmenter *)

(** The variables of [splitIntoCodeBlocks]. [currentPath] is a string or
    [null]; [None] stands for [null] and [undefined] alike. *)
Record SegState : Type := mkSeg
  { blocks : list CodeBlock;
    currentPath : option string;
    currentContent : list string;
    inCodeBlock : bool;
    codeBlockContent : string }.

Definition initial : SegState :=
  {| blocks := []; currentPath := None; currentContent := [];
     inCodeBlock := false; codeBlockContent := "" |}.

(** The test [line.trim().startsWith('```')]. *)
Definition isFenceLine (line : string) : bool :=
  Js.startsWith "```" (Js.trim line).

(** [if (currentPath && currentContent.length > 0) { blocks.push(..) }]:
    the blocks after the test, and whether the push took place. *)
Definition saveBlock (st : SegState) : list CodeBlock * bool :=
  match currentPath st with
  | Some p =>
      if Js.truthy p && (0 <? length (currentContent st)) then
        (blocks st ++ [ {| block_path := p;
                           block_content := Js.trim (Js.join nl (currentContent st)) |} ],
         true)
      else (blocks st, false)
  | None => (blocks st, false)
  end.

Section Segmenter.

(** The scan is written over the classifier it calls, which is
    [parseComment] in [splitIntoCodeBlocks]. *)
Variable classify : string -> ParsedComment.

(** The body of the [for] loop, for one line. *)
Definition step (st : SegState) (line : string) : SegState :=
  if isFenceLine line then
    if inCodeBlock st then
      {| blocks := blocks st;
         currentPath := currentPath st;
         currentContent :=
           if Js.truthy_opt (currentPath st)
           then currentContent st ++ [codeBlockContent st]
           else currentContent st;
         inCodeBlock := false;
         codeBlockContent := "" |}
    else
      {| blocks := blocks st; currentPath := currentPath st;
         currentContent := currentContent st;
         inCodeBlock := true; codeBlockContent := codeBlockContent st |}
  else if inCodeBlock st then
    {| blocks := blocks st; currentPath := currentPath st;
       currentContent := currentContent st;
       inCodeBlock := true;
       codeBlockContent := codeBlockContent st +:+ line +:+ nl |}
  else
    let parsedComment := classify line in
    if isPath parsedComment then
      let '(blocks', saved) := saveBlock st in
      let content' := if saved then [] else currentContent st in
      {| blocks := blocks';
         currentPath := path parsedComment;
         currentContent :=
           match comment parsedComment with
           | Some c => if Js.truthy c then content' ++ ["// " +:+ c] else content'
           | None => content'
           end;
         inCodeBlock := false;
         codeBlockContent := codeBlockContent st |}
    else if Js.truthy_opt (currentPath st) then
      {| blocks := blocks st; currentPath := currentPath st;
         currentContent := currentContent st ++ [line];
         inCodeBlock := false;
         codeBlockContent := codeBlockContent st |}
    else st.

(** The whole [for] loop. *)
Definition scan (st : SegState) (lines : list string) : SegState :=
  foldl step st lines.

(** The scan followed by the save of the last block. *)
Definition segment (content : string) : list CodeBlock :=
  (saveBlock (scan initial (Js.split LF content))).1.

End Segmenter.

Definition splitIntoCodeBlocks (content : string) : list CodeBlock :=
  segment parseComment content.

(** *** Language detector *)

(** The loop of [detectLanguageFromPath] over the entries of the table. *)
Fixpoint findLanguage (entries : list (string * string)) (ext : string) : string :=
  match entries with
  | [] => "txt"
  | (lang, langExt) :: entries' =>
      if String.eqb langExt ("." +:+ ext) then lang else findLanguage entries' ext
  end.

Definition detectLanguageFromPath (filePath : string) : string :=
  let ext := Js.slice 1 (NodePath.extname filePath) in
  findLanguage LANGUAGE_EXTENSIONS ext.

Definition detectLanguage (content : string) : string :=
  if Js.includes "import { useState }" content then "typescript"
  else if Js.includes "def " content then "python"
  else if Js.includes "public class " content then "java"
  else if Js.includes "<?php" content then "php"
  else if Js.includes "<!DOCTYPE html>" content then "html"
  else "txt".

(** *** Extraction coordinator *)

Section Coordinator.

(** [this.options.outputDir] *)
Variable outputDir : string.

(** [processCodeBlock(block, defaultLanguage?)]; its result type admits
    [null], which it never returns. *)
Definition processCodeBlock (block : CodeBlock) (defaultLanguage : option string)
    : option FileMetadata :=
  let filePath := NodePath.join outputDir (block_path block) in
  let language :=
    match defaultLanguage with
    | Some l => if Js.truthy l then l else detectLanguageFromPath (block_path block)
    | None => detectLanguageFromPath (block_path block)
    end in
  Some {| language := language;
          fileName := NodePath.basename filePath;
          filePath := filePath;
          content := block_content block;
          type := "code-block" |}.

(** The variables [files] and [processedPaths] of [extractFiles]. *)
Definition Acc : Type := (list FileMetadata * gset string)%type.

(** [if (fileInfo && !processedPaths.has(fileInfo.filePath)) { .. }] *)
Definition addFile (acc : Acc) (fileInfo : option FileMetadata) : Acc :=
  match fileInfo with
  | Some f =>
      if decide (filePath f ∈ acc.2) then acc
      else (acc.1 ++ [f], {[ filePath f ]} ∪ acc.2)
  | None => acc
  end.

(** [for (const block of blocks) { .. }] with a given default language. *)
Definition addBlocks (defaultLanguage : option string) (acc : Acc)
    (blocks : list CodeBlock) : Acc :=
  foldl (fun acc block => addFile acc (processCodeBlock block defaultLanguage))
        acc blocks.

(** [attributes[attrMatch[1]] = attrMatch[2]]. A property set to
    [undefined] reads like an absent one; an [undefined] key is the
    property named undefined. Only the properties [type] and [language] are
    ever read, so names the object treats specially make no difference. *)
Definition setAttribute (attributes : gmap string string) (attrMatch : MatchResult)
    : gmap string string :=
  let name := default "undefined" (group 1 attrMatch) in
  match group 2 attrMatch with
  | Some v => <[ name := v ]> attributes
  | None => delete name attributes
  end.

(** [attributes.type?.includes('code') || attributes.type?.includes('html')] *)
Definition isCodeArtifact (attributes : gmap string string) : bool :=
  match attributes !! "type" with
  | Some t => Js.includes "code" t || Js.includes "html" t
  | None => false
  end.

(** [attributes.language || this.detectLanguage(artifactContent)] *)
Definition artifactLanguage (attributes : gmap string string) (artifactContent : string)
    : string :=
  if Js.truthy_opt (attributes !! "language")
  then default "" (attributes !! "language")
  else detectLanguage artifactContent.

(** The body of the loop over the matches of [ARTIFACT_REGEX]. [None]
    stands for a raised TypeError (a method called on an [undefined]
    artifact content) or an inner loop that does not end. *)
Definition processArtifact (acc : Acc) (mt : MatchResult) : option Acc :=
  attrMatches ← exec_all ARTIFACT_ATTRS_REGEX (matched mt);
  let attributes := foldl setAttribute ∅ attrMatches in
  if isCodeArtifact attributes then
    artifactContent ← group 1 mt;
    let language := artifactLanguage attributes artifactContent in
    Some (addBlocks (Some language) acc (splitIntoCodeBlocks artifactContent))
  else Some acc.

Fixpoint processArtifacts (acc : Acc) (matches : list MatchResult) : option Acc :=
  match matches with
  | [] => Some acc
  | mt :: matches' =>
      acc' ← processArtifact acc mt;
      processArtifacts acc' matches'
  end.

(** [extractFiles(content)]; [None] stands for a raised error or a loop
    that does not end. *)
Definition extractFiles (content : string) : option (list FileMetadata) :=
  let acc := addBlocks None ([], ∅) (splitIntoCodeBlocks content) in
  matches ← exec_all ARTIFACT_REGEX content;
  acc' ← processArtifacts acc matches;
  Some acc'.1.

End Coordinator.

(** *** The fragments of a run, in processing order

    A fragment is a block together with the default language it is
    processed with: none for the blocks of the direct scan, the language of
    the artifact for the blocks found inside an artifact span. *)

Definition Fragment : Type := (CodeBlock * option string)%type.

(** The fragments the artifact loop takes from one match. *)
Definition artifactFragments (mt : MatchResult) : option (list Fragment) :=
  attrMatches ← exec_all ARTIFACT_ATTRS_REGEX (matched mt);
  let attributes := foldl setAttribute ∅ attrMatches in
  if isCodeArtifact attributes then
    artifactContent ← group 1 mt;
    Some ((fun b => (b, Some (artifactLanguage attributes artifactContent)))
            <$> splitIntoCodeBlocks artifactContent)
  else Some [].

Fixpoint artifactStream (matches : list MatchResult) : option (list Fragment) :=
  match matches with
  | [] => Some []
  | mt :: matches' =>
      frags ← artifactFragments mt;
      frags' ← artifactStream matches';
      Some (frags ++ frags')
  end.

(** Direct fragments first, then the artifact fragments. *)
Definition fragmentStream (content : string) : option (list Fragment) :=
  matches ← exec_all ARTIFACT_REGEX content;
  artifact ← artifactStream matches;
  Some (((fun b => (b, None)) <$> splitIntoCodeBlocks content) ++ artifact).

(** The resolved path of a fragment. *)
Definition resolvedPath (outputDir : string) (frag : Fragment) : string :=
  NodePath.join outputDir (block_path frag.1).

(** The file a fragment is turned into. *)
Definition fileOf (outputDir : string) (frag : Fragment) : FileMetadata :=
  {| language :=
       match frag.2 with
       | Some l => if Js.truthy l then l else detectLanguageFromPath (block_path frag.1)
       | None => detectLanguageFromPath (block_path frag.1)
       end;
     fileName := NodePath.basename (resolvedPath outputDir frag);
     filePath := resolvedPath outputDir frag;
     content := block_content frag.1;
     type := "code-block" |}.

(** One turn of either loop over blocks, on a fragment. *)
Definition addFragment (outputDir : string) (acc : Acc) (frag : Fragment) : Acc :=
  addFile acc (processCodeBlock outputDir frag.1 frag.2).

(** The files and the processed paths after a list of fragments. *)
Definition collect (outputDir : string) (stream : list Fragment) : Acc :=
  foldl (addFragment outputDir) ([], ∅) stream.

(** [frag] is at index [i] of the stream and no fragment before it has its
    resolved path. *)
Definition firstOfPath (outputDir : string) (stream : list Fragment)
    (i : nat) (frag : Fragment) : Prop :=
  stream !! i = Some frag /\
  forall j frag', j < i -> stream !! j = Some frag' ->
    resolvedPath outputDir frag' <> resolvedPath outputDir frag.

(** The values of the pairs named [type] among the name-value pairs
    that the attribute pattern finds in the text of a span, in order. *)
Definition typeValue (attrMatch : MatchResult) : option string :=
  match group 1 attrMatch with
  | Some name => if String.eqb name "type" then group 2 attrMatch else None
  | None => None
  end.

Definition declaredTypes (span : string) : list string :=
  match exec_all ARTIFACT_ATTRS_REGEX span with
  | Some attrMatches => omap typeValue attrMatches
  | None => []
  end.

(** A type value that does not let the artifact loop proceed. *)
Definition notCodeType (v : string) : bool :=
  negb (Js.includes "code" v) && negb (Js.includes "html" v).

(** The block that the test of [saveBlock] pushes in a state, if it pushes
    one. *)
Definition finalised (st : SegState) : option CodeBlock :=
  if (saveBlock st).2 then last (saveBlock st).1 else None.

(** Whether the loop handles a line as a new path declaration: the line is
    not a fence line, the scan is outside any fence, and the classifier
    takes the line for a path. *)
Definition declaresPath (classify : string -> ParsedComment) (st : SegState)
    (line : string) : bool :=
  negb (isFenceLine line) && negb (inCodeBlock st) && isPath (classify line).

(** The states in which the loop and the code after it make the test of
    [saveBlock], in order: the state before each line handled as a new path
    declaration, and the state at the end of the input. *)
Fixpoint finalisations (classify : string -> ParsedComment) (st : SegState)
    (lines : list string) : list SegState :=
  match lines with
  | [] => [st]
  | line :: lines' =>
      (if declaresPath classify st line then [st] else [])
      ++ finalisations classify (step classify st line) lines'
  end.

(** A segmenter state whose paths, of the completed blocks and the current
    one, are paths the validator has accepted. *)
Definition pathsValid (st : SegState) : Prop :=
  Forall (fun b => isValidPath (block_path b) = true) (blocks st) /\
  forall p, currentPath st = Some p -> isValidPath p = true.

(** Whether a pattern matches a line with a captured path that validates. *)
Definition matchesValidPath (pattern : regex) (line : string) : bool :=
  match exec pattern line with
  | Some mt =>
      match group 1 mt with
      | Some p => isValidPath p
      | None => false
      end
  | None => false
  end.

End CodeExtractor.

(** ** Sample documents *)

Module Samples.
Import CodeExtractor.

(** A file directive followed by a fenced block of one line. *)
Definition fileDirective : string :=
  "// @file utils/x.py" +:+ nl +:+ "```" +:+ nl +:+ "def f(): pass" +:+ nl +:+ "```".

(** The same, with a language tag on the fence and a final newline. *)
Definition fileDirectiveTagged : string :=
  "// @file utils/x.py" +:+ nl +:+ "```python" +:+ nl +:+ "def f(): pass" +:+ nl
  +:+ "```" +:+ nl.

(** The inner text of the artifacts below: a path comment and a fenced
    block. *)
Definition artifactInner : string :=
  nl +:+ "// src/a/b.ts" +:+ nl +:+ "```" +:+ nl +:+ "x" +:+ nl +:+ "```" +:+ nl.

(** A document made of one artifact of type text/markdown. *)
Definition markdownArtifact : string :=
  "<antArtifact type=" +:+ dq +:+ "text/markdown" +:+ dq +:+ ">"
  +:+ artifactInner +:+ "</antArtifact>".

(** The match of [ARTIFACT_REGEX] on it. *)
Definition markdownMatch : Regex.MatchResult :=
  {| Regex.index := 0; Regex.matched := markdownArtifact;
     Regex.groups := [(1, artifactInner)];
     Regex.lastIndex := String.length markdownArtifact |}.

(** An artifact of type text/markdown whose inner text holds a pair named
    type with a code value. *)
Definition shadowedInner : string :=
  nl +:+ "// src/a/b.ts" +:+ nl +:+ "```" +:+ nl
  +:+ "type=" +:+ dq +:+ "code" +:+ dq +:+ nl +:+ "```" +:+ nl.

Definition shadowedArtifact : string :=
  "<antArtifact type=" +:+ dq +:+ "text/markdown" +:+ dq +:+ ">"
  +:+ shadowedInner +:+ "</antArtifact>".

Definition shadowedMatch : Regex.MatchResult :=
  {| Regex.index := 0; Regex.matched := shadowedArtifact;
     Regex.groups := [(1, shadowedInner)];
     Regex.lastIndex := String.length shadowedArtifact |}.

End Samples.

(** ** The specification's wording, for comparison with the code *)

Module Spec.

(** A segment in the specification's sense: a non-empty run of word
    characters and hyphens. *)
Definition isSegment (s : string) : bool :=
  Js.truthy s && Js.all CodeExtractor.isWordOrHyphen s.

(** The text before the last dot of [s] and the text after it. *)
Fixpoint splitLastDot (s : string) : option (string * string) :=
  match s with
  | EmptyString => None
  | String c s' =>
      match splitLastDot s' with
      | Some (stem, ext) => Some (String c stem, ext)
      | None => if Ascii.eqb c "." then Some (EmptyString, s') else None
      end
  end.

(** The shape in the specification's words: one or more segments separated
    by forward slashes, ending in a dot and an extension of word
    characters. *)
Definition matchesShape (p : string) : bool :=
  match splitLastDot p with
  | Some (stem, ext) =>
      Js.truthy ext && Js.all Js.isWordChar ext && forallb isSegment (Js.split "/" stem)
  | None => false
  end.

(** A fence marker line in the specification's words: after trimming, three
    backticks, optionally followed by a language tag (a run of characters
    without white space), and nothing else. *)
Definition isFenceMarker (line : string) : bool :=
  let t := Js.trim line in
  Js.startsWith "```" t && Js.all (fun c => negb (Js.isWhiteSpace c)) (Js.slice 3 t).

(** Acceptance in the specification's words. *)
Definition acceptsPath (p : string) : bool :=
  matchesShape p
  && negb (Js.includes ".." p)
  && negb (Js.startsWith "/" p)
  && negb (Js.includes "\" p).

End Spec.

(** ** Views of the segmenter used in statements *)

Module Views.
Import CodeExtractor.

(** The path a line declares when it is classified as a path declaration. *)
Definition declaredPath (line : string) : option string :=
  if isPath (parseComment line) then path (parseComment line) else None.

(** The text a fenced block buffers for its lines: each raw line followed
    by a newline. *)
Fixpoint fencedText (body : list string) : string :=
  match body with
  | [] => ""
  | line :: body' => line +:+ nl +:+ fencedText body'
  end.

End Views.

(** ** The driver: prompting, checking and writing

    The rest of the class talks to the outside: it reads the input file,
    asks which files exist, makes directories, writes files, asks the user a
    question and prints messages. These functions are embedded as programs
    that make calls and go on with the answers; a run is the execution of
    a program against an environment, which answers each call knowing all
    that happened before. Nothing is assumed of the environment. *)

Module Driver.
Import CodeExtractor.

(** The colours of [chalk] the class uses. *)
Inductive Colour : Type := cyan | yellow | green | red | white.

(** The calls to the platform. *)
Inductive Call : Type :=
| ReadFile (path : string)                   (* fs.readFile(path, 'utf-8') *)
| Access (path : string)                     (* fs.access(path) *)
| Mkdir (path : string)                      (* fs.mkdir(path, { recursive: true }) *)
| WriteFile (path content : string)          (* fs.writeFile(path, content) *)
| Question (message : string)                (* rl.question(message, ..) *)
| ConsoleLog (colour : Colour) (text : string)     (* console.log(chalk.colour(text)) *)
| ConsoleError (colour : Colour) (text : string)   (* console.error(chalk.colour(text)) *)
| ConsoleErrorWith (colour : Colour) (text error : string)
                                             (* console.error(chalk.colour(text), error) *)
| Close.                                     (* rl.close() *)

(** The answer to a call: a promise resolved with a value (the content read,
    the line typed; empty where the call gives none) or rejected with an
    error, of which the message is kept. For [rl.question] the rejected
    answer is the call throwing, as it does on a closed interface. *)
Inductive Answer : Type :=
| Resolved (value : string)
| Rejected (message : string).

(** A promise once settled: fulfilled with a value or rejected with an
    error, which [await] throws. *)
Inductive Settled (A : Type) : Type :=
| Fulfilled (a : A)
| Thrown (error : string).
Arguments Fulfilled {A} a.
Arguments Thrown {A} error.

Global Instance Colour_eq_dec : EqDecision Colour.
Proof. solve_decision. Defined.
Global Instance Call_eq_dec : EqDecision Call.
Proof. solve_decision. Defined.
Global Instance Answer_eq_dec : EqDecision Answer.
Proof. solve_decision. Defined.

(** Programs: return a value, make a call and go on with its answer, or end
    the process with an exit code ([process.exit]). *)
Inductive Prog (A : Type) : Type :=
| Ret (a : A)
| Do (c : Call) (k : Answer -> Prog A)
| Halt (code : nat).
Arguments Ret {A} a.
Arguments Do {A} c k.
Arguments Halt {A} code.

Fixpoint bind {A B : Type} (p : Prog A) (f : A -> Prog B) : Prog B :=
  match p with
  | Ret a => f a
  | Do c k => Do c (fun a => bind (k a) f)
  | Halt code => Halt code
  end.

(** A call whose answer is not used. *)
Definition call (c : Call) : Prog unit := Do c (fun _ => Ret tt).

(** What has happened: the calls made and their answers, in order. *)
Definition Event : Type := (Call * Answer)%type.
Definition Trace : Type := list Event.

(** An environment answers a call from what has happened so far. *)
Definition Env : Type := Trace -> Call -> Answer.

Inductive Outcome (A : Type) : Type :=
| Returned (a : A)
| Exited (code : nat).
Arguments Returned {A} a.
Arguments Exited {A} code.

(** The execution of a program after the events [hist]: all the events, and
    how the program ended. *)
Fixpoint exec {A : Type} (env : Env) (hist : Trace) (p : Prog A) : Trace * Outcome A :=
  match p with
  | Ret a => (hist, Returned a)
  | Halt code => (hist, Exited code)
  | Do c k => exec env (hist ++ [(c, env hist c)]) (k (env hist c))
  end.

Definition run {A : Type} (env : Env) (p : Prog A) : Trace * Outcome A :=
  exec env [] p.

(** *** Platform functions *)

(** [s.toLowerCase()], for code units below 256: the letters A to Z and the
    capital letters of Latin-1. *)
Definition lowerChar (c : ascii) : ascii :=
  let n := nat_of_ascii c in
  if ((65 <=? n) && (n <=? 90))
     || ((192 <=? n) && (n <=? 222) && negb (n =? 215))
  then ascii_of_nat (n + 32) else c.

Fixpoint toLowerCase (s : string) : string :=
  match s with
  | EmptyString => EmptyString
  | String c s' => String (lowerChar c) (toLowerCase s')
  end.

(** The loop of [path.dirname] from the end of the path towards its second
    character, over the characters in that order: the number of characters
    gone through when it stops at the slash before the last portion. *)
Fixpoint dirnameEnd (chars : list ascii) (matchedSlash : bool) : option nat :=
  match chars with
  | [] => None
  | c :: chars' =>
      if Ascii.eqb c "/" then
        if matchedSlash then S <$> dirnameEnd chars' true else Some 1
      else S <$> dirnameEnd chars' false
  end.

(** [path.dirname(p)] (POSIX flavour). *)
Definition dirname (p : string) : string :=
  match p with
  | EmptyString => "."
  | String c0 tl =>
      let hasRoot := Ascii.eqb c0 "/" in
      match dirnameEnd (rev (list_ascii_of_string tl)) true with
      | None => if hasRoot then "/" else "."
      | Some k =>
          let e := String.length p - k in
          if hasRoot && (e =? 1) then "//" else Js.take e p
      end
  end.

(** *** The options of the extractor *)

Record ExtractorOptions : Type := mkOptions
  { inputPath : string;
    outputDir : string;
    overwrite : bool }.

(** *** [promptUser] *)

(** [answer.toLowerCase().startsWith('y')] *)
Definition isYes (answer : string) : bool :=
  Js.startsWith "y" (toLowerCase answer).

(** The promise of [promptUser]: resolved from the callback with the test
    of the line typed; rejected when [rl.question] throws inside the
    executor of the promise. *)
Definition promptUser (message : string) : Prog (Settled bool) :=
  Do (Question message) (fun a =>
    match a with
    | Resolved answer => Ret (Fulfilled (isYes answer))
    | Rejected error => Ret (Thrown error)
    end).

(** *** [ensureDirectoryExists] and [writeFiles] *)

(** An error caught while writing: the path of the file and the message. *)
Definition WriteError : Type := (string * string)%type.

(** [await fs.writeFile(..); console.log(chalk.green(..))], going on with
    [next] and the errors so far. *)
Definition writeOne (file : FileMetadata) (errors : list WriteError)
    (next : list WriteError -> Prog (list WriteError)) : Prog (list WriteError) :=
  Do (WriteFile (filePath file) (content file)) (fun a =>
    match a with
    | Resolved _ =>
        Do (ConsoleLog green ("Created " +:+ filePath file)) (fun _ => next errors)
    | Rejected message => next (errors ++ [(filePath file, message)])
    end).

(** The loop of [writeFiles] over the files, with the errors caught so far.
    [ensureDirectoryExists(file.filePath)] is the call of [fs.mkdir] on the
    directory name of the path. *)
Fixpoint writeLoop (overwrite : bool) (files : list FileMetadata)
    (errors : list WriteError) : Prog (list WriteError) :=
  match files with
  | [] => Ret errors
  | file :: files' =>
      Do (Mkdir (dirname (filePath file))) (fun a =>
        match a with
        | Rejected message =>
            writeLoop overwrite files' (errors ++ [(filePath file, message)])
        | Resolved _ =>
            if negb overwrite then
              Do (Access (filePath file)) (fun a' =>
                match a' with
                | Resolved _ =>
                    Do (ConsoleLog yellow
                          ("File " +:+ filePath file +:+ " already exists. Skipping..."))
                       (fun _ => writeLoop overwrite files' errors)
                | Rejected _ => writeOne file errors (writeLoop overwrite files')
                end)
            else writeOne file errors (writeLoop overwrite files')
        end)
  end.

(** [errors.forEach(..)] *)
Fixpoint reportErrors (errors : list WriteError) : Prog unit :=
  match errors with
  | [] => Ret tt
  | (path, message) :: errors' =>
      Do (ConsoleError red ("- " +:+ path +:+ ": " +:+ message))
         (fun _ => reportErrors errors')
  end.

(** The summary printed after the loop, [if (errors.length > 0) ..]. *)
Definition summary (errors : list WriteError) : Prog unit :=
  if 0 <? length errors then
    Do (ConsoleError red (nl +:+ "Errors occurred during file writing:"))
       (fun _ => reportErrors errors)
  else Ret tt.

Definition writeFiles (overwrite : bool) (files : list FileMetadata) : Prog unit :=
  bind (writeLoop overwrite files []) summary.

(** *** [checkExistingFiles] *)

Fixpoint checkLoop (files : list FileMetadata) (existingFiles : list string)
    : Prog (list string) :=
  match files with
  | [] => Ret existingFiles
  | file :: files' =>
      Do (Access (filePath file)) (fun a =>
        match a with
        | Resolved _ => checkLoop files' (existingFiles ++ [filePath file])
        | Rejected _ => checkLoop files' existingFiles
        end)
  end.

Definition checkExistingFiles (files : list FileMetadata) : Prog (list string) :=
  checkLoop files [].

(** *** [process] *)

(** [existingFiles.forEach(..)] and [files.forEach(..)] of [process]. *)
Fixpoint listPaths (colour : Colour) (paths : list string) : Prog unit :=
  match paths with
  | [] => Ret tt
  | p :: paths' =>
      Do (ConsoleLog colour ("- " +:+ p)) (fun _ => listPaths colour paths')
  end.

(** The [catch] of [process]. *)
Definition failed {A : Type} (error : string) : Prog A :=
  Do (ConsoleErrorWith red "Error processing file:" error) (fun _ =>
  Do Close (fun _ => Halt 1)).

(** The end of [process], from [writeFiles] on, with the value of
    [this.options.overwrite] at that point. *)
Definition writeAndReport (options : ExtractorOptions) (files : list FileMetadata)
    : Prog ExtractorOptions :=
  bind (writeFiles (overwrite options) files) (fun _ =>
  Do (ConsoleLog green (nl +:+ "Extraction completed successfully!")) (fun _ =>
  Do (ConsoleLog cyan (nl +:+ "Generated files:")) (fun _ =>
  bind (listPaths white (filePath <$> files)) (fun _ =>
  Do Close (fun _ => Ret options))))).

(** The part of [process] after [checkExistingFiles]: the question when
    some file exists, then the writing. An error thrown by the awaited
    [promptUser] is caught by the [catch] of [process]. *)
Definition confirm (options : ExtractorOptions) (files : list FileMetadata)
    (existingFiles : list string) : Prog ExtractorOptions :=
  if 0 <? length existingFiles then
    Do (ConsoleLog yellow (nl +:+ "The following files already exist:")) (fun _ =>
    bind (listPaths yellow existingFiles) (fun _ =>
    bind (promptUser (nl +:+ "Do you want to overwrite these files? (y/N): "))
         (fun settled =>
      match settled with
      | Thrown error => failed error
      | Fulfilled shouldContinue =>
          if negb shouldContinue then
            Do (ConsoleLog red "Operation cancelled by user.") (fun _ =>
            Do Close (fun _ => Ret options))
          else
            writeAndReport
              {| inputPath := inputPath options;
                 outputDir := outputDir options;
                 overwrite := true |} files
      end)))
  else writeAndReport options files.

(** [process()], returning the options as it leaves them. A failure of
    [extractFiles] would be caught like a failure to read. *)
Definition process (options : ExtractorOptions) : Prog ExtractorOptions :=
  Do (ConsoleLog cyan ("Processing input file: " +:+ inputPath options)) (fun _ =>
  Do (ReadFile (inputPath options)) (fun a =>
    match a with
    | Rejected message => failed message
    | Resolved content =>
        match extractFiles (outputDir options) content with
        | None => failed "TypeError"
        | Some files =>
            if length files =? 0 then
              Do (ConsoleLog yellow "No code blocks or artifacts found in the input file.")
                 (fun _ => Ret options)
            else bind (checkExistingFiles files) (confirm options files)
        end
    end)).

(** *** Reading a trace *)

Definition isMkdir (c : Call) : bool := match c with Mkdir _ => true | _ => false end.
Definition isAccess (c : Call) : bool := match c with Access _ => true | _ => false end.
Definition isWrite (c : Call) : bool := match c with WriteFile _ _ => true | _ => false end.
Definition isQuestion (c : Call) : bool := match c with Question _ => true | _ => false end.
Definition isRejected (a : Answer) : bool :=
  match a with Rejected _ => true | Resolved _ => false end.

(** The directories made, the files written with their content, and the
    paths whose existence was asked, in order. *)
Definition mkdirOf (ev : Event) : option string :=
  match ev.1 with Mkdir p => Some p | _ => None end.
Definition writeOf (ev : Event) : option (string * string) :=
  match ev.1 with WriteFile p c => Some (p, c) | _ => None end.
Definition accessOf (ev : Event) : option string :=
  match ev.1 with Access p => Some p | _ => None end.
(** The paths found to exist. *)
Definition foundOf (ev : Event) : option string :=
  match ev with (Access p, Resolved _) => Some p | _ => None end.

(** The questions asked, with their answers. *)
Definition questionOf (ev : Event) : option (string * Answer) :=
  match ev.1 with Question q => Some (q, ev.2) | _ => None end.

Definition isConsoleError (c : Call) : bool :=
  match c with ConsoleError _ _ => true | _ => false end.
Definition isConsoleLog (c : Call) : bool :=
  match c with ConsoleLog _ _ => true | _ => false end.

(** The calls of [fs.mkdir] and [fs.writeFile] that were rejected. *)
Definition isFailedWrite (ev : Event) : bool :=
  (isMkdir ev.1 || isWrite ev.1) && isRejected ev.2.

(** Every write comes right after a check of the same path that found no
    file. *)
Definition writesGuarded (tr : Trace) : Prop :=
  forall i p c a, tr !! i = Some (WriteFile p c, a) ->
    exists j message, i = S j /\ tr !! j = Some (Access p, Rejected message).

(** The rejected calls and the lines on the error stream of a trace. *)
Definition failedWrites (tr : Trace) : list Event := List.filter isFailedWrite tr.
Definition errorLines (tr : Trace) : list Event :=
  List.filter (fun ev => isConsoleError ev.1) tr.

(** What [writeFiles] would write for a file. *)
Definition written (file : FileMetadata) : string * string :=
  (filePath file, content file).

(** The calls of the loop of [writeFiles]. *)
Definition isLoopCall (overwrite : bool) (c : Call) : bool :=
  isMkdir c || isWrite c || isConsoleLog c || (negb overwrite && isAccess c).

(** A program all of whose calls, whatever the answers, are of a kind. *)
Fixpoint onlyCalls {A : Type} (kind : Call -> bool) (p : Prog A) : Prop :=
  match p with
  | Ret _ => True
  | Halt _ => True
  | Do c k => kind c = true /\ forall a, onlyCalls kind (k a)
  end.

(** The events a program adds to those before it. *)
Definition events {A : Type} (env : Env) (hist : Trace) (p : Prog A) : Trace :=
  drop (length hist) (exec env hist p).1.

(** *** The runs of [process] *)

(** The first two calls of [process]. *)
Definition announce (options : ExtractorOptions) : Call :=
  ConsoleLog cyan ("Processing input file: " +:+ inputPath options).
Definition readInput (options : ExtractorOptions) : Call :=
  ReadFile (inputPath options).

(** The options after the user agreed to overwrite. *)
Definition overwriting (options : ExtractorOptions) : ExtractorOptions :=
  {| inputPath := inputPath options;
     outputDir := outputDir options;
     overwrite := true |}.

Definition logged (tr : Trace) : Prop :=
  Forall (fun ev => isConsoleLog ev.1 = true) tr.

(** The existence checks of [checkExistingFiles] on the files. *)
Definition checksOf (files : list FileMetadata) (tr : Trace) : Prop :=
  tr.*1 = (fun f => Access (filePath f)) <$> files.

(** The files extracted from the content that a run has read: the content
    is the answer to the second call of [process]. *)
Definition extractedIn (options : ExtractorOptions) (tr : Trace) : list FileMetadata :=
  match tr !! 1 with
  | Some (ReadFile _, Resolved content) =>
      default [] (extractFiles (outputDir options) content)
  | _ => []
  end.

(** The six ways a run of [process] goes, with the trace and the outcome
    of each: the input cannot be read; nothing is found in it; no file
    exists yet; some file exists and the question throws; some file exists
    and the user declines; some file exists and the user agrees. *)
Inductive ProcessRun (env : Env) (options : ExtractorOptions)
    : Trace -> Outcome ExtractorOptions -> Prop :=
  | run_unreadable a0 message a1 a2 :
      ProcessRun env options
        [ (announce options, a0);
          (readInput options, Rejected message);
          (ConsoleErrorWith red "Error processing file:" message, a1);
          (Close, a2) ]
        (Exited 1)
  | run_nothing a0 content a1 :
      extractFiles (outputDir options) content = Some [] ->
      ProcessRun env options
        [ (announce options, a0);
          (readInput options, Resolved content);
          (ConsoleLog yellow "No code blocks or artifacts found in the input file.", a1) ]
        (Returned options)
  | run_fresh a0 content files checks hist logs a1 :
      extractFiles (outputDir options) content = Some files ->
      files <> [] ->
      checksOf files checks ->
      omap foundOf checks = [] ->
      logged logs ->
      ProcessRun env options
        ((announce options, a0) :: (readInput options, Resolved content) ::
         checks ++ events env hist (writeFiles (overwrite options) files) ++
         logs ++ [(Close, a1)])
        (Returned options)
  | run_unanswered a0 content files checks logs q error a1 a2 :
      extractFiles (outputDir options) content = Some files ->
      files <> [] ->
      checksOf files checks ->
      omap foundOf checks <> [] ->
      logged logs ->
      ProcessRun env options
        ((announce options, a0) :: (readInput options, Resolved content) ::
         checks ++ logs ++
         [ (Question q, Rejected error);
           (ConsoleErrorWith red "Error processing file:" error, a1);
           (Close, a2) ])
        (Exited 1)
  | run_declined a0 content files checks logs q answer a1 a2 :
      extractFiles (outputDir options) content = Some files ->
      files <> [] ->
      checksOf files checks ->
      omap foundOf checks <> [] ->
      logged logs ->
      isYes answer = false ->
      ProcessRun env options
        ((announce options, a0) :: (readInput options, Resolved content) ::
         checks ++ logs ++
         [ (Question q, Resolved answer);
           (ConsoleLog red "Operation cancelled by user.", a1);
           (Close, a2) ])
        (Returned options)
  | run_accepted a0 content files checks logs q answer hist logs' a1 :
      extractFiles (outputDir options) content = Some files ->
      files <> [] ->
      checksOf files checks ->
      omap foundOf checks <> [] ->
      logged logs ->
      isYes answer = true ->
      logged logs' ->
      ProcessRun env options
        ((announce options, a0) :: (readInput options, Resolved content) ::
         checks ++ logs ++ (Question q, Resolved answer) ::
         events env hist (writeFiles true files) ++ logs' ++ [(Close, a1)])
        (Returned (overwriting options)) .

End Driver.

(** A small world to run the driver in: the input file holds one declared
    path and a line of code, every directory can be made and every file
    written; whether the target exists and what the user answers vary. *)
Module World.
Import CodeExtractor Driver.

Definition document : string := "// src/a/b.ts" +:+ nl +:+ "let x = 1;".

Definition options : ExtractorOptions :=
  {| inputPath := "input.md"; outputDir := "out"; overwrite := false |}.

Definition world (targetExists : bool) (answer : string) : Env :=
  fun _ c =>
    match c with
    | ReadFile _ => Resolved document
    | Access _ => if targetExists then Resolved EmptyString else Rejected "ENOENT"
    | Question _ => Resolved answer
    | _ => Resolved EmptyString
    end.

Definition overwriteQuestion : string :=
  nl +:+ "Do you want to overwrite these files? (y/N): ".

End World.

(** ** Facts on the platform model *)

Module JsFacts.
Import Js.

Lemma app_cons a s t : String a s +:+ t = String a (s +:+ t).
Proof. reflexivity. Qed.

Lemma app_nil_l t : "" +:+ t = t.
Proof. reflexivity. Qed.

Lemma app_nil_r s : s +:+ "" = s.
Proof. induction s as [|a s IH]; [done|]. by rewrite app_cons, IH. Qed.

Lemma app_assoc s t u : (s +:+ t) +:+ u = s +:+ t +:+ u.
Proof. induction s as [|a s IH]; [done|]. by rewrite !app_cons, IH. Qed.

Lemma length_app s t : String.length (s +:+ t) = String.length s + String.length t.
Proof. induction s as [|a s IH]; [done|]. rewrite app_cons. simpl. by rewrite IH. Qed.

Lemma slice_0 s : slice 0 s = s.
Proof. by destruct s. Qed.

Lemma slice_empty n : slice n "" = "".
Proof. by destruct n. Qed.

Lemma slice_slice n k s : slice n (slice k s) = slice (k + n) s.
Proof.
  revert s. induction k as [|k IH]; intros s; simpl.
  - done.
  - destruct s as [|a s]; [by rewrite slice_empty | apply IH].
Qed.

Lemma slice_length n s : String.length (slice n s) = String.length s - n.
Proof.
  revert s. induction n as [|n IH]; intros [|a s]; simpl; auto with lia.
Qed.

Lemma count_app c s t : count c (s +:+ t) = count c s + count c t.
Proof.
  induction s as [|d s IH]; [done|]. rewrite app_cons. simpl. rewrite IH. lia.
Qed.

Lemma count_all c p s : all p s = true -> p c = false -> count c s = 0.
Proof.
  intros Hall Hp. induction s as [|d s IH]; [done|].
  simpl in *. apply andb_true_iff in Hall as [Hd Hall].
  destruct (Ascii.eqb_spec c d) as [->|_]; [congruence|]. by rewrite IH.
Qed.

Lemma startsWith_count_1 c s : startsWith (String c "") s = true -> 1 <= count c s.
Proof.
  destruct s as [|d s]; simpl; [discriminate|].
  destruct (Ascii.eqb c d); [lia | discriminate].
Qed.

Lemma includes_count_1 c s : includes (String c "") s = true -> 1 <= count c s.
Proof.
  induction s as [|d s IH]; [discriminate|].
  cbn [includes]. intros [H|H]%orb_true_iff.
  - by apply startsWith_count_1.
  - apply IH in H. simpl. lia.
Qed.

Lemma includes_count_2 c s :
  includes (String c (String c "")) s = true -> 2 <= count c s.
Proof.
  induction s as [|d s IH]; [discriminate|].
  cbn [includes]. intros [H|H]%orb_true_iff.
  - simpl in H. apply andb_true_iff in H as [Hd H].
    change (startsWith (String c "") s = true) in H.
    apply startsWith_count_1 in H. simpl. rewrite Hd. lia.
  - apply IH in H. simpl. lia.
Qed.

Lemma take_app_length s t : take (String.length s) (s +:+ t) = s.
Proof.
  induction s as [|a s IH]; [by destruct t|]. rewrite app_cons. simpl. by rewrite IH.
Qed.

(** *** [trim] *)

Lemma trimStart_headTrimmed s : headTrimmed (trimStart s).
Proof.
  induction s as [|c s IH]; simpl; [done|].
  destruct (isWhiteSpace c) eqn:E; [done|]. simpl. done.
Qed.

Lemma headTrimmed_trimStart s : headTrimmed s -> trimStart s = s.
Proof. destruct s as [|c s]; simpl; [done|]. by intros ->. Qed.

Lemma trimEnd_headTrimmed s : headTrimmed s -> headTrimmed (trimEnd s).
Proof.
  destruct s as [|c s]; simpl; [done|]. intros Hc.
  destruct (trimEnd s); [by rewrite Hc | done].
Qed.

Lemma trimEnd_idem s : trimEnd (trimEnd s) = trimEnd s.
Proof.
  induction s as [|c s IH]; simpl; [done|].
  destruct (trimEnd s) as [|d t] eqn:E.
  - destruct (isWhiteSpace c) eqn:Ec; simpl; [done|]. by rewrite Ec.
  - cbn [trimEnd]. cbn [trimEnd] in IH. rewrite IH. done.
Qed.

Lemma trim_headTrimmed s : headTrimmed (trim s).
Proof. apply trimEnd_headTrimmed, trimStart_headTrimmed. Qed.

Lemma trim_idem s : trim (trim s) = trim s.
Proof.
  unfold trim at 1. rewrite headTrimmed_trimStart by apply trim_headTrimmed.
  apply trimEnd_idem.
Qed.

(** A trimmed string made of white space only is empty. *)
Lemma trim_blank s : all isWhiteSpace (trim s) = true -> trim s = "".
Proof.
  pose proof (trim_headTrimmed s) as H.
  destruct (trim s) as [|c t]; [done|]. simpl in *. by rewrite H.
Qed.

(** *** [split] and [join] *)

Lemma split_nonempty sep s : split sep s <> [].
Proof.
  destruct s as [|c s]; simpl; [done|].
  destruct (Ascii.eqb c sep); [done|]. by destruct (split sep s).
Qed.

Lemma split_app sep s t :
  split sep (s +:+ String sep t) = split sep s ++ split sep t.
Proof.
  induction s as [|c s IH].
  - rewrite app_nil_l. simpl. by rewrite Ascii.eqb_refl.
  - rewrite app_cons. simpl. rewrite IH.
    destruct (Ascii.eqb c sep); [done|].
    pose proof (split_nonempty sep s). by destruct (split sep s).
Qed.

Lemma split_length sep s : length (split sep s) = S (count sep s).
Proof.
  induction s as [|c s IH]; [done|]. simpl.
  rewrite (Ascii.eqb_sym sep c).
  destruct (Ascii.eqb c sep); simpl; [by rewrite IH|].
  pose proof (split_nonempty sep s). destruct (split sep s); [done|]. simpl in *. lia.
Qed.

Lemma join_cons sep x y l : join sep (x :: y :: l) = x +:+ sep +:+ join sep (y :: l).
Proof. reflexivity. Qed.

Lemma join_split sep s : join (String sep "") (split sep s) = s.
Proof.
  induction s as [|c s IH]; [done|]. simpl.
  pose proof (split_nonempty sep s) as Hne.
  destruct (Ascii.eqb_spec c sep) as [->|Hc].
  - destruct (split sep s) as [|l ls]; [done|].
    rewrite join_cons, IH. reflexivity.
  - destruct (split sep s) as [|l ls]; [done|].
    destruct ls as [|l' ls].
    + simpl in *. by rewrite IH.
    + rewrite join_cons in *. rewrite <- IH. reflexivity.
Qed.

Lemma all_app p s t : all p (s +:+ t) = all p s && all p t.
Proof.
  induction s as [|c s IH]; [done|]. rewrite app_cons. simpl.
  by rewrite IH, andb_assoc.
Qed.

Lemma all_impl (p q : ascii -> bool) s :
  (forall c, p c = true -> q c = true) -> all p s = true -> all q s = true.
Proof.
  intros Hpq. induction s as [|c s IH]; [done|]. simpl.
  intros [Hc Hs]%andb_true_iff. by rewrite (Hpq c Hc), IH.
Qed.

End JsFacts.

Module RegexFacts.
Import Regex.

Lemma span_total_length r s s' :
  Span r s s' -> pos s' + String.length (rest s') = pos s + String.length (rest s).
Proof.
  induction 1; simpl in *; try lia.
  rewrite H in *. simpl. lia.
Qed.

Lemma span_pos_le r s s' : Span r s s' -> pos s <= pos s'.
Proof. induction 1; simpl in *; lia. Qed.

Lemma span_consuming r s s' : Span r s s' -> consuming r = true -> pos s < pos s'.
Proof.
  induction 1; simpl; intros Hc; try discriminate; simpl in *.
  - lia.
  - apply orb_true_iff in Hc as [Hc|Hc].
    + specialize (IHSpan1 Hc). apply span_pos_le in H0. lia.
    + specialize (IHSpan2 Hc). apply span_pos_le in H. lia.
  - auto.
Qed.

Lemma span_caps_keep r s s' n :
  Span r s s' -> is_Some (getcap n (caps s)) -> is_Some (getcap n (caps s')).
Proof.
  induction 1; simpl; auto.
  intros Hs. destruct (n0 =? n); eauto.
Qed.

Lemma span_captures r s s' n :
  Span r s s' -> captures n r = true -> is_Some (getcap n (caps s')).
Proof.
  induction 1; simpl; intros Hc; try discriminate.
  - apply orb_true_iff in Hc as [Hc|Hc].
    + eapply span_caps_keep; eauto.
    + auto.
  - destruct (n0 =? n) eqn:E; simpl in *; eauto.
Qed.

(** Soundness of the matcher: a result comes from a span of the pattern
    that the continuation accepts. *)
Lemma star_loop_sound (body : MState -> Cont -> option MState) g r :
  (forall s k e, body s k = Some e -> exists s', Span r s s' /\ k s' = Some e) ->
  forall fuel s k e, star_loop body g fuel s k = Some e ->
    exists s', Span (RStar g r) s s' /\ k s' = Some e.
Proof.
  intros Hbody fuel. induction fuel as [|fuel IH]; intros s k e; simpl.
  - intros Hk. exists s. split; [constructor | done].
  - set (again := body s _).
    assert (Hagain : again = Some e ->
              exists s', Span (RStar g r) s s' /\ k s' = Some e).
    { intros Ha. apply Hbody in Ha as (s1 & Hs1 & Hk).
      destruct (Nat.ltb_spec (pos s) (pos s1)); [|discriminate].
      apply IH in Hk as (s2 & Hs2 & Hk).
      exists s2. split; [econstructor; eauto | done]. }
    destruct g.
    + destruct again as [e'|] eqn:E.
      * intros [= ->]. auto.
      * intros Hk. exists s. split; [constructor | done].
    + destruct (k s) as [e'|] eqn:E.
      * intros [= ->]. exists s. split; [constructor | done].
      * auto.
Qed.

(** Completeness of the matcher for the existence of a match: when some
    span of the pattern is accepted by the continuation, the matcher
    succeeds (through that span or one tried before it). *)
Lemma star_loop_complete (body : MState -> Cont -> option MState) g r :
  (forall s s' k, Span r s s' -> is_Some (k s') -> is_Some (body s k)) ->
  forall fuel s s' k,
    Span (RStar g r) s s' -> String.length (rest s) < fuel ->
    is_Some (k s') -> is_Some (star_loop body g fuel s k).
Proof.
  intros Hbody fuel. induction fuel as [|fuel IH]; intros s s' k Hspan Hlen Hk.
  - lia.
  - simpl. set (again := body s _).
    inversion Hspan as [| | | | |g' r' s0|g' r' s0 s1 s2 H1 Hlt H2| | |]; subst.
    + destruct g.
      * destruct again; eauto.
      * destruct (k s'); [eauto | by destruct Hk].
    + assert (Ha : is_Some again).
      { eapply Hbody; [exact H1|].
        destruct (Nat.ltb_spec (pos s) (pos s1)); [|lia].
        eapply IH; eauto.
        apply span_total_length in H1. lia. }
      destruct Ha as [e Ha]. rewrite Ha.
      destruct g; [eauto | destruct (k s); eauto].
Qed.

Local Arguments star_loop : simpl never.

Lemma m_sound r : forall s k e,
  m r s k = Some e -> exists s', Span r s s' /\ k s' = Some e.
Proof.
  induction r as [cs| | | |r1 IH1 r2 IH2|g r IH|r IH|n r IH]; intros s k e; simpl.
  - destruct (rest s) as [|c t] eqn:Hr; [discriminate|].
    destruct (cmem cs c) eqn:Hc; [|discriminate].
    intros Hk. exists (advance s t). split; [by econstructor | done].
  - destruct (Nat.eqb_spec (pos s) 0); [|discriminate].
    intros Hk. exists s. split; [by constructor | done].
  - destruct (rest s) eqn:Hr; [|discriminate].
    intros Hk. exists s. split; [by constructor | done].
  - intros Hk. exists s. split; [constructor | done].
  - intros H. apply IH1 in H as (s1 & Hs1 & H).
    apply IH2 in H as (s2 & Hs2 & H).
    exists s2. split; [econstructor; eauto | done].
  - apply star_loop_sound. exact IH.
  - destruct (m r s _) as [e'|] eqn:E.
    + intros [= ->]. apply IH in E as (s1 & Hs1 & Hk).
      destruct (Nat.ltb_spec (pos s) (pos s1)); [|discriminate].
      exists s1. split; [by constructor | done].
    + intros Hk. exists s. split; [constructor | done].
  - intros H. apply IH in H as (s1 & Hs1 & Hk).
    exists (setcap n s s1). split; [by constructor | done].
Qed.

Lemma m_complete r : forall s s' k,
  Span r s s' -> is_Some (k s') -> is_Some (m r s k).
Proof.
  induction r as [cs| | | |r1 IH1 r2 IH2|g r IH|r IH|n r IH];
    intros s s' k Hspan Hk; simpl.
  - inversion Hspan as [cs' s0 c t Hr Hc| | | | | | | | |]; subst.
    rewrite Hr, Hc. done.
  - inversion Hspan as [|s0 Hp| | | | | | | |]; subst. rewrite Hp. done.
  - inversion Hspan as [| |s0 Hr| | | | | | |]; subst. rewrite Hr. done.
  - inversion Hspan; subst. done.
  - inversion Hspan as [| | | |r1' r2' s0 s1 s2 H1 H2| | | | |]; subst.
    eapply IH1; [eassumption|]. eapply IH2; eassumption.
  - eapply star_loop_complete; eauto.
  - inversion Hspan as [| | | | | | |r' s0|r' s0 s1 H1 Hlt|]; subst.
    + destruct (m r s' _); eauto.
    + assert (Ha : is_Some (m r s (fun s1 => if pos s <? pos s1 then k s1 else None))).
      { eapply IH; [eassumption|].
        destruct (Nat.ltb_spec (pos s) (pos s')); [done | lia]. }
      destruct Ha as [e ->]. eauto.
  - inversion Hspan as [| | | | | | | | |n' r' s0 s1 H1]; subst.
    eapply IH; [eassumption | done].
Qed.

(** *** The fuel of the star is enough *)

Lemma star_loop_0 (body : MState -> Cont -> option MState) g s k :
  star_loop body g 0 s k = k s.
Proof. reflexivity. Qed.

Lemma star_loop_S (body : MState -> Cont -> option MState) g fuel s k :
  star_loop body g (S fuel) s k
  = let again :=
      body s (fun s' => if pos s <? pos s' then star_loop body g fuel s' k else None) in
    if g then match again with Some e => Some e | None => k s end
    else match k s with Some e => Some e | None => again end.
Proof. reflexivity. Qed.

(** The matcher consults its continuation at the ends of spans only. *)
Lemma star_loop_ext (body : MState -> Cont -> option MState) g r :
  (forall s k k', (forall s', Span r s s' -> k s' = k' s') -> body s k = body s k') ->
  forall fuel s k k',
    (forall s', Span (RStar g r) s s' -> k s' = k' s') ->
    star_loop body g fuel s k = star_loop body g fuel s k'.
Proof.
  intros Hbody fuel. induction fuel as [|fuel IH]; intros s k k' Hk.
  - rewrite !star_loop_0. apply Hk. constructor.
  - rewrite !star_loop_S. cbv zeta. rewrite (Hk s) by constructor.
    erewrite (Hbody s); [reflexivity|].
    intros s1 Hs1. cbv beta. destruct (Nat.ltb_spec (pos s) (pos s1)); [|done].
    apply IH. intros s2 Hs2. apply Hk. econstructor; eauto.
Qed.

Lemma m_ext r : forall s k k',
  (forall s', Span r s s' -> k s' = k' s') -> m r s k = m r s k'.
Proof.
  induction r as [cs| | | |r1 IH1 r2 IH2|g r IH|r IH|n r IH]; intros s k k' Hk; simpl.
  - destruct (rest s) as [|c t] eqn:Hr; [done|].
    destruct (cmem cs c) eqn:Hc; [|done]. apply Hk. by econstructor.
  - destruct (Nat.eqb_spec (pos s) 0); [|done]. apply Hk. by constructor.
  - destruct (rest s) eqn:Hr; [|done]. apply Hk. by constructor.
  - apply Hk. constructor.
  - apply IH1. intros s1 Hs1. apply IH2. intros s2 Hs2. apply Hk. econstructor; eauto.
  - eapply star_loop_ext; eauto.
  - rewrite (Hk s) by constructor.
    erewrite (IH s); [reflexivity|].
    intros s1 Hs1. cbv beta. destruct (Nat.ltb_spec (pos s) (pos s1)); [|done].
    apply Hk. by constructor.
  - apply IH. intros s1 Hs1. apply Hk. by constructor.
Qed.

(** Any fuel above the number of remaining characters gives the same
    result: the star never stops for want of fuel. *)
Lemma star_loop_fuel r g : forall fuel fuel' s k,
  String.length (rest s) < fuel -> String.length (rest s) < fuel' ->
  star_loop (m r) g fuel s k = star_loop (m r) g fuel' s k.
Proof.
  induction fuel as [|fuel IH]; intros fuel' s k Hf Hf'; [lia|].
  destruct fuel' as [|fuel']; [lia|]. rewrite !star_loop_S. cbv zeta.
  erewrite (m_ext r s); [reflexivity|].
  intros s1 Hs1. cbv beta. destruct (Nat.ltb_spec (pos s) (pos s1)); [|done].
  apply span_total_length in Hs1. apply IH; lia.
Qed.

(** The star obeys the recursion of the language specification: one more
    iteration, which must consume something, then the star again; or the
    continuation. The greedy star tries the iteration first, the lazy star
    the continuation. *)
Lemma m_star_unfold g r s k :
  m (RStar g r) s k
  = let again :=
      m r s (fun s' => if pos s <? pos s' then m (RStar g r) s' k else None) in
    if g then match again with Some e => Some e | None => k s end
    else match k s with Some e => Some e | None => again end.
Proof.
  cbn [m]. rewrite star_loop_S. cbv zeta.
  erewrite (m_ext r s); [reflexivity|].
  intros s1 Hs1. cbv beta. destruct (Nat.ltb_spec (pos s) (pos s1)); [|done].
  cbn [m]. apply span_total_length in Hs1. apply star_loop_fuel; lia.
Qed.

(** *** Captured text *)

(** The text of group [n] after a span is the text it had before, or the
    text read by a span of a body of group [n]. *)
Lemma span_getcap r s s' n v :
  Span r s s' -> getcap n (caps s') = Some v ->
  getcap n (caps s) = Some v \/
  exists body s1 s2,
    body ∈ groupBodies n r /\ Span body s1 s2 /\
    v = Js.take (pos s2 - pos s1) (rest s1).
Proof.
  intros Hs. revert v.
  induction Hs as [cs s c t Hr Hc|s Hp|s Hr|s|r1 r2 s s1 s2 H1 IH1 H2 IH2|g r s
                  |g r s s1 s2 H1 IH1 Hlt H2 IH2|r s|r s s1 H1 IH1 Hlt|i r s s1 H1 IH1];
    intros v Hv; simpl in *; auto.
  - destruct (IH2 v Hv) as [Hv1|(body & a & b & Hin & Hab & ->)].
    + destruct (IH1 v Hv1) as [?|(body & a & b & Hin & Hab & ->)]; [by left|].
      right. exists body, a, b. split; [|done]. apply elem_of_app. by left.
    + right. exists body, a, b. split; [|done]. apply elem_of_app. by right.
  - destruct (IH2 v Hv) as [Hv1|?]; [|by right].
    destruct (IH1 v Hv1) as [?|?]; [by left | by right].
  - destruct (Nat.eqb_spec i n) as [->|Hne].
    + injection Hv as <-. right. exists r, s, s1. split; [|done].
      apply elem_of_app. left. by constructor.
    + destruct (IH1 v Hv) as [?|(body & a & b & Hin & Hab & ->)]; [by left|].
      right. exists body, a, b. done.
Qed.

(** *** [exec], [test] and the loop over the matches *)

Lemma search_Some r p s mr :
  search r p s = Some mr ->
  exists n e,
    n <= String.length s /\ Span r (start (p + n) (Js.slice n s)) e /\
    index mr = p + n /\ lastIndex mr = pos e /\ groups mr = caps e.
Proof.
  revert p. induction s as [|c t IH]; intros p; simpl.
  - destruct (m r _ Some) as [e|] eqn:E; [|discriminate].
    intros [= <-]. apply m_sound in E as (s' & Hs & [= ->]).
    exists 0, e. rewrite Nat.add_0_r. simpl. auto.
  - destruct (m r _ Some) as [e|] eqn:E.
    + intros [= <-]. apply m_sound in E as (s' & Hs & [= ->]).
      exists 0, e. rewrite Nat.add_0_r. simpl. auto with lia.
    + intros H. apply IH in H as (n & e & Hn & Hs & Hi & Hl & Hg).
      exists (S n), e. simpl. replace (p + S n) with (S p + n) by lia.
      auto with lia.
Qed.

Lemma search_complete r p s n e :
  n <= String.length s ->
  Span r (start (p + n) (Js.slice n s)) e -> is_Some (search r p s).
Proof.
  revert p s. induction n as [|n IH]; intros p s Hn Hs.
  - rewrite Nat.add_0_r, JsFacts.slice_0 in Hs.
    eapply m_complete with (k := Some) in Hs as [e' He]; [|done].
    destruct s; simpl; rewrite He; done.
  - destruct s as [|c t]; simpl in Hn; [lia|].
    simpl. destruct (m r _ Some); [done|].
    apply IH; [lia|]. simpl in Hs. by replace (S p + n) with (p + S n) by lia.
Qed.

Lemma exec_from_Some r from s mr :
  exec_from r from s = Some mr ->
  exists st e,
    Span r st e /\ caps st = [] /\ from <= pos st /\
    pos st + String.length (rest st) = String.length s /\
    index mr = pos st /\ lastIndex mr = pos e /\ groups mr = caps e.
Proof.
  unfold exec_from. destruct (Nat.leb_spec from (String.length s)); [|discriminate].
  intros Hsearch. apply search_Some in Hsearch as (n & e & Hn & Hs & Hi & Hl & Hg).
  rewrite JsFacts.slice_length in Hn.
  exists (start (from + n) (Js.slice n (Js.slice from s))), e.
  repeat split; simpl; auto with lia.
  rewrite !JsFacts.slice_length. lia.
Qed.

Lemma exec_from_lastIndex r from s mr :
  exec_from r from s = Some mr ->
  from <= lastIndex mr <= String.length s /\
  (consuming r = true -> from < lastIndex mr).
Proof.
  intros H. apply exec_from_Some in H as (st & e & Hs & _ & Hf & Hl & _ & -> & _).
  pose proof (span_total_length _ _ _ Hs). pose proof (span_pos_le _ _ _ Hs).
  split; [lia|]. intros Hc. pose proof (span_consuming _ _ _ Hs Hc). lia.
Qed.

Lemma exec_from_captures r from s mr n :
  exec_from r from s = Some mr -> captures n r = true -> is_Some (group n mr).
Proof.
  intros H Hc. apply exec_from_Some in H as (st & e & Hs & _ & _ & _ & _ & _ & Hg).
  unfold group. rewrite Hg. eapply span_captures; eauto.
Qed.

(** The loop over the matches of a consuming pattern ends: each call of
    [exec] moves [lastIndex] forward. *)
Lemma exec_loop_total r s :
  consuming r = true ->
  forall fuel from,
    from <= String.length s -> String.length s < fuel + from ->
    is_Some (exec_loop fuel r from s).
Proof.
  intros Hc fuel. induction fuel as [|fuel IH]; intros from Hle Hlt; [lia|].
  simpl. destruct (exec_from r from s) as [mr|] eqn:E; [|done].
  apply exec_from_lastIndex in E as [[_ Hl] Hlt']. specialize (Hlt' Hc).
  destruct (IH (lastIndex mr)) as [l ->]; [lia..|]. done.
Qed.

Lemma exec_all_total r s : consuming r = true -> is_Some (exec_all r s).
Proof. intros Hc. apply exec_loop_total; [done | lia..]. Qed.

Lemma exec_loop_elem fuel r from s l mr :
  exec_loop fuel r from s = Some l -> mr ∈ l ->
  exists from', exec_from r from' s = Some mr.
Proof.
  revert from l. induction fuel as [|fuel IH]; intros from l; simpl; [discriminate|].
  destruct (exec_from r from s) as [mr'|] eqn:E.
  - destruct (exec_loop fuel r (lastIndex mr') s) as [l'|] eqn:El; [|discriminate].
    simpl. intros [= <-] [->|Hin]%elem_of_cons; eauto.
  - intros [= <-] Hin. by apply elem_of_nil in Hin.
Qed.

Lemma exec_all_captures r s l mr n :
  exec_all r s = Some l -> mr ∈ l -> captures n r = true -> is_Some (group n mr).
Proof.
  intros Hl Hin Hc. destruct (exec_loop_elem _ _ _ _ _ _ Hl Hin) as [from' H].
  eapply exec_from_captures; eauto.
Qed.

(** [test] on a pattern anchored at the start. *)
Lemma test_anchored r s :
  test (RBol ~~ r) s = true <-> exists e, Span r (start 0 s) e.
Proof.
  unfold test, exec, exec_from. simpl. split.
  - destruct (search _ 0 s) as [mr|] eqn:E; [|discriminate]. intros _.
    apply search_Some in E as (n & e & Hn & Hs & _).
    inversion Hs as [| | | |r1 r2 s0 s1 s2 H1 H2| | | | |]; subst.
    inversion H1 as [|s0 Hp| | | | | | | |]; subst. simpl in Hp.
    assert (n = 0) as -> by lia. rewrite JsFacts.slice_0 in H2. eauto.
  - intros [e Hs].
    destruct (search_complete (RBol ~~ r) 0 s 0 e) as [mr ->]; [lia| |done].
    rewrite JsFacts.slice_0. econstructor; [|exact Hs]. by constructor.
Qed.

(** *** The strings a capture-free pattern reads *)

Lemma MState_eq s s' :
  pos s = pos s' -> rest s = rest s' -> caps s = caps s' -> s = s'.
Proof. destruct s, s'; simpl; congruence. Qed.

Lemma reads_char cs s s' : Span (RChar cs) s s' <-> Reads (Lchar cs) s s'.
Proof.
  split.
  - inversion 1 as [cs' s0 c t Hr Hc| | | | | | | | |]; subst.
    exists (String c ""). repeat split; simpl; eauto with lia. by exists c.
  - intros (w & (c & -> & Hc) & Hr & Hp & Hcaps).
    assert (s' = advance s (rest s')) as ->.
    { simpl in Hp. apply MState_eq; simpl; [lia | done | done]. }
    by econstructor.
Qed.

Lemma reads_star g cs s s' :
  Span (RStar g (RChar cs)) s s' <-> Reads (Lstar cs) s s'.
Proof.
  split.
  - intros H. remember (RStar g (RChar cs)) as r eqn:Hr.
    induction H as [| | | | | |g' r' s s1 s2 H1 _ Hlt H2 IH| | |]; try discriminate.
    + exists "". repeat split; auto with lia.
    + injection Hr as -> ->. specialize (IH eq_refl).
      apply reads_char in H1 as (u & (c & -> & Hc) & Hr1 & Hp1 & Hc1).
      destruct IH as (w & Hw & Hr2 & Hp2 & Hc2).
      exists (String c w). unfold Lstar in *. simpl. rewrite Hc, Hw.
      repeat split; [|simpl in *; lia|congruence].
      rewrite Hr1, Hr2. done.
  - intros (w & Hw & Hr & Hp & Hc). revert s Hr Hp Hc.
    induction w as [|c w IH]; intros s Hr Hp Hc.
    + assert (s' = s) as ->; [|constructor].
      apply MState_eq; simpl in *; auto with lia.
    + unfold Lstar in Hw. simpl in Hw. apply andb_true_iff in Hw as [Hc1 Hw].
      rewrite JsFacts.app_cons in Hr.
      apply SpanStarCons with (s1 := advance s (w +:+ rest s')).
      * by econstructor.
      * simpl. lia.
      * apply IH; simpl in *; auto with lia.
Qed.

Lemma reads_seq r1 r2 L1 L2 :
  (forall s s', Span r1 s s' <-> Reads L1 s s') ->
  (forall s s', Span r2 s s' <-> Reads L2 s s') ->
  forall s s', Span (r1 ~~ r2) s s' <-> Reads (Lseq L1 L2) s s'.
Proof.
  intros H1 H2 s s'. split.
  - inversion 1 as [| | | |r1' r2' s0 s1 s2 Ha Hb| | | | |]; subst.
    apply H1 in Ha as (u & Hu & Hr1 & Hp1 & Hc1).
    apply H2 in Hb as (v & Hv & Hr2 & Hp2 & Hc2).
    exists (u +:+ v). repeat split.
    + by exists u, v.
    + by rewrite Hr1, Hr2, JsFacts.app_assoc.
    + rewrite JsFacts.length_app. lia.
    + congruence.
  - intros (w & (u & v & -> & Hu & Hv) & Hr & Hp & Hc).
    rewrite JsFacts.app_assoc in Hr. rewrite JsFacts.length_app in Hp.
    apply SpanSeq with
      (s1 := {| pos := pos s + String.length u; rest := v +:+ rest s'; caps := caps s |}).
    + apply H1. exists u. simpl. auto.
    + apply H2. exists v. simpl. repeat split; auto with lia.
Qed.

Lemma reads_plus cs s s' :
  Span (RPlus (RChar cs)) s s' <-> Reads (Lplus cs) s s'.
Proof.
  unfold RPlus. rewrite (reads_seq _ _ _ _ (reads_char cs) (reads_star true cs)).
  split; intros (w & Hw & Hrest); exists w; split; auto.
  - destruct Hw as (u & v & -> & (c & -> & Hc) & Hv). split; [done|].
    unfold Lstar in *. simpl. by rewrite Hc.
  - destruct Hw as [Hne Hw]. destruct w as [|c w]; [done|].
    simpl in Hw. apply andb_true_iff in Hw as [Hc Hw].
    exists (String c ""), w. repeat split; auto. by exists c.
Qed.

End RegexFacts.

(** ** The path validator *)

Module PathValidator.
Import Regex RegexFacts CodeExtractor.

(** The pattern shared by the validator and the classifier reads exactly
    the strings of [path_shape]. *)
Lemma span_PATH_SHAPE s s' : Span PATH_SHAPE s s' <-> Reads path_shape s s'.
Proof.
  unfold PATH_SHAPE.
  rewrite (reads_seq _ _ _ _ (reads_plus wordHyphen)
            (reads_seq _ _ _ _ (reads_char (CChar "/"))
              (reads_seq _ _ _ _ (reads_plus wordSlashHyphen)
                (reads_seq _ _ _ _ (reads_char (CChar ".")) (reads_plus CWord))))).
  split; intros (w & Hw & Hrest); exists w; split; auto.
  - destruct Hw as (a & w1 & -> & [Ha1 Ha2] & (sl & w2 & -> & (c1 & -> & Hc1)
                    & (b & w3 & -> & [Hb1 Hb2] & (dt & e & -> & (c2 & -> & Hc2) & [He1 He2])))).
    cbn [cmem] in Hc1, Hc2. apply Ascii.eqb_eq in Hc1 as <-, Hc2 as <-.
    exists a, b, e. repeat split; auto.
  - destruct Hw as (a & b & e & -> & Ha & Hb & He & Ha' & Hb' & He').
    exists a, ("/" +:+ b +:+ "." +:+ e). repeat split; auto.
    exists "/", (b +:+ "." +:+ e). repeat split; auto; [by exists "/"%char|].
    exists b, ("." +:+ e). repeat split; auto.
    exists ".", e. repeat split; auto. by exists "."%char.
Qed.

Lemma test_VALID_PATH_REGEX p : test VALID_PATH_REGEX p = true <-> path_shape p.
Proof.
  unfold VALID_PATH_REGEX. rewrite test_anchored. split.
  - intros [e Hs].
    inversion Hs as [| | | |r1 r2 s0 s1 s2 H1 H2| | | | |]; subst.
    inversion H2 as [| |s0 Hr| | | | | | |]; subst.
    apply span_PATH_SHAPE in H1 as (w & Hw & Hrest & _). simpl in Hrest.
    rewrite Hr, JsFacts.app_nil_r in Hrest. by subst.
  - intros Hp.
    exists {| pos := String.length p; rest := ""; caps := [] |}.
    econstructor; [|by constructor].
    apply span_PATH_SHAPE. exists p. simpl. by rewrite JsFacts.app_nil_r.
Qed.

(** A string of the shape has a single dot, no backslash, and does not
    start with a slash. *)
Lemma path_shape_safe p :
  path_shape p ->
  Js.includes ".." p = false /\ Js.startsWith "/" p = false /\ Js.includes "\" p = false.
Proof.
  intros (a & b & e & -> & Ha & Hb & He & Ha' & Hb' & He').
  assert (Hdots : Js.count "." (a +:+ "/" +:+ b +:+ "." +:+ e) = 1).
  { rewrite !JsFacts.count_app.
    rewrite (JsFacts.count_all _ _ _ Ha'), (JsFacts.count_all _ _ _ Hb'),
      (JsFacts.count_all _ _ _ He'); done. }
  assert (Hback : Js.count "\" (a +:+ "/" +:+ b +:+ "." +:+ e) = 0).
  { rewrite !JsFacts.count_app.
    rewrite (JsFacts.count_all _ _ _ Ha'), (JsFacts.count_all _ _ _ Hb'),
      (JsFacts.count_all _ _ _ He'); done. }
  repeat split.
  - destruct (Js.includes ".." _) eqn:E; [|done].
    apply JsFacts.includes_count_2 in E. lia.
  - destruct a as [|c a]; [done|]. rewrite JsFacts.app_cons. cbn [Js.startsWith].
    cbn [Js.all] in Ha'. apply andb_true_iff in Ha' as [Hc _].
    destruct (Ascii.eqb_spec "/" c) as [<-|_]; [by vm_compute in Hc | done].
  - destruct (Js.includes "\" _) eqn:E; [|done].
    apply JsFacts.includes_count_1 in E. lia.
Qed.

Lemma isValidPath_iff_shape p : isValidPath p = true <-> path_shape p.
Proof.
  unfold isValidPath. split.
  - intros H. apply test_VALID_PATH_REGEX.
    by repeat (apply andb_true_iff in H as [H _]).
  - intros H. destruct (path_shape_safe p H) as (-> & -> & ->).
    apply test_VALID_PATH_REGEX in H as ->. done.
Qed.

(** *** The code against the specification's wording *)

Lemma splitLastDot_Some p stem ext :
  Spec.splitLastDot p = Some (stem, ext) -> p = stem +:+ "." +:+ ext.
Proof.
  revert stem. induction p as [|c p IH]; intros stem; simpl; [discriminate|].
  destruct (Spec.splitLastDot p) as [[stem' ext']|].
  - intros [= <- <-]. by rewrite JsFacts.app_cons, <- (IH stem' eq_refl).
  - destruct (Ascii.eqb_spec c ".") as [->|_]; [|discriminate].
    by intros [= <- <-].
Qed.

(** Segments joined by slashes are a non-empty run of word characters,
    hyphens and slashes. *)
Lemma segments_joined segs :
  segs <> [] -> forallb Spec.isSegment segs = true ->
  Js.join "/" segs <> "" /\ Js.all isWordSlashOrHyphen (Js.join "/" segs) = true.
Proof.
  assert (Hseg : forall s, Spec.isSegment s = true ->
            s <> "" /\ Js.all isWordSlashOrHyphen s = true).
  { intros s [Ht Ha]%andb_true_iff. split; [by destruct s|].
    eapply JsFacts.all_impl; [|exact Ha].
    intros c. unfold isWordOrHyphen, isWordSlashOrHyphen.
    intros [-> | ->]%orb_true_iff; [done|]. by rewrite !orb_true_r. }
  induction segs as [|x segs IH]; [done|]. intros _. cbn [forallb].
  intros [Hx Hs]%andb_true_iff. destruct (Hseg x Hx) as [Hne Hall].
  destruct segs as [|y segs]; [done|].
  destruct (IH ltac:(done) Hs) as [_ Hrest].
  rewrite JsFacts.join_cons. split; [by destruct x|].
  rewrite !JsFacts.all_app, Hall, Hrest. reflexivity.
Qed.

(** Every path the specification's wording accepts is accepted by the code,
    provided it has a slash. *)
Lemma wording_accepted_with_slash p :
  Spec.acceptsPath p = true -> Js.includes "/" p = true -> isValidPath p = true.
Proof.
  unfold Spec.acceptsPath, Spec.matchesShape.
  intros Hacc Hslash. repeat (apply andb_true_iff in Hacc as [Hacc _]).
  destruct (Spec.splitLastDot p) as [[stem ext]|] eqn:Hsplit; [|discriminate].
  apply andb_true_iff in Hacc as [[Hext1 Hext2]%andb_true_iff Hsegs].
  apply splitLastDot_Some in Hsplit as ->.
  apply isValidPath_iff_shape.
  apply JsFacts.includes_count_1 in Hslash.
  rewrite !JsFacts.count_app, (JsFacts.count_all "/" _ ext Hext2) in Hslash by done.
  change (Js.count "/" ".") with 0 in Hslash.
  pose proof (JsFacts.split_length "/" stem) as Hlen.
  pose proof (JsFacts.join_split "/" stem) as Hjoin.
  destruct (Js.split "/" stem) as [|a [|b segs]]; simpl in Hlen; [lia..|].
  cbn [forallb] in Hsegs. apply andb_true_iff in Hsegs as [Ha Hrest].
  destruct (segments_joined (b :: segs) ltac:(done) Hrest) as [Hne Hall].
  apply andb_true_iff in Ha as [Ha1 Ha2].
  exists a, (Js.join "/" (b :: segs)), ext.
  rewrite <- Hjoin, JsFacts.join_cons, !JsFacts.app_assoc.
  repeat split; auto; [by destruct a | by destruct ext].
Qed.

(** C1 (as the code has it). The validator accepts a path if and only if
    the path is a non-empty run of word characters and hyphens, a slash, a
    non-empty run of word characters, hyphens and slashes, a dot and a
    non-empty run of word characters, and has no two dots in a row, no
    leading slash and no backslash (which the shape already excludes); in
    particular a path with two dots in a row, a leading slash or a
    backslash is rejected. *)
Theorem isValidPath_accepts (p : string) :
  (isValidPath p = true <->
     path_shape p /\ Js.includes ".." p = false /\
     Js.startsWith "/" p = false /\ Js.includes "\" p = false)
  /\ (Js.includes ".." p = true \/ Js.startsWith "/" p = true \/
      Js.includes "\" p = true ->
      isValidPath p = false).
Proof.
  split.
  - rewrite isValidPath_iff_shape. split; [|tauto].
    intros H. split; [done|]. by apply path_shape_safe.
  - intros Hbad. destruct (isValidPath p) eqn:E; [|done].
    apply isValidPath_iff_shape, path_shape_safe in E as (H1 & H2 & H3).
    destruct Hbad as [H|[H|H]]; congruence.
Qed.

Lemma isValidPath_accepts_witness :
  Js.includes ".." "src/../../etc/passwd.txt" = true /\
  isValidPath "src/../../etc/passwd.txt" = false.
Proof.
  split; [reflexivity|].
  apply (proj2 (isValidPath_accepts "src/../../etc/passwd.txt")).
  left. reflexivity.
Defined.

(** The validator and the specification's wording differ: a path with an
    empty segment is accepted by the code, and a path of one segment, with
    no slash, is rejected by it. *)
Lemma isValidPath_differs_from_wording :
  (isValidPath "a//b.ts" = true /\ Spec.acceptsPath "a//b.ts" = false) /\
  (isValidPath "a.ts" = false /\ Spec.acceptsPath "a.ts" = true).
Proof. repeat split; vm_compute; reflexivity. Qed.

End PathValidator.

(** ** The comment classifier *)

Module CommentClassifier.
Import Regex RegexFacts CodeExtractor.

Lemma tryPatterns_skip pre post line :
  Forall (fun q => matchesValidPath q line = false) pre ->
  tryPatterns (pre ++ post) line = tryPatterns post line.
Proof.
  induction 1 as [|q pre Hq _ IH]; [done|].
  simpl. unfold matchesValidPath in Hq.
  destruct (exec q line) as [mt|]; [|done].
  destruct (group 1 mt) as [p|]; [|done]. by rewrite Hq.
Qed.

Lemma tryPatterns_hit q post line mt p :
  exec q line = Some mt -> group 1 mt = Some p -> isValidPath p = true ->
  tryPatterns (q :: post) line
  = Some {| isPath := true; path := Some p; comment := group 2 mt |}.
Proof. intros He Hg Hv. simpl. by rewrite He, Hg, Hv. Qed.

Lemma tryPatterns_None patterns line :
  Forall (fun q => matchesValidPath q line = false) patterns ->
  tryPatterns patterns line = None.
Proof.
  intros H. rewrite <- (app_nil_r patterns). by rewrite tryPatterns_skip.
Qed.

Lemma tryPatterns_Some patterns line parsed :
  tryPatterns patterns line = Some parsed ->
  isPath parsed = true /\
  exists p, path parsed = Some p /\ isValidPath p = true.
Proof.
  induction patterns as [|q patterns IH]; simpl; [discriminate|].
  destruct (exec q line) as [mt|]; [|done].
  destruct (group 1 mt) as [p|]; [|done].
  destruct (isValidPath p) eqn:Hv; [|done].
  intros [= <-]. simpl. eauto.
Qed.

(** A classification as a path declaration carries a path, and the path
    has passed the validator. *)
Lemma parseComment_isPath line :
  isPath (parseComment line) = true ->
  exists p, path (parseComment line) = Some p /\ isValidPath p = true.
Proof.
  unfold parseComment. destruct (negb _); [discriminate|].
  destruct (tryPatterns _ _) as [parsed|] eqn:E; [|discriminate].
  intros _. by apply tryPatterns_Some in E as [_ ?].
Qed.

(** C4. For a line whose trimmed text begins with the comment marker: the
    first pattern, in the order of [PATH_PATTERNS], that matches with a
    captured path passing the validator decides the classification, the
    patterns before it (which do not match, or whose captured path fails
    the validator) being passed over; when no pattern both matches and
    validates, the line is a plain comment whose text is the trimmed line
    after the marker, trimmed; and a classification as a path always
    carries a validated path. *)
Theorem parseComment_falls_through (line : string) :
  Js.startsWith "//" (Js.trim line) = true ->
  (forall pre q post mt p,
      PATH_PATTERNS = pre ++ q :: post ->
      Forall (fun q' => matchesValidPath q' (Js.trim line) = false) pre ->
      exec q (Js.trim line) = Some mt -> group 1 mt = Some p ->
      isValidPath p = true ->
      parseComment line = {| isPath := true; path := Some p; comment := group 2 mt |})
  /\ (Forall (fun q => matchesValidPath q (Js.trim line) = false) PATH_PATTERNS ->
      parseComment line
      = {| isPath := false; path := None;
           comment := Some (Js.trim (Js.slice 2 (Js.trim line))) |})
  /\ (isPath (parseComment line) = true ->
      exists p, path (parseComment line) = Some p /\ isValidPath p = true).
Proof.
  intros Hmarker. split; [|split].
  - intros pre q post mt p Hpat Hpre He Hg Hv.
    unfold parseComment. rewrite Hmarker. simpl negb. cbv iota.
    rewrite Hpat, tryPatterns_skip by done.
    by rewrite (tryPatterns_hit _ _ _ _ _ He Hg Hv).
  - intros Hnone. unfold parseComment. rewrite Hmarker. simpl negb. cbv iota.
    by rewrite tryPatterns_None.
  - apply parseComment_isPath.
Qed.

(** The text a path pattern captures as the path has the shape the
    validator accepts: on a captured path the validator never fails, and the
    first pattern that matches decides. *)
Lemma captured_path_is_valid q line mt p :
  q ∈ PATH_PATTERNS -> exec q line = Some mt -> group 1 mt = Some p ->
  isValidPath p = true.
Proof.
  intros Hq He Hg.
  apply exec_from_Some in He as (st & e & Hs & Hcaps & _ & _ & _ & _ & Hgroups).
  unfold group in Hg. rewrite Hgroups in Hg.
  destruct (span_getcap _ _ _ _ _ Hs Hg) as [H|(body & s1 & s2 & Hin & Hb & ->)].
  - rewrite Hcaps in H. discriminate.
  - assert (body = PATH_SHAPE) as ->.
    { unfold PATH_PATTERNS in Hq.
      repeat (apply elem_of_cons in Hq as [->|Hq]);
        [..|by apply elem_of_nil in Hq];
        vm_compute in Hin; by apply list_elem_of_singleton in Hin as ->. }
    apply PathValidator.span_PATH_SHAPE in Hb as (w & Hw & Hr & Hp & _).
    rewrite Hr. replace (pos s2 - pos s1) with (String.length w) by lia.
    rewrite JsFacts.take_app_length. by apply PathValidator.isValidPath_iff_shape.
Qed.

(** A comment whose path-looking text is unsafe is a plain comment. *)
Lemma parseComment_falls_through_witness :
  Js.startsWith "//" (Js.trim "// ../etc/passwd.txt") = true /\
  parseComment "// ../etc/passwd.txt"
  = {| isPath := false; path := None; comment := Some "../etc/passwd.txt" |}.
Proof.
  split; [reflexivity|].
  apply (proj1 (proj2 (parseComment_falls_through "// ../etc/passwd.txt" eq_refl))).
  repeat constructor.
Defined.

End CommentClassifier.

(** ** The block segmenter *)

Module BlockSegmenter.
Import Regex CodeExtractor.

Section Scan.
Variable classify : string -> ParsedComment.

Lemma scan_app st l1 l2 :
  scan classify st (l1 ++ l2) = scan classify (scan classify st l1) l2.
Proof. apply foldl_app. Qed.

Lemma scan_cons st line lines :
  scan classify st (line :: lines) = scan classify (step classify st line) lines.
Proof. reflexivity. Qed.

(** Inside a fence, a line that is not a fence line only grows the
    fenced buffer. *)
Lemma step_inside st line :
  inCodeBlock st = true -> isFenceLine line = false ->
  step classify st line
  = {| blocks := blocks st; currentPath := currentPath st;
       currentContent := currentContent st; inCodeBlock := true;
       codeBlockContent := codeBlockContent st +:+ line +:+ nl |}.
Proof. intros Hin Hf. unfold step. by rewrite Hf, Hin. Qed.

(** Outside a fence, a fence line opens one and changes nothing else. *)
Lemma step_open st line :
  inCodeBlock st = false -> isFenceLine line = true ->
  step classify st line
  = {| blocks := blocks st; currentPath := currentPath st;
       currentContent := currentContent st; inCodeBlock := true;
       codeBlockContent := codeBlockContent st |}.
Proof. intros Hin Hf. unfold step. by rewrite Hf, Hin. Qed.

(** The lines of an unclosed fence reach the fenced buffer only. *)
Lemma scan_inside st lines :
  inCodeBlock st = true ->
  Forall (fun l => isFenceLine l = false) lines ->
  let st' := scan classify st lines in
  blocks st' = blocks st /\ currentPath st' = currentPath st /\
  currentContent st' = currentContent st /\ inCodeBlock st' = true.
Proof.
  intros Hin Hl. revert st Hin.
  induction Hl as [|l lines Hf _ IH]; intros st Hin; [done|].
  rewrite scan_cons. rewrite step_inside by done.
  destruct (IH {| blocks := blocks st; currentPath := currentPath st;
                  currentContent := currentContent st; inCodeBlock := true;
                  codeBlockContent := codeBlockContent st +:+ l +:+ nl |} eq_refl)
    as (? & ? & ? & ?).
  done.
Qed.

(** The fence state after a line. *)
Lemma step_inCodeBlock st line :
  inCodeBlock (step classify st line)
  = if isFenceLine line then negb (inCodeBlock st) else inCodeBlock st.
Proof.
  unfold step.
  destruct (isFenceLine line), (inCodeBlock st) eqn:Hin; simpl; try done.
  destruct (isPath (classify line)).
  - by destruct (saveBlock st).
  - by destruct (Js.truthy_opt (currentPath st)).
Qed.

(** A scan that ends inside a fence either started inside one and met no
    fence line, or met a last fence line, outside any fence, with no
    fence line after it. *)
Lemma scan_ends_inside st lines :
  inCodeBlock (scan classify st lines) = true ->
  (inCodeBlock st = true /\ Forall (fun l => isFenceLine l = false) lines)
  \/ exists before fence inside,
       lines = before ++ fence :: inside /\
       isFenceLine fence = true /\
       Forall (fun l => isFenceLine l = false) inside /\
       inCodeBlock (scan classify st before) = false.
Proof.
  induction lines as [|x lines IH] using rev_ind; [by left|].
  rewrite scan_app. simpl. rewrite step_inCodeBlock.
  destruct (isFenceLine x) eqn:Hx.
  - intros Hin. right. exists lines, x, []. repeat split; auto.
    by destruct (inCodeBlock (scan classify st lines)).
  - intros Hin. destruct (IH Hin) as [[Hst Hl]|(before & fence & inside & -> & Hf & Hi & Hb)].
    + left. split; [done|]. apply Forall_app. split; [done|]. by constructor.
    + right. exists before, fence, (inside ++ [x]). repeat split; auto.
      * by rewrite <- app_assoc.
      * apply Forall_app. split; [done|]. by constructor.
Qed.

Lemma saveBlock_ext st st' :
  blocks st' = blocks st -> currentPath st' = currentPath st ->
  currentContent st' = currentContent st -> saveBlock st' = saveBlock st.
Proof. intros Hb Hp Hc. unfold saveBlock. by rewrite Hb, Hp, Hc. Qed.

End Scan.

(** C6 (as the code has it). While the scan is inside a fenced block, the
    result of handling a line does not depend on the classifier (the
    classifier is not applied to it), no line declares a path or completes
    a block (the current path and the completed blocks stay as they are),
    and a line whose trimmed text does not begin with three backticks is
    appended raw, followed by a newline, to the fenced buffer, nothing else
    changing. A line whose trimmed text begins with three backticks,
    whatever follows them, is not appended: it closes the fence, the buffer
    becoming one entry of the accumulator when a non-empty path is current, and the
    buffer is emptied. *)
Theorem fenced_lines_are_not_classified
    (classify classify' : string -> ParsedComment) (st : SegState) (line : string) :
  inCodeBlock st = true ->
  step classify st line = step classify' st line /\
  currentPath (step classify st line) = currentPath st /\
  blocks (step classify st line) = blocks st /\
  (isFenceLine line = false ->
   step classify st line
   = {| blocks := blocks st; currentPath := currentPath st;
        currentContent := currentContent st; inCodeBlock := true;
        codeBlockContent := codeBlockContent st +:+ line +:+ nl |}) /\
  (isFenceLine line = true ->
   step classify st line
   = {| blocks := blocks st; currentPath := currentPath st;
        currentContent :=
          if Js.truthy_opt (currentPath st)
          then currentContent st ++ [codeBlockContent st]
          else currentContent st;
        inCodeBlock := false; codeBlockContent := "" |}).
Proof.
  intros Hin. repeat split.
  - unfold step. rewrite Hin. by destruct (isFenceLine line).
  - unfold step. rewrite Hin. by destruct (isFenceLine line).
  - unfold step. rewrite Hin. by destruct (isFenceLine line).
  - intros Hf. by apply step_inside.
  - intros Hf. unfold step. by rewrite Hf, Hin.
Qed.

(** Inside a fence, a line reading like a path declaration is buffered as
    code. *)
Lemma fenced_lines_are_not_classified_witness :
  let st := {| blocks := []; currentPath := Some "src/a/b.ts"; currentContent := [];
               inCodeBlock := true; codeBlockContent := "" |} in
  inCodeBlock st = true /\
  step parseComment st "// src/c/d.ts"
  = {| blocks := []; currentPath := Some "src/a/b.ts"; currentContent := [];
       inCodeBlock := true; codeBlockContent := "// src/c/d.ts" +:+ nl |}.
Proof.
  split; [reflexivity|].
  refine (proj1 (proj2 (proj2 (proj2 (fenced_lines_are_not_classified
                   parseComment parseComment
                   {| blocks := []; currentPath := Some "src/a/b.ts";
                      currentContent := []; inCodeBlock := true;
                      codeBlockContent := "" |} "// src/c/d.ts" eq_refl)))) eq_refl).
Defined.

(** Inside a fence reached by a scan, a line of three backticks, a language
    tag and more text is not a fence marker in the specification's sense,
    yet it is not appended to the fenced buffer: it closes the fence. *)
Lemma trailing_text_line_closes_fence :
  let st := scan parseComment initial ["// src/a/b.ts"; "```"; "x"] in
  Spec.isFenceMarker "```ts and more text" = false /\
  inCodeBlock st = true /\
  codeBlockContent st = "x" +:+ nl /\
  step parseComment st "```ts and more text"
  = {| blocks := []; currentPath := Some "src/a/b.ts";
       currentContent := ["x" +:+ nl];
       inCodeBlock := false; codeBlockContent := "" |}.
Proof. repeat split; vm_compute; reflexivity. Qed.

(** C7 (as the code has it). A line toggles the fence state if and only if
    its trimmed text begins with three backticks, whatever follows them. *)
Theorem fence_toggles_iff_backticks
    (classify : string -> ParsedComment) (st : SegState) (line : string) :
  inCodeBlock (step classify st line) = negb (inCodeBlock st)
  <-> Js.startsWith "```" (Js.trim line) = true.
Proof.
  fold (isFenceLine line). rewrite step_inCodeBlock.
  destruct (isFenceLine line), (inCodeBlock st); simpl; split; done.
Qed.

(** A fence marker in the specification's sense is a fence line of the
    code, so it toggles the fence state. *)
Lemma fence_marker_is_fence_line line :
  Spec.isFenceMarker line = true -> isFenceLine line = true.
Proof. unfold Spec.isFenceMarker, isFenceLine. by intros [? _]%andb_true_iff. Qed.

(** A line with text after the backticks and a language tag opens a fence,
    though it is not a fence marker in the specification's sense. *)
Lemma fence_toggles_on_trailing_text :
  Spec.isFenceMarker "```ts and more text" = false /\
  inCodeBlock initial = false /\
  inCodeBlock (step parseComment initial "```ts and more text") = true.
Proof. repeat split; vm_compute; reflexivity. Qed.

(** *** What the segmenter emits *)

Lemma finalised_eq st :
  finalised st
  = match currentPath st with
    | Some p =>
        if Js.truthy p && (0 <? length (currentContent st)) then
          Some {| block_path := p;
                  block_content := Js.trim (Js.join nl (currentContent st)) |}
        else None
    | None => None
    end.
Proof.
  unfold finalised, saveBlock. destruct (currentPath st) as [p|]; [|done].
  destruct (Js.truthy p && _); [|done]. cbn [fst snd]. apply last_snoc.
Qed.

Lemma saveBlock_finalised st :
  (saveBlock st).1 = blocks st ++ omap finalised [st].
Proof.
  cbn [omap list_omap]. rewrite finalised_eq. unfold saveBlock.
  destruct (currentPath st) as [p|]; [|by rewrite app_nil_r].
  destruct (Js.truthy p && _); [done|]. by rewrite app_nil_r.
Qed.

Lemma step_finalised classify st line :
  blocks (step classify st line)
  = blocks st ++ omap finalised (if declaresPath classify st line then [st] else []).
Proof.
  unfold step, declaresPath.
  destruct (isFenceLine line); cbn [negb andb].
  { destruct (inCodeBlock st); by rewrite app_nil_r. }
  destruct (inCodeBlock st); cbn [negb andb]; [by rewrite app_nil_r|].
  destruct (isPath (classify line)).
  - rewrite <- saveBlock_finalised. by destruct (saveBlock st).
  - destruct (Js.truthy_opt (currentPath st)); by rewrite app_nil_r.
Qed.

Lemma scan_finalised classify lines : forall st,
  (saveBlock (scan classify st lines)).1
  = blocks st ++ omap finalised (finalisations classify st lines).
Proof.
  induction lines as [|line lines IH]; intros st.
  - apply saveBlock_finalised.
  - rewrite scan_cons, IH, step_finalised. cbn [finalisations].
    by rewrite omap_app, app_assoc.
Qed.

Lemma trim_all_blank s : Js.all Js.isWhiteSpace s = true -> Js.trim s = "".
Proof.
  intros Hs. unfold Js.trim.
  assert (H : Js.trimStart s = ""); [|by rewrite H].
  induction s as [|c s IH]; [done|]. simpl in *.
  apply andb_true_iff in Hs as [Hc Hs]. rewrite Hc. by apply IH.
Qed.

Lemma join_blank entries :
  Forall (fun entry => Js.all Js.isWhiteSpace entry = true) entries ->
  Js.all Js.isWhiteSpace (Js.join nl entries) = true.
Proof.
  induction 1 as [|x entries Hx Hentries IH]; [done|].
  destruct entries as [|y entries]; [done|].
  rewrite JsFacts.join_cons, !JsFacts.all_app, Hx, IH. reflexivity.
Qed.

(** C8 (as the code has it). The segmenter tests for a block to emit before
    each line it handles as a new path declaration and at the end of the
    input, and its output is exactly, in order, the blocks these tests
    give. A test gives a block if and only if a non-empty path is current
    and the accumulator holds at least one entry; the block has the current
    path and, as content, the entries joined by newlines and trimmed. So a
    content made of white space only is the empty string, and when every
    entry is blank the block is emitted with the empty content. *)
Theorem blocks_are_finalised_accumulators (content : string) :
  splitIntoCodeBlocks content
  = omap finalised (finalisations parseComment initial (Js.split LF content)) /\
  (forall st : SegState,
     (finalised st = None
      <-> Js.truthy_opt (currentPath st) = false \/ currentContent st = []) /\
     (forall b, finalised st = Some b ->
        currentPath st = Some (block_path b) /\
        block_content b = Js.trim (Js.join nl (currentContent st)) /\
        Js.trim (block_content b) = block_content b /\
        (Js.all Js.isWhiteSpace (block_content b) = true -> block_content b = "") /\
        (Forall (fun entry => Js.all Js.isWhiteSpace entry = true) (currentContent st) ->
         block_content b = ""))).
Proof.
  split.
  - unfold splitIntoCodeBlocks, segment. by rewrite scan_finalised.
  - intros st. rewrite finalised_eq.
    destruct (currentPath st) as [p|]; cbn [Js.truthy_opt].
    2:{ split; [split; auto|done]. }
    destruct (Js.truthy p); cbn [andb].
    2:{ split; [split; auto|done]. }
    destruct (currentContent st) as [|x entries] eqn:Hentries;
      cbn [length Nat.ltb Nat.leb].
    { split; [split; auto|done]. }
    rewrite <- Hentries. split.
    + split; [done|]. intros [?|?]; [done|congruence].
    + intros b [= <-]. cbn [block_path block_content].
      split; [done|]. split; [done|]. split; [apply JsFacts.trim_idem|].
      split; [apply JsFacts.trim_blank|].
      intros Hblank. by apply trim_all_blank, join_blank.
Qed.

(** A path declaration followed by an empty line, and one followed by an
    empty fenced block, give a block with empty content. *)
Lemma empty_block_is_emitted :
  splitIntoCodeBlocks ("// src/a/b.ts" +:+ nl)
  = [ {| block_path := "src/a/b.ts"; block_content := "" |} ] /\
  splitIntoCodeBlocks ("// src/a/b.ts" +:+ nl +:+ "```" +:+ nl +:+ "```")
  = [ {| block_path := "src/a/b.ts"; block_content := "" |} ].
Proof. split; vm_compute; reflexivity. Qed.

Lemma saveBlock_pathsValid st :
  pathsValid st -> Forall (fun b => isValidPath (block_path b) = true) (saveBlock st).1.
Proof.
  intros [Hb Hp]. unfold saveBlock.
  destruct (currentPath st) as [p|]; [|done].
  destruct (Js.truthy p && _); [|done].
  simpl. apply Forall_app. split; [done|]. constructor; [|done]. by apply Hp.
Qed.

Lemma step_pathsValid st line :
  pathsValid st -> pathsValid (step parseComment st line).
Proof.
  intros Hst. pose proof Hst as [Hb Hp]. unfold step.
  destruct (isFenceLine line); [by destruct (inCodeBlock st)|].
  destruct (inCodeBlock st); [done|].
  destruct (isPath (parseComment line)) eqn:Hpath.
  - pose proof (saveBlock_pathsValid st Hst) as Hs.
    destruct (saveBlock st) as [blocks' saved]. split; [done|]. simpl.
    destruct (CommentClassifier.parseComment_isPath line Hpath) as (p & -> & Hv).
    by intros ? [= <-].
  - by destruct (Js.truthy_opt (currentPath st)).
Qed.

Lemma scan_pathsValid st lines :
  pathsValid st -> pathsValid (scan parseComment st lines).
Proof.
  revert st. induction lines as [|l lines IH]; intros st Hst; [done|].
  rewrite scan_cons. by apply IH, step_pathsValid.
Qed.

(** Every block of the segmenter's output is under a validated path. *)
Lemma emitted_paths_are_valid content :
  Forall (fun b => isValidPath (block_path b) = true) (splitIntoCodeBlocks content).
Proof.
  apply saveBlock_pathsValid, scan_pathsValid. split; [constructor | done].
Qed.

(** *** Unclosed fences *)

(** C10. When the input ends while the scan is inside a fenced block, the
    lines split into the lines before the fence line that opened the
    unclosed block, that fence line, and the lines buffered after it; the
    output is what the lines before the opening fence line give on their
    own, so nothing buffered for the unclosed block reaches an accumulator
    or a block. *)
Theorem unclosed_fence_is_discarded (content : string) :
  inCodeBlock (scan parseComment initial (Js.split LF content)) = true ->
  exists (before : list string) (fence : string) (inside : list string),
    Js.split LF content = before ++ fence :: inside /\
    isFenceLine fence = true /\
    Forall (fun l => isFenceLine l = false) inside /\
    inCodeBlock (scan parseComment initial before) = false /\
    currentContent (scan parseComment initial (Js.split LF content))
    = currentContent (scan parseComment initial before) /\
    splitIntoCodeBlocks content = (saveBlock (scan parseComment initial before)).1.
Proof.
  intros Hin.
  destruct (scan_ends_inside _ _ _ Hin)
    as [[Hst _]|(before & fence & inside & Hl & Hf & Hi & Hb)]; [discriminate|].
  exists before, fence, inside. repeat split; auto.
  all: unfold splitIntoCodeBlocks, segment; rewrite Hl, scan_app, scan_cons.
  all: rewrite step_open by done.
  all: set (st := scan parseComment initial before) in *.
  all: set (st1 := {| blocks := blocks st; inCodeBlock := true |}).
  all: destruct (scan_inside parseComment st1 inside eq_refl Hi) as (Hb' & Hp' & Hc' & _).
  - done.
  - f_equal. by apply saveBlock_ext.
Qed.

Lemma unclosed_fence_is_discarded_witness :
  exists (before : list string) (fence : string) (inside : list string),
    Js.split LF ("// src/a/b.ts" +:+ nl +:+ "x" +:+ nl +:+ "```ts" +:+ nl +:+ "lost")
    = before ++ fence :: inside /\
    isFenceLine fence = true /\
    Forall (fun l => isFenceLine l = false) inside /\
    inCodeBlock (scan parseComment initial before) = false /\
    currentContent (scan parseComment initial
       (Js.split LF ("// src/a/b.ts" +:+ nl +:+ "x" +:+ nl +:+ "```ts" +:+ nl +:+ "lost")))
    = currentContent (scan parseComment initial before) /\
    splitIntoCodeBlocks ("// src/a/b.ts" +:+ nl +:+ "x" +:+ nl +:+ "```ts" +:+ nl +:+ "lost")
    = (saveBlock (scan parseComment initial before)).1.
Proof.
  exact (unclosed_fence_is_discarded
           ("// src/a/b.ts" +:+ nl +:+ "x" +:+ nl +:+ "```ts" +:+ nl +:+ "lost") eq_refl).
Defined.

(** The text after an unclosed fence line is lost. *)
Example unclosed_fence_example :
  splitIntoCodeBlocks ("// src/a/b.ts" +:+ nl +:+ "x" +:+ nl +:+ "```ts" +:+ nl +:+ "lost")
  = [ {| block_path := "src/a/b.ts"; block_content := "x" |} ].
Proof. vm_compute. reflexivity. Qed.

End BlockSegmenter.

(** ** The extraction coordinator *)

Module Coordinator.
Import Regex RegexFacts CodeExtractor.

Section Run.
Variable outputDir : string.

Lemma processCodeBlock_fileOf (frag : Fragment) :
  processCodeBlock outputDir frag.1 frag.2 = Some (fileOf outputDir frag).
Proof. reflexivity. Qed.

Lemma addBlocks_fragments lang acc (bs : list CodeBlock) :
  addBlocks outputDir lang acc bs
  = foldl (addFragment outputDir) acc ((fun b => (b, lang)) <$> bs).
Proof.
  unfold addBlocks. revert acc.
  induction bs as [|b bs IH]; intros acc; [done|]. simpl. by rewrite IH.
Qed.

Lemma processArtifact_fragments acc mt :
  processArtifact outputDir acc mt
  = foldl (addFragment outputDir) acc <$> artifactFragments mt.
Proof.
  unfold processArtifact, artifactFragments.
  destruct (exec_all ARTIFACT_ATTRS_REGEX (matched mt)) as [attrMatches|]; [|done].
  simpl. destruct (isCodeArtifact _); [|done].
  destruct (group 1 mt) as [artifactContent|]; [|done].
  simpl. by rewrite addBlocks_fragments.
Qed.

Lemma processArtifacts_fragments acc matches :
  processArtifacts outputDir acc matches
  = foldl (addFragment outputDir) acc <$> artifactStream matches.
Proof.
  revert acc. induction matches as [|mt matches IH]; intros acc; [done|].
  simpl. rewrite processArtifact_fragments.
  destruct (artifactFragments mt) as [frags|]; [|done].
  simpl. rewrite IH.
  destruct (artifactStream matches) as [frags'|]; [|done].
  simpl. by rewrite foldl_app.
Qed.

(** The run is the deduplication of the fragment stream. *)
Lemma extractFiles_collect content :
  extractFiles outputDir content
  = (fun stream => (collect outputDir stream).1) <$> fragmentStream content.
Proof.
  unfold extractFiles, fragmentStream, collect.
  destruct (exec_all ARTIFACT_REGEX content) as [matches|]; [|done].
  simpl. rewrite processArtifacts_fragments, addBlocks_fragments.
  destruct (artifactStream matches) as [frags|]; [|done].
  simpl. by rewrite foldl_app.
Qed.

Local Abbreviation firstOfPath := (CodeExtractor.firstOfPath outputDir).

Lemma collect_snoc stream frag :
  collect outputDir (stream ++ [frag])
  = addFragment outputDir (collect outputDir stream) frag.
Proof. unfold collect. by rewrite foldl_app. Qed.

Lemma collect_spec (stream : list Fragment) :
  (forall p, p ∈ (collect outputDir stream).2
             <-> exists frag, frag ∈ stream /\ resolvedPath outputDir frag = p) /\
  NoDup (filePath <$> (collect outputDir stream).1) /\
  (forall f, f ∈ (collect outputDir stream).1
             <-> exists i frag, firstOfPath stream i frag /\ f = fileOf outputDir frag).
Proof.
  induction stream as [|x stream (Hseen & Hnodup & Hfiles)] using rev_ind.
  - repeat split.
    + intros H. by apply elem_of_empty in H.
    + intros (frag & H & _). by apply elem_of_nil in H.
    + constructor.
    + intros H. by apply elem_of_nil in H.
    + intros (i & frag & [H _] & _). by rewrite lookup_nil in H.
  - rewrite collect_snoc. unfold addFragment. rewrite processCodeBlock_fileOf.
    unfold addFile. cbn [filePath fileOf].
    destruct (decide (resolvedPath outputDir x ∈ (collect outputDir stream).2))
      as [Hin|Hnin].
    + (* a later fragment of a path already processed is dropped *)
      repeat split.
      * intros Hp. apply Hseen in Hp as (frag & Hf & <-).
        exists frag. split; [|done]. apply elem_of_app. by left.
      * intros (frag & [Hf|Hf]%elem_of_app & <-).
        -- apply Hseen. eauto.
        -- apply list_elem_of_singleton in Hf as ->. done.
      * done.
      * intros Hf. apply Hfiles in Hf as (i & frag & [Hi Hfirst] & ->).
        exists i, frag. split; [|done]. split.
        -- by apply lookup_app_l_Some.
        -- intros j frag' Hj Hl. apply (Hfirst j frag' Hj).
           apply lookup_lt_Some in Hi.
           by rewrite lookup_app_l in Hl by lia.
      * intros (i & frag & [Hi Hfirst] & ->).
        apply Hfiles. exists i, frag. split; [|done].
        destruct (decide (i < length stream)) as [Hlt|Hge].
        -- rewrite lookup_app_l in Hi by done. split; [done|].
           intros j frag' Hj Hl. apply (Hfirst j frag' Hj).
           by rewrite lookup_app_l by lia.
        -- exfalso. rewrite lookup_app_r in Hi by lia.
           apply list_lookup_singleton_Some in Hi as [Hi0 ->].
           apply Hseen in Hin as (frag' & [j Hj]%list_elem_of_lookup & Heq).
           apply (Hfirst j frag'); [|by apply lookup_app_l_Some|done].
           apply lookup_lt_Some in Hj. lia.
    + (* the first fragment of a path gives its file *)
      cbn [fst snd]. repeat split.
      * intros [Hp%elem_of_singleton|Hp]%elem_of_union.
        -- exists x. split; [|done]. apply elem_of_app. right. by constructor.
        -- apply Hseen in Hp as (frag & Hf & <-).
           exists frag. split; [|done]. apply elem_of_app. by left.
      * intros (frag & [Hf|Hf]%elem_of_app & <-); apply elem_of_union.
        -- right. apply Hseen. eauto.
        -- apply list_elem_of_singleton in Hf as ->. left. by apply elem_of_singleton.
      * rewrite fmap_app. apply NoDup_app. repeat split; [done| |apply NoDup_singleton].
        intros p Hp Hx. apply list_elem_of_singleton in Hx as ->.
        apply list_elem_of_fmap in Hp as (f & Hp & Hf).
        apply Hfiles in Hf as (i & frag & [Hi _] & ->). cbn [filePath fileOf] in Hp.
        apply Hnin, Hseen. exists frag. split; [|done].
        apply list_elem_of_lookup. eauto.
      * intros [Hf|Hf]%elem_of_app.
        -- apply Hfiles in Hf as (i & frag & [Hi Hfirst] & ->).
           exists i, frag. split; [|done]. split.
           ++ by apply lookup_app_l_Some.
           ++ intros j frag' Hj Hl. apply (Hfirst j frag' Hj).
              apply lookup_lt_Some in Hi.
              by rewrite lookup_app_l in Hl by lia.
        -- apply list_elem_of_singleton in Hf as ->.
           exists (length stream), x. split; [|done]. split.
           ++ rewrite lookup_app_r by lia. by rewrite Nat.sub_diag.
           ++ intros j frag' Hj Hl Heq. rewrite lookup_app_l in Hl by done.
              apply Hnin, Hseen. exists frag'. split; [|done].
              apply list_elem_of_lookup. eauto.
      * intros (i & frag & [Hi Hfirst] & ->). apply elem_of_app.
        destruct (decide (i < length stream)) as [Hlt|Hge].
        -- left. apply Hfiles. exists i, frag. split; [|done].
           rewrite lookup_app_l in Hi by done. split; [done|].
           intros j frag' Hj Hl. apply (Hfirst j frag' Hj).
           by rewrite lookup_app_l by lia.
        -- right. rewrite lookup_app_r in Hi by lia.
           apply list_lookup_singleton_Some in Hi as [_ ->]. by constructor.
Qed.

(** Every fragment has a first fragment of its resolved path. *)
Lemma first_of_path_exists (stream : list Fragment) i frag :
  stream !! i = Some frag ->
  exists j first,
    j <= i /\ firstOfPath stream j first /\
    resolvedPath outputDir first = resolvedPath outputDir frag.
Proof.
  intros Hi.
  set (P := fun f : Fragment => resolvedPath outputDir f = resolvedPath outputDir frag).
  destruct (list_find P stream) as [[j first]|] eqn:E.
  - apply list_find_Some in E as (Hj & HP & Hmin).
    exists j, first. repeat split; auto.
    + destruct (decide (j <= i)) as [|Hgt]; [done|].
      exfalso. apply (Hmin i frag Hi); [lia | done].
    + intros j' frag' Hlt Hl Heq. apply (Hmin j' frag' Hl Hlt).
      unfold P. congruence.
  - exfalso. eapply list_find_None in E. rewrite Forall_forall in E.
    apply (E frag); [|done]. apply list_elem_of_lookup. eauto.
Qed.

(** *** Totality *)

Lemma artifactFragments_total mt :
  is_Some (group 1 mt) -> is_Some (artifactFragments mt).
Proof.
  intros [artifactContent Hg]. unfold artifactFragments.
  destruct (exec_all_total ARTIFACT_ATTRS_REGEX (matched mt) eq_refl) as [l ->].
  simpl. destruct (isCodeArtifact _); [|done]. rewrite Hg. done.
Qed.

Lemma artifactStream_total matches :
  Forall (fun mt => is_Some (group 1 mt)) matches -> is_Some (artifactStream matches).
Proof.
  induction 1 as [|mt matches Hmt _ [frags' IH]]; [done|].
  simpl. destruct (artifactFragments_total mt Hmt) as [frags ->].
  rewrite IH. done.
Qed.

Lemma fragmentStream_total content :
  exists artifact,
    fragmentStream content
    = Some (((fun b => (b, None)) <$> splitIntoCodeBlocks content) ++ artifact).
Proof.
  unfold fragmentStream.
  destruct (exec_all_total ARTIFACT_REGEX content eq_refl) as [matches Hm].
  rewrite Hm. simpl.
  destruct (artifactStream_total matches) as [artifact ->]; [|by exists artifact].
  apply Forall_forall. intros mt Hin.
  by apply (exec_all_captures _ _ _ _ _ Hm Hin).
Qed.

End Run.

(** C2. A run yields no two files with the same resolved path, and for
    every fragment of the run (the blocks of the direct scan first, then
    the blocks found in artifacts, each in order) the only file with the
    fragment's resolved path is the file of the first fragment with that
    resolved path, whose content is that first fragment's content. *)
Theorem first_fragment_wins (outputDir content : string) :
  exists (files : list FileMetadata) (artifact : list Fragment),
    let stream := ((fun b => (b, None)) <$> splitIntoCodeBlocks content) ++ artifact in
    extractFiles outputDir content = Some files /\
    fragmentStream content = Some stream /\
    NoDup (filePath <$> files) /\
    forall i frag, stream !! i = Some frag ->
      exists j first,
        j <= i /\ firstOfPath outputDir stream j first /\
        resolvedPath outputDir first = resolvedPath outputDir frag /\
        fileOf outputDir first ∈ files /\
        forall f, f ∈ files -> filePath f = resolvedPath outputDir frag ->
          f = fileOf outputDir first /\ CodeExtractor.content f = block_content first.1.
Proof.
  destruct (fragmentStream_total content) as [artifact Hs].
  set (stream := _ ++ artifact) in Hs.
  exists (collect outputDir stream).1, artifact. fold stream.
  destruct (collect_spec outputDir stream) as (_ & Hnodup & Hfiles).
  repeat split; auto.
  - by rewrite extractFiles_collect, Hs.
  - intros i frag Hi.
    destruct (first_of_path_exists outputDir stream i frag Hi) as (j & first & Hj & Hfirst & Heq).
    assert (Hin : fileOf outputDir first ∈ (collect outputDir stream).1).
    { apply Hfiles. eauto. }
    exists j, first. do 4 (split; [done|]).
    intros f Hf Hpath.
    apply list_elem_of_lookup in Hf as [a Ha], Hin as [b Hb].
    assert (a = b) as ->.
    { eapply NoDup_lookup; [exact Hnodup|..].
      - rewrite list_lookup_fmap, Ha. simpl. reflexivity.
      - rewrite list_lookup_fmap, Hb. simpl. congruence. }
    assert (f = fileOf outputDir first) as -> by congruence. done.
Qed.

(** The file of a fragment declared twice is the file of its first
    declaration. *)
Lemma first_fragment_wins_witness :
  exists (files : list FileMetadata) (artifact : list Fragment),
    let content :=
      "// src/a/b.ts" +:+ nl +:+ "first" +:+ nl +:+ "// src/a/b.ts" +:+ nl +:+ "second" in
    let stream := ((fun b => (b, None)) <$> splitIntoCodeBlocks content) ++ artifact in
    extractFiles "out" content = Some files /\
    fragmentStream content = Some stream /\
    NoDup (filePath <$> files) /\
    forall i frag, stream !! i = Some frag ->
      exists j first,
        j <= i /\ firstOfPath "out" stream j first /\
        resolvedPath "out" first = resolvedPath "out" frag /\
        fileOf "out" first ∈ files /\
        forall f, f ∈ files -> filePath f = resolvedPath "out" frag ->
          f = fileOf "out" first /\ CodeExtractor.content f = block_content first.1.
Proof.
  exact (first_fragment_wins "out"
           ("// src/a/b.ts" +:+ nl +:+ "first" +:+ nl +:+ "// src/a/b.ts" +:+ nl +:+ "second")).
Defined.

Example first_fragment_wins_example :
  extractFiles "out"
    ("// src/a/b.ts" +:+ nl +:+ "first" +:+ nl +:+ "// src/a/b.ts" +:+ nl +:+ "second")
  = Some [ {| language := "typescript"; fileName := "b.ts"; filePath := "out/src/a/b.ts";
              content := "first"; type := "code-block" |} ].
Proof. vm_compute. reflexivity. Qed.

(** *** Artifact filtering *)

(** The attribute object has no code type as long as no pair named [type]
    with a code type is assigned to it. *)
Lemma isCodeArtifact_setAttribute attributes am :
  isCodeArtifact attributes = false ->
  (forall v, typeValue am = Some v -> notCodeType v = true) ->
  isCodeArtifact (setAttribute attributes am) = false.
Proof.
  intros Hattr Hv. unfold setAttribute, typeValue in *.
  destruct (group 1 am) as [name|]; simpl.
  - destruct (String.eqb_spec name "type") as [Heq|Hne].
    + rewrite Heq. destruct (group 2 am) as [v|]; unfold isCodeArtifact.
      * rewrite lookup_insert_eq. specialize (Hv v eq_refl).
        unfold notCodeType in Hv. apply andb_true_iff in Hv as [H1 H2].
        apply negb_true_iff in H1, H2. by rewrite H1, H2.
      * by rewrite lookup_delete_eq.
    + destruct (group 2 am) as [v|]; unfold isCodeArtifact in *.
      * by rewrite lookup_insert_ne.
      * by rewrite lookup_delete_ne.
  - destruct (group 2 am) as [v|]; unfold isCodeArtifact in *.
    + by rewrite lookup_insert_ne.
    + by rewrite lookup_delete_ne.
Qed.

Lemma isCodeArtifact_foldl attrMatches : forall attributes,
  isCodeArtifact attributes = false ->
  Forall (fun v => notCodeType v = true) (omap typeValue attrMatches) ->
  isCodeArtifact (foldl setAttribute attributes attrMatches) = false.
Proof.
  induction attrMatches as [|am l IH]; intros attributes Hattr Hl; [done|].
  cbn [foldl]. cbn [omap list_omap] in Hl. apply IH.
  - apply isCodeArtifact_setAttribute; [done|].
    intros v Hv. rewrite Hv in Hl. by apply Forall_cons in Hl as [? _].
  - destruct (typeValue am); [by apply Forall_cons in Hl as [_ ?] | done].
Qed.

Lemma skipped_artifact (outputDir : string) (acc : Acc) (mt : MatchResult) :
  Forall (fun v => notCodeType v = true) (declaredTypes (matched mt)) ->
  artifactFragments mt = Some [] /\ processArtifact outputDir acc mt = Some acc.
Proof.
  intros Htypes. rewrite processArtifact_fragments.
  assert (Hf : artifactFragments mt = Some []); [|by rewrite Hf].
  unfold artifactFragments, declaredTypes in *.
  destruct (exec_all_total ARTIFACT_ATTRS_REGEX (matched mt) eq_refl) as [l Hl].
  rewrite Hl in *. simpl.
  by rewrite isCodeArtifact_foldl.
Qed.

Lemma skipped_artifacts (outputDir : string) (acc : Acc) (matches : list MatchResult) :
  Forall (fun mt => Forall (fun v => notCodeType v = true) (declaredTypes (matched mt)))
    matches ->
  processArtifacts outputDir acc matches = Some acc.
Proof.
  induction 1 as [|mt matches Hmt _ IH]; [done|].
  cbn [processArtifacts]. destruct (skipped_artifact outputDir acc mt Hmt) as [_ ->].
  exact IH.
Qed.

(** C3 (as the code has it). When no pair named [type] that the attribute
    pattern finds in the text of an artifact span has a value containing
    "code" or "html", the artifact loop takes no fragment from the span and
    leaves the files and the processed paths as they are. The direct scan
    reads the whole document, the text inside the spans included: when
    every span of a document is such a span, the result of the run is
    exactly the list of files that the direct scan of the whole document
    gives. *)
Theorem skipped_artifact_yields_nothing (outputDir : string) :
  (forall (acc : Acc) (mt : MatchResult),
     Forall (fun v => notCodeType v = true) (declaredTypes (matched mt)) ->
     artifactFragments mt = Some [] /\ processArtifact outputDir acc mt = Some acc) /\
  (forall (content : string) (matches : list MatchResult),
     exec_all ARTIFACT_REGEX content = Some matches ->
     Forall (fun mt =>
               Forall (fun v => notCodeType v = true) (declaredTypes (matched mt)))
       matches ->
     extractFiles outputDir content
     = Some (addBlocks outputDir None ([], ∅) (splitIntoCodeBlocks content)).1).
Proof.
  split.
  - apply skipped_artifact.
  - intros content matches Hm Hskip. unfold extractFiles.
    rewrite Hm. cbn [mbind option_bind]. by rewrite skipped_artifacts.
Qed.

Lemma skipped_artifact_yields_nothing_witness :
  (artifactFragments Samples.markdownMatch = Some [] /\
   processArtifact "out" ([], ∅) Samples.markdownMatch = Some ([], ∅)) /\
  extractFiles "out" Samples.markdownArtifact
  = Some (addBlocks "out" None ([], ∅)
            (splitIntoCodeBlocks Samples.markdownArtifact)).1.
Proof.
  split.
  - apply (proj1 (skipped_artifact_yields_nothing "out") ([], ∅) Samples.markdownMatch).
    vm_compute. repeat constructor.
  - refine (proj2 (skipped_artifact_yields_nothing "out") Samples.markdownArtifact
              [Samples.markdownMatch] _ _).
    + vm_compute. reflexivity.
    + repeat constructor.
Defined.

(** A document made of one artifact span of type text/markdown: the
    artifact pattern finds the span, its only type value is text/markdown,
    and the run still yields a file, taken by the direct scan from the path
    comment and the fenced block inside the span. *)
Lemma markdown_artifact_is_extracted :
  exec_all ARTIFACT_REGEX Samples.markdownArtifact = Some [Samples.markdownMatch] /\
  declaredTypes (matched Samples.markdownMatch) = ["text/markdown"] /\
  extractFiles "out" Samples.markdownArtifact
  = Some [ {| language := "typescript"; fileName := "b.ts";
              filePath := "out/src/a/b.ts";
              content := "x" +:+ nl +:+ nl +:+ "</antArtifact>";
              type := "code-block" |} ].
Proof. repeat split; vm_compute; reflexivity. Qed.

(** The attribute pattern runs over the whole text of the span: a pair
    named type inside the inner text replaces the one of the opening tag. *)
Example inner_type_pair_replaces_tag :
  exec_all ARTIFACT_REGEX Samples.shadowedArtifact = Some [Samples.shadowedMatch] /\
  declaredTypes (matched Samples.shadowedMatch) = ["text/markdown"; "code"] /\
  artifactFragments Samples.shadowedMatch
  = Some [ ({| block_path := "src/a/b.ts";
               block_content := "type=" +:+ dq +:+ "code" +:+ dq |}, Some "txt") ].
Proof. repeat split; vm_compute; reflexivity. Qed.

(** *** End to end *)

Lemma fileDirective_stream :
  fragmentStream Samples.fileDirective
  = Some [ ({| block_path := "utils/x.py"; block_content := "def f(): pass" |}, None) ].
Proof. vm_compute. reflexivity. Qed.

(** C5. For the document made of the directive line [// @file utils/x.py]
    and a fenced block holding the line [def f(): pass], the run yields
    exactly one file: its path is the output directory joined with
    utils/x.py, its language python and its content the line of the
    block. *)
Theorem file_directive_end_to_end (outputDir : string) :
  extractFiles outputDir Samples.fileDirective
  = Some [ {| language := "python";
              fileName := NodePath.basename (NodePath.join outputDir "utils/x.py");
              filePath := NodePath.join outputDir "utils/x.py";
              content := "def f(): pass";
              type := "code-block" |} ].
Proof.
  rewrite extractFiles_collect, fileDirective_stream. reflexivity.
Qed.

(** With the default output directory, and with a language tag on the
    fence and a final newline. *)
Example file_directive_default_directory :
  extractFiles "./extracted" Samples.fileDirective
  = Some [ {| language := "python"; fileName := "x.py";
              filePath := "extracted/utils/x.py";
              content := "def f(): pass"; type := "code-block" |} ] /\
  extractFiles "./extracted" Samples.fileDirectiveTagged
  = Some [ {| language := "python"; fileName := "x.py";
              filePath := "extracted/utils/x.py";
              content := "def f(): pass"; type := "code-block" |} ].
Proof. split; vm_compute; reflexivity. Qed.

(** *** Totality *)

(** C9. A run returns a list of files for every document and output
    directory: no loop over matches runs for ever and no method is called
    on an undefined value. A line classified as a path declaration always
    carries a path, one that the validator has accepted; so where the
    segmenter takes the path of a classification as a string, outside a
    fence and on a line classified as a path declaration, the current path
    becomes that string. *)
Theorem extraction_never_fails (outputDir content : string) :
  (exists files, extractFiles outputDir content = Some files) /\
  (forall line, isPath (parseComment line) = true ->
     exists p, path (parseComment line) = Some p /\ isValidPath p = true) /\
  (forall st line,
     inCodeBlock st = false -> isFenceLine line = false ->
     isPath (parseComment line) = true ->
     exists p, currentPath (step parseComment st line) = Some p /\
               isValidPath p = true).
Proof.
  split; [|split].
  - destruct (fragmentStream_total content) as [artifact Hs].
    rewrite extractFiles_collect, Hs. simpl. eauto.
  - apply CommentClassifier.parseComment_isPath.
  - intros st line Hin Hf Hp. unfold step. rewrite Hf, Hin, Hp.
    destruct (CommentClassifier.parseComment_isPath line Hp) as (p & Hpath & Hv).
    destruct (saveBlock st) as [blocks' saved]. simpl. eauto.
Qed.

Lemma extraction_never_fails_witness :
  exists p, path (parseComment "// src/a/b.ts: entry point") = Some p /\
            isValidPath p = true.
Proof.
  exact (proj1 (proj2 (extraction_never_fails "out" ""))
           "// src/a/b.ts: entry point" eq_refl).
Defined.

(** Unsafe paths, unrecognised lines and artifacts without a usable type
    give no file. *)
Example malformed_input_gives_no_file :
  extractFiles "out" ("// ../../etc/passwd" +:+ nl +:+ "```" +:+ nl +:+ "x" +:+ nl +:+ "```")
  = Some [] /\
  extractFiles "out" ("<antArtifact type=" +:+ dq +:+ "code>x</antArtifact>") = Some [] /\
  extractFiles "out" "```" = Some [].
Proof. repeat split; vm_compute; reflexivity. Qed.

End Coordinator.

(** ** More on the comment classifier *)

Module ClassifierProperties.
Import Regex RegexFacts CodeExtractor.

Lemma trimStart_blank_app ws s :
  Js.all Js.isWhiteSpace ws = true -> Js.trimStart (ws +:+ s) = Js.trimStart s.
Proof.
  induction ws as [|c ws IH]; [done|]. rewrite JsFacts.app_cons. simpl.
  intros [-> Hws]%andb_true_iff. by apply IH.
Qed.

Lemma trimEnd_blank ws : Js.all Js.isWhiteSpace ws = true -> Js.trimEnd ws = "".
Proof.
  induction ws as [|c ws IH]; [done|]. simpl.
  intros [Hc Hws]%andb_true_iff. by rewrite IH, Hc.
Qed.

Lemma trimEnd_app_blank s ws :
  Js.all Js.isWhiteSpace ws = true -> Js.trimEnd (s +:+ ws) = Js.trimEnd s.
Proof.
  intros Hws. induction s as [|c s IH].
  - rewrite JsFacts.app_nil_l. by apply trimEnd_blank.
  - rewrite JsFacts.app_cons. simpl. by rewrite IH.
Qed.

Lemma trimStart_app_blank s ws :
  Js.all Js.isWhiteSpace ws = true ->
  Js.trimEnd (Js.trimStart (s +:+ ws)) = Js.trimEnd (Js.trimStart s).
Proof.
  intros Hws. induction s as [|c s IH].
  - rewrite JsFacts.app_nil_l. simpl.
    rewrite <- (JsFacts.app_nil_r ws), trimStart_blank_app by done. done.
  - rewrite JsFacts.app_cons. simpl. destruct (Js.isWhiteSpace c); [done|].
    rewrite <- JsFacts.app_cons. by apply trimEnd_app_blank.
Qed.

(** [trim] removes any white space put around a string. *)
Lemma trim_around before s after :
  Js.all Js.isWhiteSpace before = true -> Js.all Js.isWhiteSpace after = true ->
  Js.trim (before +:+ s +:+ after) = Js.trim s.
Proof.
  intros Hb Ha. unfold Js.trim.
  rewrite trimStart_blank_app by done. by apply trimStart_app_blank.
Qed.

(** X1. Indentation and trailing white space do not change what a line is:
    a line with white space put before and after it is classified like the
    line itself, and is a fence line exactly when the line is one. *)
Theorem classification_ignores_surrounding_space (before line after : string) :
  Js.all Js.isWhiteSpace before = true ->
  Js.all Js.isWhiteSpace after = true ->
  parseComment (before +:+ line +:+ after) = parseComment line /\
  isFenceLine (before +:+ line +:+ after) = isFenceLine line.
Proof.
  intros Hb Ha. unfold parseComment, isFenceLine.
  by rewrite trim_around.
Qed.

Lemma classification_ignores_surrounding_space_witness :
  parseComment ("    " +:+ "// src/a/b.ts: entry" +:+ "  ")
  = parseComment "// src/a/b.ts: entry".
Proof.
  exact (proj1 (classification_ignores_surrounding_space
                  "    " "// src/a/b.ts: entry" "  " eq_refl eq_refl)).
Defined.

Lemma tryPatterns_None_inv patterns line :
  tryPatterns patterns line = None ->
  Forall (fun q => matchesValidPath q line = false) patterns.
Proof.
  induction patterns as [|q patterns IH]; [constructor|].
  simpl. intros H.
  assert (matchesValidPath q line = false /\ tryPatterns patterns line = None)
    as [Hq Hrest].
  { unfold matchesValidPath.
    destruct (exec q line) as [mt|]; [|done].
    destruct (group 1 mt) as [p|]; [|done].
    by destruct (isValidPath p). }
  constructor; auto.
Qed.

Lemma tryPatterns_Some_matches patterns line parsed :
  tryPatterns patterns line = Some parsed ->
  exists q, q ∈ patterns /\ is_Some (exec q line).
Proof.
  induction patterns as [|q patterns IH]; simpl; [discriminate|].
  destruct (exec q line) as [mt|] eqn:E.
  - intros _. exists q. split; [by constructor | done].
  - intros H. destruct (IH H) as (q' & Hin & Hm).
    exists q'. split; [by constructor | done].
Qed.

(** A pattern of the classifier that matches, matches with a valid path. *)
Lemma match_is_valid q line :
  q ∈ PATH_PATTERNS -> is_Some (exec q line) -> matchesValidPath q line = true.
Proof.
  intros Hq [mt He]. unfold matchesValidPath. rewrite He.
  assert (Hc : captures 1 q = true).
  { unfold PATH_PATTERNS in Hq.
    repeat (apply elem_of_cons in Hq as [->|Hq]); [done..|].
    by apply elem_of_nil in Hq. }
  destruct (exec_from_captures _ _ _ _ 1 He Hc) as [p Hp]. rewrite Hp.
  eapply CommentClassifier.captured_path_is_valid; eauto.
Qed.

(** X2. A line is classified as a path declaration exactly when its trimmed
    text begins with the comment marker and one of the three patterns
    matches it: the validation of the captured path never turns a match
    down. *)
Theorem isPath_iff_pattern_matches (line : string) :
  isPath (parseComment line) = true
  <-> Js.startsWith "//" (Js.trim line) = true /\
      exists q, q ∈ PATH_PATTERNS /\ is_Some (exec q (Js.trim line)).
Proof.
  unfold parseComment. destruct (Js.startsWith "//" (Js.trim line)) eqn:Hm; cbn [negb].
  - destruct (tryPatterns PATH_PATTERNS (Js.trim line)) as [parsed|] eqn:E.
    + destruct (CommentClassifier.tryPatterns_Some _ _ _ E) as [Hp _].
      split; [|done]. intros _. split; [done|].
      by eapply tryPatterns_Some_matches.
    + cbn [isPath]. split; [discriminate|]. intros [_ (q & Hq & Hmatch)].
      apply tryPatterns_None_inv in E. rewrite Forall_forall in E.
      specialize (E q Hq). by rewrite match_is_valid in E.
  - split; [discriminate|]. by intros [? _].
Qed.

End ClassifierProperties.

(** ** More on the block segmenter *)

Module SegmenterProperties.
Import Regex CodeExtractor Views BlockSegmenter.

(** The paths a state holds: those of the completed blocks, then the
    current one. *)
Local Abbreviation heldPaths st :=
  ((block_path <$> blocks st) ++ option_list (currentPath st)).

Lemma saveBlock_paths st :
  (block_path <$> (saveBlock st).1) `sublist_of` heldPaths st.
Proof.
  unfold saveBlock. destruct (currentPath st) as [p|]; simpl.
  - destruct (Js.truthy p && _); simpl.
    + by rewrite fmap_app.
    + by apply sublist_inserts_r.
  - by rewrite app_nil_r.
Qed.

Lemma step_paths st line seen :
  heldPaths st `sublist_of` seen ->
  heldPaths (step parseComment st line) `sublist_of` seen ++ option_list (declaredPath line).
Proof.
  intros Hst. unfold step, declaredPath.
  destruct (isFenceLine line).
  { destruct (inCodeBlock st); simpl; by apply sublist_inserts_r. }
  destruct (inCodeBlock st); [by apply sublist_inserts_r|].
  destruct (isPath (parseComment line)).
  - pose proof (saveBlock_paths st) as Hs.
    destruct (saveBlock st) as [blocks' saved]. simpl in *.
    apply sublist_app; [|done]. by etrans.
  - destruct (Js.truthy_opt (currentPath st)); simpl; by apply sublist_inserts_r.
Qed.

Lemma scan_paths lines : forall st seen,
  heldPaths st `sublist_of` seen ->
  heldPaths (scan parseComment st lines) `sublist_of` seen ++ omap declaredPath lines.
Proof.
  induction lines as [|l lines IH]; intros st seen Hst.
  - simpl. by rewrite app_nil_r.
  - rewrite scan_cons. cbn [omap list_omap].
    specialize (IH _ _ (step_paths st l seen Hst)).
    destruct (declaredPath l); simpl in *; [by rewrite <- app_assoc in IH|].
    by rewrite app_nil_r in IH.
Qed.

(** X3. The paths of the blocks of the output are, in order, paths declared
    by lines of the input, each declaring line giving at most one block: the
    list of block paths is a sublist of the list of the paths that the lines
    of the input declare. In particular an input none of whose lines
    declares a path gives no block, whatever fenced code it holds. *)
Theorem block_paths_are_declared_in_order (content : string) :
  (block_path <$> splitIntoCodeBlocks content)
    `sublist_of` omap declaredPath (Js.split LF content)
  /\ length (splitIntoCodeBlocks content)
     <= length (omap declaredPath (Js.split LF content))
  /\ (omap declaredPath (Js.split LF content) = [] -> splitIntoCodeBlocks content = []).
Proof.
  assert (H : (block_path <$> splitIntoCodeBlocks content)
                `sublist_of` omap declaredPath (Js.split LF content)).
  { unfold splitIntoCodeBlocks, segment.
    etrans; [apply saveBlock_paths|].
    apply (scan_paths _ initial []). done. }
  split; [done|]. split.
  - apply sublist_length in H. by rewrite length_fmap in H.
  - intros Hnone. rewrite Hnone in H. apply sublist_nil_r in H.
    by apply fmap_nil_inv in H.
Qed.

Lemma block_paths_are_declared_in_order_witness :
  splitIntoCodeBlocks ("intro" +:+ nl +:+ "```" +:+ nl +:+ "code" +:+ nl +:+ "```") = [].
Proof.
  apply (proj2 (proj2 (block_paths_are_declared_in_order
           ("intro" +:+ nl +:+ "```" +:+ nl +:+ "code" +:+ nl +:+ "```")))).
  reflexivity.
Defined.

(** The lines of a fence reach the buffer raw, in order, each followed by a
    newline. *)
Lemma scan_inside_buffer classify lines : forall st,
  inCodeBlock st = true ->
  Forall (fun l => isFenceLine l = false) lines ->
  scan classify st lines
  = {| blocks := blocks st; currentPath := currentPath st;
       currentContent := currentContent st; inCodeBlock := true;
       codeBlockContent := codeBlockContent st +:+ fencedText lines |}.
Proof.
  induction lines as [|l lines IH]; intros st Hin Hl.
  - simpl. rewrite JsFacts.app_nil_r. destruct st; simpl in *. by subst.
  - apply Forall_cons in Hl as [Hf Hl].
    rewrite scan_cons, step_inside by done. rewrite IH by done. simpl.
    by rewrite !JsFacts.app_assoc.
Qed.

(** Outside a fence the fenced buffer is empty. *)
Lemma buffer_empty_outside classify lines :
  let st := scan classify initial lines in
  inCodeBlock st = false -> codeBlockContent st = "".
Proof.
  induction lines as [|l lines IH] using rev_ind; [done|].
  rewrite scan_app. simpl. unfold step.
  destruct (isFenceLine l).
  - by destruct (inCodeBlock (scan classify initial lines)).
  - destruct (inCodeBlock (scan classify initial lines)) eqn:Hin; [done|].
    specialize (IH Hin). simpl in IH.
    destruct (isPath (classify l)).
    + by destruct (saveBlock _).
    + by destruct (Js.truthy_opt _).
Qed.

(** X4. A fenced block met outside any fence, opened and closed by fence
    lines with no fence line between them, adds exactly one entry to the
    accumulator of the current path: its lines, raw and in order, each
    followed by a newline; nothing else changes. With no current path the
    block is dropped. The lines inside are never classified. *)
Theorem fenced_block_is_one_raw_entry
    (classify : string -> ParsedComment)
    (before : list string) (open : string) (body : list string) (close : string) :
  let st := scan classify initial before in
  inCodeBlock st = false ->
  isFenceLine open = true -> isFenceLine close = true ->
  Forall (fun l => isFenceLine l = false) body ->
  scan classify initial (before ++ open :: body ++ [close])
  = {| blocks := blocks st; currentPath := currentPath st;
       currentContent :=
         if Js.truthy_opt (currentPath st)
         then currentContent st ++ [fencedText body]
         else currentContent st;
       inCodeBlock := false; codeBlockContent := "" |}.
Proof.
  intros st Hout Hopen Hclose Hbody.
  pose proof (buffer_empty_outside classify before Hout) as Hbuf. fold st in Hbuf.
  rewrite scan_app. fold st. rewrite scan_cons, step_open by done.
  rewrite scan_app, (scan_inside_buffer classify body) by done.
  simpl. unfold step. rewrite Hclose. simpl. by rewrite Hbuf.
Qed.

Lemma fenced_block_is_one_raw_entry_witness :
  scan parseComment initial
    (["// src/a/b.ts"] ++ "```ts" :: ["  // src/c/d.ts"; "x"] ++ ["```"])
  = {| blocks := []; currentPath := Some "src/a/b.ts";
       currentContent := ["  // src/c/d.ts" +:+ nl +:+ "x" +:+ nl];
       inCodeBlock := false; codeBlockContent := "" |}.
Proof.
  refine (fenced_block_is_one_raw_entry parseComment
            ["// src/a/b.ts"] "```ts" ["  // src/c/d.ts"; "x"] "```"
            eq_refl eq_refl eq_refl _).
  repeat constructor.
Defined.

End SegmenterProperties.

(** ** More on the extraction coordinator *)

Module RunProperties.
Import Regex RegexFacts CodeExtractor Coordinator.

Local Abbreviation validFragment :=
  (fun frag : Fragment => isValidPath (block_path frag.1) = true).

Lemma artifactFragments_valid mt frags :
  artifactFragments mt = Some frags -> Forall validFragment frags.
Proof.
  unfold artifactFragments.
  destruct (exec_all ARTIFACT_ATTRS_REGEX (matched mt)) as [l|]; [|discriminate].
  simpl. destruct (isCodeArtifact _); [|by intros [= <-]].
  destruct (group 1 mt) as [inner|]; [|discriminate]. simpl. intros [= <-].
  apply Forall_fmap. eapply Forall_impl; [apply BlockSegmenter.emitted_paths_are_valid|].
  done.
Qed.

Lemma artifactStream_valid matches : forall frags,
  artifactStream matches = Some frags -> Forall validFragment frags.
Proof.
  induction matches as [|mt matches IH]; intros frags; simpl.
  - by intros [= <-].
  - destruct (artifactFragments mt) as [f1|] eqn:E1; [|discriminate]. simpl.
    destruct (artifactStream matches) as [f2|]; [|discriminate]. simpl.
    intros [= <-]. apply Forall_app. split; [by eapply artifactFragments_valid | by apply IH].
Qed.

Lemma fragmentStream_valid content stream :
  fragmentStream content = Some stream -> Forall validFragment stream.
Proof.
  unfold fragmentStream.
  destruct (exec_all ARTIFACT_REGEX content) as [matches|]; [|discriminate]. simpl.
  destruct (artifactStream matches) as [artifact|] eqn:E; [|discriminate]. simpl.
  intros [= <-]. apply Forall_app. split; [|by eapply artifactStream_valid].
  apply Forall_fmap. eapply Forall_impl; [apply BlockSegmenter.emitted_paths_are_valid|].
  done.
Qed.

(** X5. Every file of a run is the output directory joined with a path that
    the validator has accepted (so one without two dots in a row, without a
    leading slash and without a backslash); its name is the base name of
    its path and its type is code-block. *)
Theorem files_have_validated_paths (outputDir content : string) :
  exists files,
    extractFiles outputDir content = Some files /\
    Forall (fun f =>
              exists p, isValidPath p = true /\
                        Js.includes ".." p = false /\
                        Js.startsWith "/" p = false /\
                        Js.includes "\" p = false /\
                        filePath f = NodePath.join outputDir p /\
                        fileName f = NodePath.basename (filePath f) /\
                        type f = "code-block")
           files.
Proof.
  destruct (fragmentStream_total content) as [artifact Hs].
  set (stream := _ ++ artifact) in Hs.
  exists (collect outputDir stream).1. split.
  - by rewrite extractFiles_collect, Hs.
  - apply Forall_forall. intros f Hf.
    destruct (collect_spec outputDir stream) as (_ & _ & Hfiles).
    apply Hfiles in Hf as (i & frag & [Hi _] & ->).
    pose proof (fragmentStream_valid _ _ Hs) as Hvalid.
    rewrite Forall_forall in Hvalid.
    assert (Hv : isValidPath (block_path frag.1) = true).
    { apply Hvalid. apply list_elem_of_lookup. eauto. }
    exists (block_path frag.1).
    destruct (PathValidator.path_shape_safe _
                (proj1 (PathValidator.isValidPath_iff_shape _) Hv)) as (? & ? & ?).
    repeat split; auto.
Qed.

Lemma addFile_extends acc fileInfo : exists extra, (addFile acc fileInfo).1 = acc.1 ++ extra.
Proof.
  unfold addFile. destruct fileInfo as [f|]; [|by exists []; rewrite app_nil_r].
  destruct (decide _); [by exists []; rewrite app_nil_r | by exists [f]].
Qed.

Lemma foldl_addFragment_extends outputDir frags : forall acc,
  exists extra, (foldl (addFragment outputDir) acc frags).1 = acc.1 ++ extra.
Proof.
  induction frags as [|frag frags IH]; intros acc; simpl.
  - exists []. by rewrite app_nil_r.
  - destruct (IH (addFragment outputDir acc frag)) as [e2 ->].
    destruct (addFile_extends acc (processCodeBlock outputDir frag.1 frag.2)) as [e1 He1].
    unfold addFragment. rewrite He1. exists (e1 ++ e2). by rewrite app_assoc.
Qed.

(** X6. The files of the direct scan come first and the artifact loop only
    appends to them: the result of a run is the list of files the loop over
    the direct blocks has built, followed by the files added for artifacts.
    No artifact removes, replaces or reorders a file of the direct scan. *)
Theorem artifacts_only_append (outputDir content : string) :
  exists files extra,
    extractFiles outputDir content = Some files /\
    files = (addBlocks outputDir None ([], ∅) (splitIntoCodeBlocks content)).1 ++ extra.
Proof.
  destruct (fragmentStream_total content) as [artifact Hs].
  unfold fragmentStream in Hs. unfold extractFiles.
  destruct (exec_all ARTIFACT_REGEX content) as [matches|]; [|discriminate].
  simpl in *. rewrite processArtifacts_fragments.
  destruct (artifactStream matches) as [frags|]; [|discriminate]. simpl.
  destruct (foldl_addFragment_extends outputDir frags
              (addBlocks outputDir None ([], ∅) (splitIntoCodeBlocks content)))
    as [extra He].
  eauto.
Qed.




(** A Python file inside an artifact without language attribute or marker
    is recorded as txt. *)
Example artifact_file_is_txt :
  language <$> processCodeBlock "out"
                 {| block_path := "src/a/b.py"; block_content := "x = 1" |}
                 (Some (artifactLanguage ∅ "x = 1"))
  = Some "txt".
Proof. vm_compute. reflexivity. Qed.

End RunProperties.

(** ** The language detector *)

Module LanguageDetector.
Import CodeExtractor.

Lemma lastDot_dot s t b : NodePath.lastDot s = Some (t, b) -> exists e, t = String "." e.
Proof.
  revert t b. induction s as [|c s IH]; intros t b; simpl; [discriminate|].
  destruct (NodePath.lastDot s) as [[t' b']|].
  - intros [= <- <-]. by eapply IH.
  - destruct (Ascii.eqb_spec c ".") as [->|_]; [|discriminate].
    intros [= <- <-]. eauto.
Qed.

(** The extension is empty or begins with a dot. *)
Lemma extname_dot p : NodePath.extname p = "" \/ exists e, NodePath.extname p = String "." e.
Proof.
  unfold NodePath.extname.
  destruct (NodePath.lastDot _) as [[t [|]]|] eqn:E; auto.
  destruct (String.eqb _ ".."); auto.
  right. by eapply lastDot_dot.
Qed.

Lemma findLanguage_first entries ext :
  (findLanguage entries ext = "txt" /\
   forall lang, (lang, "." +:+ ext) ∉ entries)
  \/ exists pre post,
       entries = pre ++ (findLanguage entries ext, "." +:+ ext) :: post /\
       forall lang, (lang, "." +:+ ext) ∉ pre.
Proof.
  induction entries as [|[lang langExt] entries IH]; simpl.
  - left. split; [done|]. intros lang H. by apply elem_of_nil in H.
  - destruct (String.eqb_spec langExt ("." +:+ ext)) as [->|Hne].
    + right. exists [], entries. split; [done|]. intros l H. by apply elem_of_nil in H.
    + destruct IH as [[Htxt Hnone]|(pre & post & Heq & Hpre)].
      * left. split; [done|]. intros l [H|H]%elem_of_cons; [congruence|].
        by apply (Hnone l).
      * right. exists ((lang, langExt) :: pre), post. split.
        -- simpl. by rewrite <- Heq.
        -- intros l [H|H]%elem_of_cons; [congruence|]. by apply (Hpre l).
Qed.

(** X8. The language detected from a path is the language of the first
    entry of the table whose extension is the extension of the path, and txt
    when the table has no such entry. So of the languages sharing an
    extension only the first is ever detected: c++, bash and zsh never
    are. *)
Theorem detectLanguageFromPath_first_entry (p : string) :
  ((detectLanguageFromPath p = "txt" /\
    forall lang, (lang, NodePath.extname p) ∉ LANGUAGE_EXTENSIONS)
   \/ exists pre post,
        LANGUAGE_EXTENSIONS
        = pre ++ (detectLanguageFromPath p, NodePath.extname p) :: post /\
        forall lang, (lang, NodePath.extname p) ∉ pre)
  /\ detectLanguageFromPath p <> "c++"
  /\ detectLanguageFromPath p <> "bash"
  /\ detectLanguageFromPath p <> "zsh".
Proof.
  split.
  - unfold detectLanguageFromPath.
    destruct (extname_dot p) as [He|[e He]]; rewrite He.
    + left. split; [reflexivity|].
      intros lang H. unfold LANGUAGE_EXTENSIONS in H.
      repeat (apply elem_of_cons in H as [[= ]|H]). by apply elem_of_nil in H.
    + simpl Js.slice. apply findLanguage_first.
  - unfold detectLanguageFromPath, LANGUAGE_EXTENSIONS. cbn [findLanguage].
    generalize ("." +:+ Js.slice 1 (NodePath.extname p)). intros x.
    repeat (match goal with
            | |- context [String.eqb ?a x] => destruct (String.eqb_spec a x); subst
            end); repeat split; congruence.
Qed.

(** *** The language of a validated path *)

Lemma split_snoc sep s : exists l x, Js.split sep s = l ++ [x].
Proof.
  pose proof (JsFacts.split_nonempty sep s) as H.
  destruct (Js.split sep s) as [|y l] using rev_ind; [done|]. eauto.
Qed.

(** Appending text without separator extends the last piece. *)
Lemma split_app_last sep s t l x :
  Js.split sep s = l ++ [x] -> Js.count sep t = 0 ->
  Js.split sep (s +:+ t) = l ++ [x +:+ t].
Proof.
  intros Hs Ht. revert l x Hs. induction s as [|c s IH]; intros l x Hs.
  - simpl in Hs. destruct l as [|? [|]]; simplify_eq/=.
    rewrite JsFacts.app_nil_l. clear -Ht.
    induction t as [|c t IH]; [done|]. simpl in *.
    rewrite (Ascii.eqb_sym sep c) in Ht. destruct (Ascii.eqb c sep); [lia|].
    rewrite IH by lia. done.
  - rewrite JsFacts.app_cons. simpl in *.
    destruct (split_snoc sep s) as (l' & x' & Hs').
    rewrite (IH _ _ Hs'). rewrite Hs' in Hs.
    destruct (Ascii.eqb c sep).
    + rewrite app_comm_cons in Hs. apply app_inj_tail in Hs as [<- <-]. done.
    + destruct l' as [|y l']; simpl in *.
      * destruct l as [|? [|]]; simplify_eq/=. done.
      * rewrite app_comm_cons in Hs. apply app_inj_tail in Hs as [<- <-]. done.
Qed.

Lemma all_split p sep s :
  Js.all p s = true -> Forall (fun x => Js.all p x = true) (Js.split sep s).
Proof.
  induction s as [|c s IH]; simpl; [by repeat constructor|].
  intros [Hc Hs]%andb_true_iff. specialize (IH Hs).
  destruct (Ascii.eqb c sep); [by constructor|].
  pose proof (JsFacts.split_nonempty sep s).
  destruct (Js.split sep s) as [|x l]; [done|].
  apply Forall_cons in IH as [Hx Hl]. constructor; [|done]. simpl. by rewrite Hc.
Qed.

Lemma lastDot_none s : Js.count "." s = 0 -> NodePath.lastDot s = None.
Proof.
  induction s as [|c s IH]; [done|]. cbn [Js.count NodePath.lastDot].
  rewrite (Ascii.eqb_sym "." c). destruct (Ascii.eqb c "."); [lia|].
  intros H. by rewrite IH.
Qed.

Lemma lastDot_single x e :
  Js.count "." x = 0 -> Js.count "." e = 0 ->
  NodePath.lastDot (x +:+ String "." e)
  = Some (String "." e, negb (Js.truthy x)).
Proof.
  intros Hx He. induction x as [|c x IH].
  - rewrite JsFacts.app_nil_l. cbn [NodePath.lastDot]. by rewrite lastDot_none.
  - rewrite JsFacts.app_cons. cbn [NodePath.lastDot Js.count] in *.
    rewrite (Ascii.eqb_sym "." c) in Hx. destruct (Ascii.eqb c "."); [lia|].
    rewrite IH by lia. done.
Qed.

(** X9. For a path of the validator's shape, a run of word characters and
    hyphens, a slash, a run of word characters, hyphens and slashes, a dot
    and an extension of word characters, the language detected is the one
    the table gives for the extension, the first entry with it or txt;
    except when a slash comes right before the dot, where the base name
    begins with the dot, the extension counts as absent and the language is
    txt. *)
Theorem language_of_valid_path (a b e : string) :
  a <> "" -> b <> "" -> e <> "" ->
  Js.all isWordOrHyphen a = true ->
  Js.all isWordSlashOrHyphen b = true ->
  Js.all Js.isWordChar e = true ->
  detectLanguageFromPath (a +:+ "/" +:+ b +:+ "." +:+ e)
  = if NodePath.endsWithSlash b then "txt" else findLanguage LANGUAGE_EXTENSIONS e.
Proof.
  intros Ha Hb He Ha' Hb' He'.
  destruct (split_snoc "/" b) as (l & x & Hsplit).
  assert (Hx : Js.all isWordSlashOrHyphen x = true).
  { pose proof (all_split _ "/" _ Hb') as H. rewrite Hsplit in H.
    by apply Forall_app in H as [_ [? _]%Forall_cons]. }
  assert (Hxdot : Js.count "." x = 0) by (by eapply JsFacts.count_all).
  assert (Hedot : Js.count "." e = 0) by (by eapply JsFacts.count_all).
  assert (Heslash : Js.count "/" (String "." e) = 0).
  { simpl. by rewrite (JsFacts.count_all "/" _ e He'). }
  assert (Hbase : NodePath.basename (a +:+ "/" +:+ b +:+ "." +:+ e) = x +:+ String "." e).
  { unfold NodePath.basename.
    change (a +:+ "/" +:+ b +:+ "." +:+ e) with (a +:+ String "/" (b +:+ String "." e)).
    rewrite JsFacts.split_app, (split_app_last "/" b _ l x Hsplit Heslash).
    rewrite app_assoc, filter_app, last_app.
    rewrite filter_cons_True by (by destruct x). done. }
  assert (Hends : NodePath.endsWithSlash b = negb (Js.truthy x)).
  { unfold NodePath.endsWithSlash. rewrite Hsplit, last_snoc.
    destruct x; simpl; [by destruct b | done]. }
  unfold detectLanguageFromPath, NodePath.extname.
  rewrite Hbase, lastDot_single, Hends by done.
  destruct x as [|c x]; simpl negb; cbv iota; [reflexivity|].
  assert (String.eqb (String c x +:+ String "." e) ".." = false) as ->.
  { apply String.eqb_neq. rewrite JsFacts.app_cons. intros [= -> Hrest].
    simpl in Hxdot. lia. }
  reflexivity.
Qed.

Lemma language_of_valid_path_witness :
  detectLanguageFromPath ("src" +:+ "/" +:+ "utils/" +:+ "." +:+ "ts") = "txt" /\
  detectLanguageFromPath ("src" +:+ "/" +:+ "utils/x" +:+ "." +:+ "sh") = "shell".
Proof.
  split.
  - exact (language_of_valid_path "src" "utils/" "ts"
             ltac:(discriminate) ltac:(discriminate) ltac:(discriminate)
             eq_refl eq_refl eq_refl).
  - exact (language_of_valid_path "src" "utils/x" "sh"
             ltac:(discriminate) ltac:(discriminate) ltac:(discriminate)
             eq_refl eq_refl eq_refl).
Defined.

End LanguageDetector.

(** ** The driver *)

Module DriverFacts.
Import CodeExtractor Driver.

(** *** Execution *)

Lemma exec_prefix {A} (p : Prog A) : forall env hist,
  exists new, (exec env hist p).1 = hist ++ new.
Proof.
  induction p as [a|c k IH|code]; intros env hist; simpl.
  - exists []. by rewrite app_nil_r.
  - destruct (IH (env hist c) env (hist ++ [(c, env hist c)])) as [new ->].
    eexists. by rewrite <- app_assoc.
  - exists []. by rewrite app_nil_r.
Qed.

Lemma exec_extends {A} (p : Prog A) env hist :
  (exec env hist p).1 = hist ++ events env hist p.
Proof.
  unfold events. destruct (exec_prefix p env hist) as [new ->].
  by rewrite drop_app_length.
Qed.

Lemma events_Do {A} env hist c (k : Answer -> Prog A) :
  events env hist (Do c k)
  = (c, env hist c) :: events env (hist ++ [(c, env hist c)]) (k (env hist c)).
Proof.
  unfold events at 1. simpl. rewrite exec_extends, <- app_assoc.
  by rewrite drop_app_length.
Qed.

Lemma events_Ret {A} env hist (a : A) : events env hist (Ret a) = [].
Proof. unfold events. simpl. by rewrite drop_all. Qed.

Lemma events_Halt {A} env hist code : events env hist (Halt code : Prog A) = [].
Proof. unfold events. simpl. by rewrite drop_all. Qed.

Lemma outcome_Do {A} env hist c (k : Answer -> Prog A) :
  (exec env hist (Do c k)).2
  = (exec env (hist ++ [(c, env hist c)]) (k (env hist c))).2.
Proof. reflexivity. Qed.

Lemma exec_bind {A B} (p : Prog A) (f : A -> Prog B) : forall env hist,
  exec env hist (bind p f)
  = match (exec env hist p).2 with
    | Returned a => exec env (exec env hist p).1 (f a)
    | Exited code => ((exec env hist p).1, Exited code)
    end.
Proof.
  induction p as [a|c k IH|code]; intros env hist; simpl; [done| |done].
  apply IH.
Qed.

Lemma events_bind {A B} (p : Prog A) (f : A -> Prog B) env hist :
  events env hist (bind p f)
  = events env hist p ++
    match (exec env hist p).2 with
    | Returned a => events env (hist ++ events env hist p) (f a)
    | Exited code => []
    end.
Proof.
  unfold events at 1. rewrite exec_bind.
  destruct (exec env hist p).2 as [a|code] eqn:E.
  - rewrite exec_extends. rewrite (exec_extends p), <- app_assoc.
    by rewrite drop_app_length.
  - simpl. rewrite (exec_extends p), drop_app_length. by rewrite app_nil_r.
Qed.

Lemma outcome_bind {A B} (p : Prog A) (f : A -> Prog B) env hist :
  (exec env hist (bind p f)).2
  = match (exec env hist p).2 with
    | Returned a => (exec env (hist ++ events env hist p) (f a)).2
    | Exited code => Exited code
    end.
Proof.
  rewrite exec_bind. destruct (exec env hist p).2; [|done].
  by rewrite (exec_extends p).
Qed.

Lemma events_onlyCalls {A} kind (p : Prog A) : forall env hist,
  onlyCalls kind p -> Forall (fun ev => kind ev.1 = true) (events env hist p).
Proof.
  induction p as [a|c k IH|code]; intros env hist Hp.
  - rewrite events_Ret. constructor.
  - destruct Hp as [Hc Hk]. rewrite events_Do. constructor; [done|]. by apply IH.
  - rewrite events_Halt. constructor.
Qed.

Lemma omap_none {A B} (f : A -> option B) (l : list A) :
  Forall (fun x => f x = None) l -> omap f l = [].
Proof. induction 1 as [|x l Hx _ IH]; [done|]. cbn. by rewrite Hx. Qed.

Lemma omap_cons {A B} (f : A -> option B) x l :
  omap f (x :: l) = match f x with Some y => y :: omap f l | None => omap f l end.
Proof. reflexivity. Qed.

Lemma onlyCalls_bind {A B} kind (p : Prog A) (f : A -> Prog B) :
  onlyCalls kind p -> (forall a, onlyCalls kind (f a)) -> onlyCalls kind (bind p f).
Proof.
  intros Hp Hf. induction p as [a|c k IH|code]; simpl; [apply Hf| |done].
  destruct Hp as [Hc Hk]. split; [done|]. intros a. by apply IH.
Qed.

Lemma onlyCalls_impl {A} (kind kind' : Call -> bool) (p : Prog A) :
  (forall c, kind c = true -> kind' c = true) -> onlyCalls kind p -> onlyCalls kind' p.
Proof.
  intros Hk. induction p as [a|c k IH|code]; simpl; [done| |done].
  intros [Hc Hp]. split; [by apply Hk|]. intros a. by apply IH.
Qed.

(** Running a program step by step, by cases on the answers. *)
Ltac exec_step env :=
  repeat first
    [ rewrite events_Do; cbv beta
    | rewrite events_Ret
    | rewrite outcome_Do; cbv beta
    | match goal with
      | |- context [match env ?h ?c with Resolved _ => _ | Rejected _ => _ end] =>
          destruct (env h c) eqn:?
      end ].

(** *** [writeFiles] *)

Lemma reportErrors_only errors : onlyCalls isConsoleError (reportErrors errors).
Proof. induction errors as [|[p m] errors IH]; simpl; auto. Qed.

Lemma reportErrors_events env errors : forall hist,
  length (events env hist (reportErrors errors)) = length errors.
Proof.
  induction errors as [|[p m] errors IH]; intros hist; simpl.
  - by rewrite events_Ret.
  - rewrite events_Do. simpl. by rewrite IH.
Qed.

Lemma reportErrors_outcome env errors : forall hist,
  (exec env hist (reportErrors errors)).2 = Returned tt.
Proof.
  induction errors as [|[p m] errors IH]; intros hist; simpl; [done|]. apply IH.
Qed.

Lemma summary_only errors : onlyCalls isConsoleError (summary errors).
Proof.
  unfold summary. destruct (0 <? length errors); simpl; [|done].
  split; [done|]. intros _. apply reportErrors_only.
Qed.

Lemma summary_outcome env hist errors :
  (exec env hist (summary errors)).2 = Returned tt.
Proof.
  unfold summary. destruct (0 <? length errors); simpl; [|done].
  apply reportErrors_outcome.
Qed.

Lemma writeLoop_outcome overwrite files : forall env hist errors,
  exists errors', (exec env hist (writeLoop overwrite files errors)).2 = Returned errors'.
Proof.
  induction files as [|file files IH]; intros env hist errors; cbn [writeLoop].
  - by exists errors.
  - unfold writeOne. destruct overwrite; cbn [negb]; exec_step env; apply IH.
Qed.

Lemma writeFiles_events env hist overwrite files :
  exists errors,
    (exec env hist (writeLoop overwrite files [])).2 = Returned errors /\
    events env hist (writeFiles overwrite files)
    = events env hist (writeLoop overwrite files []) ++
      events env (hist ++ events env hist (writeLoop overwrite files []))
        (summary errors).
Proof.
  destruct (writeLoop_outcome overwrite files env hist []) as [errors He].
  exists errors. split; [done|].
  unfold writeFiles. rewrite events_bind, He. reflexivity.
Qed.

Lemma writeFiles_outcome env hist overwrite files :
  (exec env hist (writeFiles overwrite files)).2 = Returned tt.
Proof.
  destruct (writeLoop_outcome overwrite files env hist []) as [errors He].
  unfold writeFiles. rewrite outcome_bind, He. apply summary_outcome.
Qed.

Lemma writeLoop_mkdirs overwrite files : forall env hist errors,
  omap mkdirOf (events env hist (writeLoop overwrite files errors))
  = (fun f => dirname (filePath f)) <$> files.
Proof.
  induction files as [|file files IH]; intros env hist errors; cbn [writeLoop].
  - by rewrite events_Ret.
  - unfold writeOne. destruct overwrite; cbn [negb]; exec_step env;
      rewrite ?omap_cons; cbn [mkdirOf fst fmap list_fmap]; by rewrite IH.
Qed.

Lemma writeFiles_mkdirs env hist overwrite files :
  omap mkdirOf (events env hist (writeFiles overwrite files))
  = (fun f => dirname (filePath f)) <$> files.
Proof.
  destruct (writeFiles_events env hist overwrite files) as (errors & _ & ->).
  rewrite omap_app, writeLoop_mkdirs.
  rewrite (omap_none mkdirOf (events _ _ (summary errors))); [by rewrite app_nil_r|].
  eapply Forall_impl; [apply events_onlyCalls, summary_only|].
  by intros [[] ?] ?.
Qed.

Lemma writeLoop_only overwrite files : forall errors,
  onlyCalls (isLoopCall overwrite) (writeLoop overwrite files errors).
Proof.
  induction files as [|file files IH]; intros errors; [done|].
  cbn [writeLoop]. unfold writeOne.
  destruct overwrite; cbn [negb]; simpl;
    repeat first [ apply IH | split; [reflexivity|] | intros [?|?] | intros _ ].
Qed.

Lemma filter_none {A} (f : A -> bool) (l : list A) :
  Forall (fun x => f x = false) l -> List.filter f l = [].
Proof. induction 1 as [|x l Hx _ IH]; [done|]. simpl. by rewrite Hx. Qed.

Lemma filter_all {A} (f : A -> bool) (l : list A) :
  Forall (fun x => f x = true) l -> List.filter f l = l.
Proof. induction 1 as [|x l Hx _ IH]; [done|]. simpl. by rewrite Hx, IH. Qed.

Lemma summary_events env hist errors :
  length (events env hist (summary errors))
  = if length errors =? 0 then 0 else S (length errors).
Proof.
  unfold summary. destruct errors as [|e errors]; cbn [length Nat.ltb Nat.leb Nat.eqb].
  - by rewrite events_Ret.
  - rewrite events_Do. cbn [length]. by rewrite reportErrors_events.
Qed.

Lemma writeLoop_writes overwrite files : forall env hist errors,
  omap writeOf (events env hist (writeLoop overwrite files errors))
  `sublist_of` written <$> files.
Proof.
  induction files as [|file files IH]; intros env hist errors; cbn [writeLoop].
  - by rewrite events_Ret.
  - unfold writeOne. destruct overwrite; cbn [negb]; exec_step env;
      rewrite ?omap_cons; cbn [writeOf fst fmap list_fmap];
      first [ apply sublist_skip, IH | apply sublist_cons, IH ].
Qed.

Lemma writeLoop_writes_all env files :
  (forall hist c, isMkdir c || isWrite c = true -> isRejected (env hist c) = false) ->
  forall hist errors,
    omap writeOf (events env hist (writeLoop true files errors)) = written <$> files.
Proof.
  intros Hres. induction files as [|file files IH]; intros hist errors; cbn [writeLoop].
  - by rewrite events_Ret.
  - unfold writeOne. cbn [negb]. exec_step env;
      try match goal with
          | Heq : env ?h ?c = Rejected _ |- _ =>
              let H := fresh in
              pose proof (Hres h c eq_refl) as H; rewrite Heq in H; discriminate H
          end.
    rewrite ?omap_cons. cbn [writeOf fst fmap list_fmap]. by rewrite IH.
Qed.

Lemma writesGuarded_nil : writesGuarded [].
Proof. intros i p c a Hi. by destruct i. Qed.

Lemma writesGuarded_cons ev tr :
  isWrite ev.1 = false -> writesGuarded tr -> writesGuarded (ev :: tr).
Proof.
  intros Hev Htr [|i] p c a Hi; simpl in Hi.
  - by simplify_eq.
  - destruct (Htr i p c a Hi) as (j & m & -> & Hj). by exists (S j), m.
Qed.

Lemma writesGuarded_pair p c m a tr :
  writesGuarded tr ->
  writesGuarded ((Access p, Rejected m) :: (WriteFile p c, a) :: tr).
Proof.
  intros Htr [|[|i]] p' c' a' Hi; simpl in Hi.
  - by simplify_eq.
  - simplify_eq. by exists 0, m.
  - destruct (Htr i p' c' a' Hi) as (j & m' & -> & Hj). by exists (S (S j)), m'.
Qed.

Lemma writesGuarded_app tr1 tr2 :
  writesGuarded tr1 -> Forall (fun ev => isWrite ev.1 = false) tr2 ->
  writesGuarded (tr1 ++ tr2).
Proof.
  intros H1 H2 i p c a Hi. apply lookup_app_Some in Hi as [Hi|[_ Hi]].
  - destruct (H1 i p c a Hi) as (j & m & -> & Hj). exists j, m. split; [done|].
    by apply lookup_app_l_Some.
  - rewrite Forall_forall in H2.
    assert (Hw : isWrite (WriteFile p c, a).1 = false).
    { apply H2. apply list_elem_of_lookup. eauto. }
    done.
Qed.

Lemma writeLoop_guarded files : forall env hist errors,
  writesGuarded (events env hist (writeLoop false files errors)).
Proof.
  induction files as [|file files IH]; intros env hist errors; cbn [writeLoop].
  - rewrite events_Ret. apply writesGuarded_nil.
  - unfold writeOne. cbn [negb]. exec_step env;
      repeat first [ apply IH
                   | apply writesGuarded_pair
                   | apply writesGuarded_cons; [reflexivity|] ].
Qed.

Lemma writeLoop_errors overwrite files : forall env hist errors,
  exists errors',
    (exec env hist (writeLoop overwrite files errors)).2 = Returned (errors ++ errors') /\
    length errors'
    = length (failedWrites (events env hist (writeLoop overwrite files errors))).
Proof.
  unfold failedWrites.
  induction files as [|file files IH]; intros env hist errors; cbn [writeLoop].
  - exists []. rewrite events_Ret. by rewrite app_nil_r.
  - unfold writeOne. destruct overwrite; cbn [negb]; exec_step env;
      match goal with
      | |- context [exec env ?h (writeLoop _ _ ?e)] =>
          destruct (IH env h e) as (errors' & He & Hl)
      end;
      rewrite He;
      cbn [List.filter isFailedWrite isMkdir isWrite isRejected fst snd orb andb length];
      rewrite <- ?Hl, <- ?app_assoc;
      eexists; (split; [reflexivity|]); simpl; done.
Qed.

Lemma run_events {A} env (p : Prog A) : (run env p).1 = events env [] p.
Proof. unfold events, run. simpl. by rewrite drop_0. Qed.

Lemma summary_omap {B} (f : Event -> option B) env hist errors :
  (forall c a, isConsoleError c = true -> f (c, a) = None) ->
  omap f (events env hist (summary errors)) = [].
Proof.
  intros Hf. apply omap_none.
  eapply Forall_impl; [apply events_onlyCalls, summary_only|].
  intros [c a] Hc. by apply Hf.
Qed.

Lemma writeFiles_only overwrite files :
  onlyCalls (fun c => isLoopCall overwrite c || isConsoleError c)
    (writeFiles overwrite files).
Proof.
  apply onlyCalls_bind.
  - eapply onlyCalls_impl; [|apply writeLoop_only]. by intros c ->.
  - intros errors. eapply onlyCalls_impl; [|apply summary_only].
    intros c ->. apply orb_true_r.
Qed.

Lemma writeFiles_writes env hist overwrite files :
  omap writeOf (events env hist (writeFiles overwrite files))
  `sublist_of` written <$> files.
Proof.
  destruct (writeFiles_events env hist overwrite files) as (errors & _ & ->).
  rewrite omap_app, summary_omap, app_nil_r by (by intros []).
  apply writeLoop_writes.
Qed.

Lemma writeFiles_writes_all env hist files :
  (forall hist c, isMkdir c || isWrite c = true -> isRejected (env hist c) = false) ->
  omap writeOf (events env hist (writeFiles true files)) = written <$> files.
Proof.
  intros Hres.
  destruct (writeFiles_events env hist true files) as (errors & _ & ->).
  rewrite omap_app, summary_omap, app_nil_r by (by intros []).
  by apply writeLoop_writes_all.
Qed.

Lemma writeFiles_guarded env hist files :
  writesGuarded (events env hist (writeFiles false files)).
Proof.
  destruct (writeFiles_events env hist false files) as (errors & _ & ->).
  apply writesGuarded_app; [apply writeLoop_guarded|].
  eapply Forall_impl; [apply events_onlyCalls, summary_only|].
  by intros [[] ?] ?.
Qed.

Lemma writeFiles_no_access env hist files :
  omap accessOf (events env hist (writeFiles true files)) = [].
Proof.
  apply omap_none.
  eapply Forall_impl; [apply events_onlyCalls, writeFiles_only|].
  by intros [[] ?] ?.
Qed.

Lemma writeFiles_error_lines env hist overwrite files :
  let tr := events env hist (writeFiles overwrite files) in
  length (errorLines tr)
  = if length (failedWrites tr) =? 0 then 0 else S (length (failedWrites tr)).
Proof.
  intros tr. subst tr.
  destruct (writeFiles_events env hist overwrite files) as (errors & He & ->).
  destruct (writeLoop_errors overwrite files env hist []) as (errors' & He' & Hl).
  rewrite He in He'. simpl in He'. injection He' as ->.
  unfold errorLines, failedWrites in *. rewrite !List.filter_app, !length_app.
  rewrite (filter_none _ (events env hist (writeLoop overwrite files []))).
  2:{ eapply Forall_impl; [apply events_onlyCalls, writeLoop_only|].
      intros [[] ?]; try done. unfold isLoopCall. simpl. by rewrite andb_false_r. }
  rewrite (filter_none isFailedWrite (events _ _ (summary errors'))).
  2:{ eapply Forall_impl; [apply events_onlyCalls, summary_only|].
      by intros [[] ?] ?. }
  rewrite filter_all by apply events_onlyCalls, summary_only.
  rewrite summary_events, <- Hl. simpl. by rewrite Nat.add_0_r.
Qed.

(** X10. [writeFiles] never gives up: whatever calls are rejected, it asks
    for the directory of every file, in the order of the list, and returns
    normally. *)
Theorem writeFiles_tries_every_file env overwrite files :
  omap mkdirOf (run env (writeFiles overwrite files)).1
  = (fun f => dirname (filePath f)) <$> files /\
  (run env (writeFiles overwrite files)).2 = Returned tt.
Proof.
  split; [rewrite run_events; apply writeFiles_mkdirs | apply writeFiles_outcome].
Qed.

(** X11. What [writeFiles] writes is taken from the list of files: the
    calls of [fs.writeFile], in order, carry the path and the unchanged
    content of files of the list in the order of the list, each entry at
    most once. *)
Theorem writes_are_verbatim env overwrite files :
  omap writeOf (run env (writeFiles overwrite files)).1
  `sublist_of` written <$> files.
Proof. rewrite run_events. apply writeFiles_writes. Qed.

(** X12. With the overwrite option set, and when no call of [fs.mkdir] or
    [fs.writeFile] is rejected, every file of the list is written, in order,
    with its content. *)
Theorem overwrite_writes_every_file env files :
  (forall hist c, isMkdir c || isWrite c = true -> isRejected (env hist c) = false) ->
  omap writeOf (run env (writeFiles true files)).1 = written <$> files.
Proof. intros Hres. rewrite run_events. by apply writeFiles_writes_all. Qed.

Lemma overwrite_writes_every_file_witness :
  omap writeOf
    (run (fun _ _ => Resolved EmptyString)
       (writeFiles true
          [ {| language := "typescript"; fileName := "b.ts";
               filePath := "out/a/b.ts"; content := "x"; type := "code-block" |};
            {| language := "txt"; fileName := "c.md";
               filePath := "out/a/c.md"; content := "y"; type := "code-block" |} ])).1
  = [("out/a/b.ts", "x"); ("out/a/c.md", "y")].
Proof. apply (overwrite_writes_every_file (fun _ _ => Resolved EmptyString)). reflexivity. Defined.

(** X13. Without the overwrite option, [writeFiles] writes a file only
    right after [fs.access] on that very path was rejected, so a path found
    to exist is not written; with the option set it never calls
    [fs.access]. *)
Theorem existing_files_are_not_overwritten env files :
  writesGuarded (run env (writeFiles false files)).1 /\
  omap accessOf (run env (writeFiles true files)).1 = [].
Proof.
  rewrite !run_events. split; [apply writeFiles_guarded | apply writeFiles_no_access].
Qed.

(** X14. The error summary of [writeFiles]: nothing is printed on the error
    stream when no call of [fs.mkdir] or [fs.writeFile] was rejected, and
    otherwise a heading and one line for each rejected call. *)
Theorem error_summary_counts_failures env overwrite files :
  let tr := (run env (writeFiles overwrite files)).1 in
  length (errorLines tr)
  = if length (failedWrites tr) =? 0 then 0 else S (length (failedWrites tr)).
Proof. rewrite run_events. apply writeFiles_error_lines. Qed.

(** *** [checkExistingFiles] *)

Lemma checkLoop_spec files : forall env hist existing,
  (events env hist (checkLoop files existing)).*1 = (fun f => Access (filePath f)) <$> files /\
  (exec env hist (checkLoop files existing)).2
  = Returned (existing ++ omap foundOf (events env hist (checkLoop files existing))).
Proof.
  induction files as [|file files IH]; intros env hist existing; cbn [checkLoop].
  - rewrite events_Ret. simpl. by rewrite app_nil_r.
  - exec_step env;
      match goal with
      | |- context [exec env ?h (checkLoop _ ?e)] => destruct (IH env h e) as [Hc Ho]
      end;
      rewrite Ho, omap_cons; cbn [foundOf fmap list_fmap fst];
      rewrite Hc, <- ?app_assoc; done.
Qed.

(** X15. [checkExistingFiles] asks [fs.access] once for the path of every
    file, in order and nothing else, and returns the paths for which the
    call was resolved, in that order. *)
Theorem checkExistingFiles_reports_accessible env files :
  let r := run env (checkExistingFiles files) in
  r.1.*1 = (fun f => Access (filePath f)) <$> files /\
  r.2 = Returned (omap foundOf r.1).
Proof.
  cbv zeta. rewrite run_events.
  destruct (checkLoop_spec files env [] []) as [Hc Ho]. split; [done|].
  unfold run, checkExistingFiles. by rewrite Ho.
Qed.

(** *** [promptUser] *)

Lemma lowerChar_y c : lowerChar c = "y"%char <-> c = "y"%char \/ c = "Y"%char.
Proof.
  destruct c as [[] [] [] [] [] [] [] []]; vm_compute; split;
    first [ discriminate | intros [?|?]; discriminate | auto ].
Qed.

(** X16. The prompt counts an answer as a yes exactly when its first
    character is y or Y; the empty answer and every other answer decline. *)
Theorem isYes_iff answer :
  isYes answer = true <->
  exists rest, answer = String "y" rest \/ answer = String "Y" rest.
Proof.
  unfold isYes. destruct answer as [|c rest]; cbn [toLowerCase].
  - split; [done|]. by intros (? & [?|?]).
  - change (Js.startsWith "y" (String (lowerChar c) (toLowerCase rest)))
      with (Ascii.eqb "y" (lowerChar c) && Js.startsWith EmptyString (toLowerCase rest)).
    assert (Hs : forall s, Js.startsWith EmptyString s = true) by (by intros []).
    rewrite Hs, andb_true_r. split.
    + intros H. apply Ascii.eqb_eq in H. symmetry in H.
      apply lowerChar_y in H as [-> | ->]; eauto.
    + intros (r & [H|H]); injection H as -> _; reflexivity.
Qed.

(** *** [process] *)

Lemma extractFiles_total outputDir content :
  exists files, extractFiles outputDir content = Some files.
Proof.
  destruct (Coordinator.fragmentStream_total content) as [artifact Hs].
  eexists. by rewrite Coordinator.extractFiles_collect, Hs.
Qed.

Lemma listPaths_only colour paths : onlyCalls isConsoleLog (listPaths colour paths).
Proof. induction paths as [|p paths IH]; simpl; auto. Qed.

Lemma listPaths_outcome env colour paths : forall hist,
  (exec env hist (listPaths colour paths)).2 = Returned tt.
Proof. induction paths as [|p paths IH]; intros hist; simpl; [done|]. apply IH. Qed.

Lemma listPaths_logged env hist colour paths :
  logged (events env hist (listPaths colour paths)).
Proof. apply events_onlyCalls, listPaths_only. Qed.

Lemma writeAndReport_spec env hist options files :
  exists logs a1,
    events env hist (writeAndReport options files)
    = events env hist (writeFiles (overwrite options) files) ++ logs ++ [(Close, a1)] /\
    logged logs /\
    (exec env hist (writeAndReport options files)).2 = Returned options.
Proof.
  unfold writeAndReport.
  rewrite events_bind, outcome_bind, writeFiles_outcome.
  rewrite !events_Do, !outcome_Do. cbv beta.
  rewrite events_bind, outcome_bind, listPaths_outcome.
  rewrite events_Do, events_Ret, outcome_Do. cbv beta.
  eexists (_ :: _ :: events _ _ (listPaths white (filePath <$> files))), _.
  split; [|split].
  - cbn [app]. by rewrite <- app_assoc.
  - repeat constructor. apply listPaths_logged.
  - reflexivity.
Qed.

Lemma confirm_asks env hist options files existingFiles :
  existingFiles <> [] ->
  exists logs q,
    logged logs /\
    ((exists error a1 a2,
        events env hist (confirm options files existingFiles)
        = logs ++ [ (Question q, Rejected error);
                    (ConsoleErrorWith red "Error processing file:" error, a1);
                    (Close, a2) ] /\
        (exec env hist (confirm options files existingFiles)).2 = Exited 1)
     \/
     (exists answer a1 a2,
        isYes answer = false /\
        events env hist (confirm options files existingFiles)
        = logs ++ [ (Question q, Resolved answer);
                    (ConsoleLog red "Operation cancelled by user.", a1);
                    (Close, a2) ] /\
        (exec env hist (confirm options files existingFiles)).2 = Returned options)
     \/
     (exists answer hist' logs' a1,
        isYes answer = true /\
        events env hist (confirm options files existingFiles)
        = logs ++ (Question q, Resolved answer) ::
          events env hist' (writeFiles true files) ++ logs' ++ [(Close, a1)] /\
        logged logs' /\
        (exec env hist (confirm options files existingFiles)).2
        = Returned (overwriting options))).
Proof.
  intros Hne. unfold confirm.
  destruct existingFiles as [|p found]; [done|]. cbn [length Nat.ltb Nat.leb].
  rewrite events_Do, outcome_Do. cbv beta.
  set (e0 := (ConsoleLog yellow _, _)). generalize (hist ++ [e0]). intros h1.
  rewrite events_bind, outcome_bind, listPaths_outcome.
  pose proof (listPaths_logged env h1 yellow (p :: found)) as Hlogs.
  set (listing := events env h1 (listPaths yellow (p :: found))) in *.
  generalize (h1 ++ listing). intros h2.
  rewrite events_bind, outcome_bind. unfold promptUser.
  rewrite !outcome_Do, events_Do. cbv beta.
  set (q := nl +:+ "Do you want to overwrite these files? (y/N): ").
  exists (e0 :: listing), q. split; [by constructor|].
  destruct (env h2 (Question q)) as [answer|error].
  - rewrite events_Ret. cbn [exec snd app].
    set (h3 := h2 ++ [(Question q, Resolved answer)]).
    destruct (isYes answer) eqn:Hyes; cbn [negb]; right; [right|left].
    + destruct (writeAndReport_spec env h3 (overwriting options) files)
        as (logs' & a1 & He & Hl & Ho).
      exists answer, h3, logs', a1. split; [done|]. split; [|split]; [|done|exact Ho].
      transitivity ((e0 :: listing) ++ (Question q, Resolved answer) ::
                    events env h3 (writeAndReport (overwriting options) files));
        [reflexivity|].
      by rewrite He.
    + rewrite !events_Do, events_Ret. exists answer. do 2 eexists.
      split; [done|]. split; [|reflexivity].
      cbn [app]. by rewrite <- app_assoc.
  - left. rewrite events_Ret. cbn [exec snd app]. unfold failed.
    rewrite !events_Do, events_Halt. exists error. do 2 eexists.
    split; [|reflexivity]. cbn [app]. by rewrite <- app_assoc.
Qed.

Lemma process_runs env options :
  ProcessRun env options (run env (process options)).1 (run env (process options)).2.
Proof.
  rewrite run_events. unfold run, process.
  rewrite !events_Do, !outcome_Do. cbv beta. cbn [app].
  fold (announce options). fold (readInput options).
  generalize (env [] (announce options)). intros a0.
  destruct (env _ (readInput options)) as [content|message].
  2:{ unfold failed. rewrite !events_Do, events_Halt. apply run_unreadable. }
  destruct (extractFiles_total (outputDir options) content) as [files Hfiles].
  rewrite Hfiles. destruct files as [|file files]; cbn [length Nat.eqb].
  { rewrite events_Do, events_Ret. by apply run_nothing. }
  set (files' := file :: files) in *.
  assert (Hne : files' <> []) by done. clearbody files'.
  rewrite events_bind, outcome_bind. unfold checkExistingFiles.
  set (h := [_; _]).
  destruct (checkLoop_spec files' env h []) as [Hc Ho]. rewrite Ho. cbn [app].
  set (checks := events env h (checkLoop files' [])) in *.
  generalize (h ++ checks). intros h'.
  destruct (omap foundOf checks) as [|p found] eqn:Hfound.
  - unfold confirm. cbn [length Nat.ltb Nat.leb].
    destruct (writeAndReport_spec env h' options files') as (logs & a1 & -> & Hl & ->).
    by eapply run_fresh.
  - destruct (confirm_asks env h' options files' (p :: found))
      as (logs & q & Hl &
          [(error & a1 & a2 & -> & ->)
          |[(answer & a1 & a2 & Hyes & -> & ->)
           |(answer & hist' & logs' & a1 & Hyes & -> & Hl' & ->)]]); [done| | |].
    + eapply run_unanswered; eauto. by rewrite Hfound.
    + eapply run_declined; eauto. by rewrite Hfound.
    + eapply run_accepted; eauto. by rewrite Hfound.
Qed.

Lemma omap_kind {B} (f : Event -> option B) (kind : Call -> bool) tr :
  (forall c a, kind c = true -> f (c, a) = None) ->
  Forall (fun ev => kind ev.1 = true) tr -> omap f tr = [].
Proof.
  intros Hf Htr. apply omap_none. eapply Forall_impl; [exact Htr|].
  intros [c a] Hc. by apply Hf.
Qed.

Lemma checksOf_access files checks :
  checksOf files checks -> Forall (fun ev => isAccess ev.1 = true) checks.
Proof.
  unfold checksOf. revert files.
  induction checks as [|[c a] checks IH]; intros files H; [constructor|].
  destruct files as [|file files]; [done|]. simpl in H. injection H as -> H.
  constructor; [done|]. by eapply IH.
Qed.

Lemma writeFiles_kind env hist overwrite files :
  Forall (fun ev => (isLoopCall overwrite ev.1 || isConsoleError ev.1) = true)
    (events env hist (writeFiles overwrite files)).
Proof.
  apply (events_onlyCalls (fun c => isLoopCall overwrite c || isConsoleError c)),
    writeFiles_only.
Qed.

Lemma writeFiles_questions env hist overwrite files :
  omap questionOf (events env hist (writeFiles overwrite files)) = [].
Proof.
  apply (omap_kind _ (fun c => isLoopCall overwrite c || isConsoleError c));
    [|apply writeFiles_kind].
  intros [] a; try done. unfold isLoopCall. simpl. by rewrite andb_false_r.
Qed.

Lemma writeFiles_found env hist files :
  omap foundOf (events env hist (writeFiles true files)) = [].
Proof.
  apply (omap_kind _ (fun c => isLoopCall true c || isConsoleError c));
    [|apply writeFiles_kind].
  by intros [] a.
Qed.

Lemma logged_omap {B} (f : Event -> option B) logs :
  (forall c a, isConsoleLog c = true -> f (c, a) = None) ->
  logged logs -> omap f logs = [].
Proof. intros Hf Hl. by eapply omap_kind. Qed.

Lemma checks_omap {B} (f : Event -> option B) files checks :
  (forall c a, isAccess c = true -> f (c, a) = None) ->
  checksOf files checks -> omap f checks = [].
Proof. intros Hf Hc. eapply omap_kind; [done|]. by eapply checksOf_access. Qed.

Lemma omap_elem {B} (f : Event -> option B) (tr : Trace) ev y :
  ev ∈ tr -> f ev = Some y -> y ∈ omap f tr.
Proof. intros Hev Hf. apply list_elem_of_omap. eauto. Qed.

(** Splitting a run of [process] into its outcome and its trace, by cases. *)
Ltac process_cases env options :=
  let H := fresh "Hrun" in
  pose proof (process_runs env options) as H;
  destruct (run env (process options)) as [tr out]; cbn [fst snd] in *;
  destruct H as [r0 m r1 r2|r0 doc r1 Hx
                |r0 doc found checks hist logs r1 Hx Hne Hc Hf Hl
                |r0 doc found checks logs qn err r1 r2 Hx Hne Hc Hf Hl
                |r0 doc found checks logs qn ans r1 r2 Hx Hne Hc Hf Hl Hyes
                |r0 doc found checks logs qn ans hist logs' r1 Hx Hne Hc Hf Hl Hyes Hl'].

(** The questions in the trace of a run, piece by piece. *)
Ltac questions_in H Hc Hl :=
  rewrite ?omap_cons, ?omap_app in H;
  cbn [questionOf announce readInput fst snd] in H;
  rewrite ?omap_cons, ?omap_app in H;
  cbn [questionOf fst snd] in H;
  rewrite ?(checks_omap questionOf _ _ ltac:(by intros []) Hc),
          ?(logged_omap questionOf _ ltac:(by intros []) Hl),
          ?writeFiles_questions in H;
  cbn [app omap list_omap] in H.

(** The directories made and the files written in the trace of a run that
    stops at the question, piece by piece. *)
Ltac nothing_made Hc Hl :=
  rewrite !omap_cons, !omap_app;
  cbn [mkdirOf writeOf announce readInput fst];
  rewrite ?(checks_omap mkdirOf _ _ ltac:(by intros []) Hc),
          ?(checks_omap writeOf _ _ ltac:(by intros []) Hc),
          ?(logged_omap mkdirOf _ ltac:(by intros []) Hl),
          ?(logged_omap writeOf _ ltac:(by intros []) Hl);
  reflexivity.

(** X17. [process] first announces and reads the input path. It exits with
    code 1 exactly when the read is rejected or the question to the user
    throws; the run has then made no directory and written no file, and its
    last calls are the rejected one, the print of its error and the closing
    of the prompt. Every other run returns normally, with the input path
    and the output directory of the options unchanged. *)
Theorem process_exits_on_failed_read_or_prompt env options :
  let r := run env (process options) in
  (exists a0 a,
     r.1 !! 0 = Some (announce options, a0) /\
     r.1 !! 1 = Some (readInput options, a)) /\
  (r.2 = Exited 1 <->
     (exists message, r.1 !! 1 = Some (readInput options, Rejected message)) \/
     (exists q error, (Question q, Rejected error) ∈ r.1)) /\
  (r.2 = Exited 1 ->
     omap mkdirOf r.1 = [] /\ omap writeOf r.1 = [] /\
     exists before c error a1 a2,
       r.1 = before ++ [ (c, Rejected error);
                         (ConsoleErrorWith red "Error processing file:" error, a1);
                         (Close, a2) ]) /\
  (r.2 <> Exited 1 ->
     exists options',
       r.2 = Returned options' /\
       inputPath options' = inputPath options /\
       outputDir options' = outputDir options).
Proof.
  cbv zeta. process_cases env options;
    (split; [by eexists _, _|]); (split; [split|split]); try done.
  - (* the read is rejected *)
    intros _. left. by eexists.
  - intros _. repeat split.
    by exists [(announce options, r0)], (readInput options), m, r1, r2.
  - (* nothing is found *)
    intros [(message & H)|(q & error & Hq)]; [by simplify_eq/=|].
    apply (omap_elem questionOf _ _ (q, Rejected error)) in Hq; [|done].
    by apply elem_of_nil in Hq.
  - intros _. by exists options.
  - (* no file exists yet *)
    intros [(message & H)|(q & error & Hq)]; [by simplify_eq/=|].
    apply (omap_elem questionOf _ _ (q, Rejected error)) in Hq; [|done].
    questions_in Hq Hc Hl. by apply elem_of_nil in Hq.
  - intros _. by exists options.
  - (* the question throws *)
    intros _. right. exists qn, err. set_solver.
  - intros _. split; [nothing_made Hc Hl|]. split; [nothing_made Hc Hl|].
    exists ((announce options, r0) :: (readInput options, Resolved doc) ::
            checks ++ logs), (Question qn), err, r1, r2.
    cbn [app]. by rewrite <- app_assoc.
  - (* the user declines *)
    intros [(message & H)|(q & error & Hq)]; [by simplify_eq/=|].
    apply (omap_elem questionOf _ _ (q, Rejected error)) in Hq; [|done].
    questions_in Hq Hc Hl. apply list_elem_of_singleton in Hq. by simplify_eq.
  - intros _. by exists options.
  - (* the user agrees *)
    intros [(message & H)|(q & error & Hq)]; [by simplify_eq/=|].
    apply (omap_elem questionOf _ _ (q, Rejected error)) in Hq; [|done].
    questions_in Hq Hc Hl.
    rewrite (logged_omap questionOf logs' ltac:(by intros []) Hl') in Hq.
    apply list_elem_of_singleton in Hq. by simplify_eq.
  - intros _. by exists (overwriting options).
Qed.

(** X18. When the input was read, the prompt interface is closed by the end
    of the run exactly when something was extracted: a run that finds no
    file returns without closing it. *)
Theorem prompt_closed_unless_nothing_found env options content :
  let r := run env (process options) in
  r.1 !! 1 = Some (readInput options, Resolved content) ->
  (Close ∈ r.1.*1 <-> extractFiles (outputDir options) content <> Some []).
Proof.
  cbv zeta. process_cases env options; cbn [lookup list_lookup]; intros Hread;
    simplify_eq.
  - split; [|by rewrite Hx]. cbn [fmap list_fmap fst announce readInput].
    rewrite !elem_of_cons, elem_of_nil. intros [?|[?|[?|?]]]; done.
  - split; [intros _; rewrite Hx; congruence|intros _].
    rewrite !fmap_cons, !fmap_app. set_solver.
  - split; [intros _; rewrite Hx; congruence|intros _].
    rewrite !fmap_cons, !fmap_app. set_solver.
  - split; [intros _; rewrite Hx; congruence|intros _].
    rewrite !fmap_cons, !fmap_app. set_solver.
  - split; [intros _; rewrite Hx; congruence|intros _].
    rewrite !fmap_cons, !fmap_app, !fmap_cons, !fmap_app. set_solver.
Qed.

Lemma prompt_closed_unless_nothing_found_witness :
  Close ∈ (run (World.world true "n") (process World.options)).1.*1 <->
  extractFiles "out" World.document <> Some [].
Proof.
  apply (prompt_closed_unless_nothing_found (World.world true "n") World.options
           World.document).
  vm_compute. reflexivity.
Defined.

(** X19. When the user answers the question and the answer does not count
    as a yes, the run makes no directory and writes no file, and leaves the
    options as they were. *)
Theorem declined_prompt_writes_nothing env options q answer :
  let r := run env (process options) in
  (Question q, Resolved answer) ∈ r.1 -> isYes answer = false ->
  omap mkdirOf r.1 = [] /\ omap writeOf r.1 = [] /\ r.2 = Returned options.
Proof.
  cbv zeta. process_cases env options; intros Hq Hno;
    apply (omap_elem questionOf _ _ (q, Resolved answer)) in Hq; try reflexivity.
  - by apply elem_of_nil in Hq.
  - by apply elem_of_nil in Hq.
  - questions_in Hq Hc Hl. by apply elem_of_nil in Hq.
  - questions_in Hq Hc Hl. apply list_elem_of_singleton in Hq. by simplify_eq.
  - split; [nothing_made Hc Hl|]. split; [nothing_made Hc Hl|done].
  - questions_in Hq Hc Hl.
    rewrite (logged_omap questionOf logs' ltac:(by intros []) Hl') in Hq.
    apply list_elem_of_singleton in Hq. simplify_eq. congruence.
Qed.

Lemma declined_prompt_writes_nothing_witness :
  omap mkdirOf (run (World.world true "n") (process World.options)).1 = [] /\
  omap writeOf (run (World.world true "n") (process World.options)).1 = [] /\
  (run (World.world true "n") (process World.options)).2 = Returned World.options.
Proof.
  apply (declined_prompt_writes_nothing (World.world true "n") World.options
           World.overwriteQuestion "n").
  - apply list_elem_of_lookup. exists 5. vm_compute. reflexivity.
  - reflexivity.
Defined.

(** X20. When the user answers the question with a yes, nothing was made or
    written before the question; after it the directory of every extracted
    file is asked for, no existence check is made any more, what is written
    is taken in order from the extracted files, and the options end with
    overwrite set. *)
Theorem accepted_prompt_overwrites env options q answer :
  let r := run env (process options) in
  (Question q, Resolved answer) ∈ r.1 -> isYes answer = true ->
  exists content files before after,
    r.1 !! 1 = Some (readInput options, Resolved content) /\
    extractFiles (outputDir options) content = Some files /\
    r.1 = before ++ (Question q, Resolved answer) :: after /\
    omap mkdirOf before = [] /\
    omap writeOf before = [] /\
    omap accessOf after = [] /\
    omap mkdirOf after = (fun f => dirname (filePath f)) <$> files /\
    omap writeOf after `sublist_of` written <$> files /\
    r.2 = Returned (overwriting options).
Proof.
  cbv zeta. process_cases env options; intros Hq Hyes';
    apply (omap_elem questionOf _ _ (q, Resolved answer)) in Hq; try reflexivity.
  - by apply elem_of_nil in Hq.
  - by apply elem_of_nil in Hq.
  - questions_in Hq Hc Hl. by apply elem_of_nil in Hq.
  - questions_in Hq Hc Hl. apply list_elem_of_singleton in Hq. by simplify_eq.
  - questions_in Hq Hc Hl. apply list_elem_of_singleton in Hq. simplify_eq. congruence.
  - questions_in Hq Hc Hl.
    rewrite (logged_omap questionOf logs' ltac:(by intros []) Hl') in Hq.
    apply list_elem_of_singleton in Hq. simplify_eq.
    exists doc, found,
      ((announce options, r0) :: (readInput options, Resolved doc) :: checks ++ logs),
      (events env hist (writeFiles true found) ++ logs' ++ [(Close, r1)]).
    repeat split; try done.
    + cbn [app]. by rewrite <- app_assoc.
    + nothing_made Hc Hl.
    + nothing_made Hc Hl.
    + rewrite !omap_app, writeFiles_no_access.
      by rewrite (logged_omap accessOf _ ltac:(by intros []) Hl').
    + rewrite !omap_app, writeFiles_mkdirs.
      rewrite (logged_omap mkdirOf _ ltac:(by intros []) Hl'). by rewrite app_nil_r.
    + rewrite !omap_app, (logged_omap writeOf _ ltac:(by intros []) Hl').
      cbn [omap list_omap writeOf fst app]. rewrite app_nil_r.
      apply writeFiles_writes.
Qed.

Lemma accepted_prompt_overwrites_witness :
  exists content files before after,
    (run (World.world true "Yes") (process World.options)).1 !! 1
    = Some (readInput World.options, Resolved content) /\
    extractFiles (outputDir World.options) content = Some files /\
    (run (World.world true "Yes") (process World.options)).1
    = before ++ (Question World.overwriteQuestion, Resolved "Yes") :: after /\
    omap mkdirOf before = [] /\
    omap writeOf before = [] /\
    omap accessOf after = [] /\
    omap mkdirOf after = (fun f => dirname (filePath f)) <$> files /\
    omap writeOf after `sublist_of` written <$> files /\
    (run (World.world true "Yes") (process World.options)).2
    = Returned (overwriting World.options).
Proof.
  apply (accepted_prompt_overwrites (World.world true "Yes") World.options
           World.overwriteQuestion "Yes").
  - apply list_elem_of_lookup. exists 5. vm_compute. reflexivity.
  - reflexivity.
Defined.

Lemma found_exists (checks : Trace) :
  omap foundOf checks <> [] -> exists p v, (Access p, Resolved v) ∈ checks.
Proof.
  intros Hf. destruct (omap foundOf checks) as [|p l] eqn:E; [done|].
  assert (Hp : p ∈ omap foundOf checks) by (rewrite E; left).
  apply list_elem_of_omap in Hp as ([[] [v|m]] & Hev & Hfo); simplify_eq/=. eauto.
Qed.

(** X21. When no call of [fs.access] is resolved during a run, the user is
    asked nothing and a run that returns leaves the options as they
    were. *)
Theorem no_prompt_when_nothing_exists env options :
  let r := run env (process options) in
  (forall p v, (Access p, Resolved v) ∉ r.1) ->
  omap questionOf r.1 = [] /\
  (forall options', r.2 = Returned options' -> options' = options).
Proof.
  cbv zeta. process_cases env options; intros Hnone.
  - done.
  - split; [done|]. by intros ? [= <-].
  - split; [|by intros ? [= <-]].
    rewrite !omap_cons, !omap_app. cbn [questionOf announce readInput fst].
    rewrite (checks_omap questionOf _ _ ltac:(by intros []) Hc).
    rewrite (logged_omap questionOf _ ltac:(by intros []) Hl).
    by rewrite writeFiles_questions.
  - destruct (found_exists _ Hf) as (p & v & Hp). destruct (Hnone p v). set_solver.
  - destruct (found_exists _ Hf) as (p & v & Hp). destruct (Hnone p v). set_solver.
  - destruct (found_exists _ Hf) as (p & v & Hp). destruct (Hnone p v). set_solver.
Qed.

Lemma no_prompt_when_nothing_exists_witness :
  omap questionOf (run (World.world false "n") (process World.options)).1 = [] /\
  (forall options',
     (run (World.world false "n") (process World.options)).2 = Returned options' ->
     options' = World.options).
Proof.
  apply (no_prompt_when_nothing_exists (World.world false "n") World.options).
  intros p v Hp. apply (omap_elem foundOf _ _ p) in Hp; [|reflexivity].
  vm_compute in Hp. by apply elem_of_nil in Hp.
Defined.

Lemma extracted_files outputDir content files :
  extractFiles outputDir content = Some files ->
  NoDup (filePath <$> files) /\
  Forall (fun f => exists p, isValidPath p = true /\
                             filePath f = NodePath.join outputDir p) files.
Proof.
  destruct (Coordinator.fragmentStream_total content) as [artifact Hs].
  set (stream := _ ++ artifact) in Hs.
  rewrite Coordinator.extractFiles_collect, Hs. simpl. intros [= <-].
  destruct (Coordinator.collect_spec outputDir stream) as (_ & Hnd & Hfiles).
  split; [done|]. apply Forall_forall. intros f Hf.
  apply Hfiles in Hf as (i & frag & [Hi _] & ->).
  pose proof (RunProperties.fragmentStream_valid _ _ Hs) as Hvalid.
  rewrite Forall_forall in Hvalid.
  exists (block_path frag.1). split; [|done].
  apply Hvalid. apply list_elem_of_lookup. eauto.
Qed.

Lemma extractedIn_files options tr :
  NoDup (filePath <$> extractedIn options tr) /\
  Forall (fun f => exists p, isValidPath p = true /\
                             filePath f = NodePath.join (outputDir options) p)
    (extractedIn options tr).
Proof.
  unfold extractedIn.
  destruct (tr !! 1) as [[[] [content|]]|]; try (split; constructor).
  destruct (extractFiles (outputDir options) content) as [files|] eqn:E; simpl.
  - by eapply extracted_files.
  - split; constructor.
Qed.

(** X22. Whatever the environment answers, the files that a run of
    [process] writes are extracted files of the content it has read, in
    their order and with their content: no path is written twice, and each
    written path is the output directory joined with a path that the
    validator accepts. *)
Theorem process_writes_extracted_files env options :
  let r := run env (process options) in
  let writes := omap writeOf r.1 in
  writes `sublist_of` written <$> extractedIn options r.1 /\
  NoDup writes.*1 /\
  Forall (fun w => exists p, isValidPath p = true /\
                             w.1 = NodePath.join (outputDir options) p) writes.
Proof.
  cbv zeta.
  assert (Hsub : omap writeOf (run env (process options)).1
                 `sublist_of` written <$> extractedIn options (run env (process options)).1).
  { process_cases env options; unfold extractedIn; cbn [lookup list_lookup readInput];
      rewrite ?Hx; cbn [default];
      rewrite ?omap_cons, ?omap_app; cbn [writeOf announce fst];
      rewrite ?omap_cons, ?omap_app; cbn [writeOf fst];
      rewrite ?(checks_omap writeOf _ _ ltac:(by intros []) Hc),
              ?(logged_omap writeOf _ ltac:(by intros []) Hl);
      cbn [app omap list_omap writeOf fst]; try apply sublist_nil_l.
    - rewrite app_nil_r. apply writeFiles_writes.
    - rewrite (logged_omap writeOf _ ltac:(by intros []) Hl'), app_nil_r.
      apply writeFiles_writes. }
  destruct (extractedIn_files options (run env (process options)).1) as [Hnd Hv].
  split; [done|]. split.
  - eapply sublist_NoDup; [|apply fmap_sublist, Hsub].
    by rewrite <- list_fmap_compose.
  - apply Forall_forall. intros w Hw.
    eapply elem_of_sublist in Hw; [|exact Hsub].
    apply list_elem_of_fmap in Hw as (f & -> & Hf).
    rewrite Forall_forall in Hv. by apply Hv.
Qed.


End DriverFacts.
